(** * APIKeyzer: key detection, input parsing and validation orchestration

    A shallow embedding of the Go sources

    - [internal/input/parser.go]      (package [input]: [Parser]; package
                                       [detector]: [KeyDetector]),
    - [internal/validator/services/googlemaps.go]
                                      (package [services]: [GoogleMapsValidator];
                                       package [validator]: [ValidationManager]),
    - [internal/input/validator.go]   (package [input]: [ValidatePatternFile]),
    - [cmd/apiKeyzer/main.go]         (package [main]: the loop over the
                                       keys),

    together with the properties the specification states about them and
    further properties of the code.

    Conventions.  A Go [string] and a Go [[]byte] are Rocq [string]s (a
    sequence of bytes).  A Go [map[string]T] is a [gmap string T].  A Go
    function returning [(T, error)] returns a [result T]; an [error] is
    represented by its message.  A function that can panic returns a [run].
    Library calls that reach outside the process (files, network, clock) or
    whose code is not part of the repository (regexp, encoding/json, net/url,
    net/http) are operations of a type class that the functions are
    parameterised by.  Console output under the [verbose] flag does not
    influence any returned value; it is left out of the functions and given
    by separate definitions where the loop of [main] needs it. *)

From stdpp Require Import strings gmap list.
From Stdlib Require Import ZArith Ascii String Lia DecimalString.

Open Scope string_scope.
Set Warnings "-register-all".

(** ** Go results *)

Definition error := string.

Inductive result (A : Type) : Type :=
  | Ok (a : A)
  | Err (e : error).
Arguments Ok {A} a.
Arguments Err {A} e.

Inductive run (A : Type) : Type :=
  | Done (a : A)
  | Panicked (msg : string).
Arguments Done {A} a.
Arguments Panicked {A} msg.

Definition is_Ok {A} (r : result A) : bool :=
  match r with Ok _ => true | Err _ => false end.

(** ** package strings: TrimSpace and Contains *)

Module GoStrings.

Definition byte (n : N) : ascii := ascii_of_N n.

(** [asciiSpace] of package strings: tab, newline, vertical tab, form feed,
    carriage return, space. *)
Definition asciiSpace : list (list ascii) :=
  [[byte 9]; [byte 10]; [byte 11]; [byte 12]; [byte 13]; [byte 32]].

(** The UTF-8 encodings of the remaining runes for which [unicode.IsSpace]
    holds: U+0085, U+00A0, U+1680, U+2000..U+200A, U+2028, U+2029, U+202F,
    U+205F, U+3000.  UTF-8 decoding accepts only the shortest encoding of a
    rune, so a string starts (ends) with one of these runes exactly when it
    starts (ends) with one of these byte sequences. *)
Definition unicodeSpace : list (list ascii) :=
  [[byte 0xC2; byte 0x85]; [byte 0xC2; byte 0xA0];
   [byte 0xE1; byte 0x9A; byte 0x80];
   [byte 0xE2; byte 0x80; byte 0x80]; [byte 0xE2; byte 0x80; byte 0x81];
   [byte 0xE2; byte 0x80; byte 0x82]; [byte 0xE2; byte 0x80; byte 0x83];
   [byte 0xE2; byte 0x80; byte 0x84]; [byte 0xE2; byte 0x80; byte 0x85];
   [byte 0xE2; byte 0x80; byte 0x86]; [byte 0xE2; byte 0x80; byte 0x87];
   [byte 0xE2; byte 0x80; byte 0x88]; [byte 0xE2; byte 0x80; byte 0x89];
   [byte 0xE2; byte 0x80; byte 0x8A];
   [byte 0xE2; byte 0x80; byte 0xA8]; [byte 0xE2; byte 0x80; byte 0xA9];
   [byte 0xE2; byte 0x80; byte 0xAF];
   [byte 0xE2; byte 0x81; byte 0x9F];
   [byte 0xE3; byte 0x80; byte 0x80]].

Definition whiteSpace : list (list ascii) := (asciiSpace ++ unicodeSpace)%list.

Fixpoint hasPrefix (p b : list ascii) : bool :=
  match p, b with
  | [], _ => true
  | _ :: _, [] => false
  | x :: p', y :: b' => Ascii.eqb x y && hasPrefix p' b'
  end.

(** Width in bytes of the white-space rune [b] starts with, [0] if [b] does
    not start with white space. *)
Definition leadingSpace (b : list ascii) : nat :=
  match find (fun sp => hasPrefix sp b) whiteSpace with
  | Some sp => List.length sp
  | None => 0
  end.

(** The same for the rune a string ends with; [r] is the string reversed. *)
Definition trailingSpace (r : list ascii) : nat :=
  match find (fun sp => hasPrefix (rev sp) r) whiteSpace with
  | Some sp => List.length sp
  | None => 0
  end.

(** Drop white-space runes from the front: [skip] counts the bytes of the
    current rune still to be dropped. *)
Fixpoint trimFrom (width : list ascii -> nat) (skip : nat) (b : list ascii)
  : list ascii :=
  match b with
  | [] => []
  | _ :: b' =>
      match skip with
      | S k => trimFrom width k b'
      | O => match width b with
             | O => b
             | S k => trimFrom width k b'
             end
      end
  end.

Definition trimLeft (b : list ascii) : list ascii := trimFrom leadingSpace 0 b.
Definition trimRight (b : list ascii) : list ascii :=
  rev (trimFrom trailingSpace 0 (rev b)).

(** [strings.TrimSpace]: leading white space is cut first, then trailing
    white space of what is left. *)
Definition TrimSpace (s : string) : string :=
  string_of_list_ascii (trimRight (trimLeft (list_ascii_of_string s))).

(** A string with no white space at either end. *)
Definition trimmed (s : string) : Prop :=
  leadingSpace (list_ascii_of_string s) = 0 /\
  trailingSpace (rev (list_ascii_of_string s)) = 0.

(** [strings.Contains] / [bytes.Contains]. *)
Fixpoint Contains (s sub : string) : bool :=
  String.prefix sub s ||
  match s with
  | EmptyString => false
  | String _ s' => Contains s' sub
  end.

End GoStrings.

(** ** package input: the Parser (internal/input/parser.go) *)

Module Input.
Import GoStrings.

(** What a reader (standard input, an opened file) delivers: its bytes and,
    when reading breaks off, the error [Read] reports instead of [io.EOF]. *)
Record Stream : Type := {
  stream_data : string;
  stream_err : option error;
}.

(** The file system as [os.Open] sees it. *)
Definition FileSystem : Type := string -> result Stream.

(** *** bufio.Scanner with the default split function [ScanLines] *)

Definition MaxScanTokenSize : N := 65536.
Definition ErrTooLong : error := "bufio.Scanner: token too long".

Definition newline : ascii := byte 10.
Definition carriageReturn : ascii := byte 13.

(** The stretches of [data] between newlines; the last one is what follows
    the final newline (empty if the data ends with a newline). *)
Fixpoint splitNewline (data : string) : list string :=
  match data with
  | EmptyString => [EmptyString]
  | String c rest =>
      if Ascii.eqb c newline then EmptyString :: splitNewline rest
      else match splitNewline rest with
           | line :: more => String c line :: more
           | [] => [String c EmptyString]
           end
  end.

(** The raw lines [ScanLines] finds: every newline-terminated stretch, and
    the final unterminated one if it is not empty. *)
Definition rawLines (data : string) : list string :=
  let segs := splitNewline data in
  match last segs with
  | Some EmptyString => removelast segs
  | _ => segs
  end.

(** [dropCR]: one trailing carriage return is cut off. *)
Fixpoint dropCR (line : string) : string :=
  match line with
  | EmptyString => EmptyString
  | String c EmptyString =>
      if Ascii.eqb c carriageReturn then EmptyString else line
  | String c rest => String c (dropCR rest)
  end.

(** The tokens [Scan] delivers one after the other and the error it stops
    at: a line that does not fit the buffer of [MaxScanTokenSize] bytes
    ends the scan with [ErrTooLong]. *)
Fixpoint scanTokens (raw : list string) : list string * option error :=
  match raw with
  | [] => ([], None)
  | line :: rest =>
      if N.leb MaxScanTokenSize (N.of_nat (String.length line)) then ([], Some ErrTooLong)
      else let '(tokens, err) := scanTokens rest in
           (dropCR line :: tokens, err)
  end.

(** A line that fits the buffer of the scanner. *)
Definition short (line : string) : Prop :=
  (N.of_nat (String.length line) < MaxScanTokenSize)%N.

(** A whole scan: the texts seen by the loop [for scanner.Scan()] and the
    value of [scanner.Err()] after it. *)
Definition Scanner_run (r : Stream) : list string * option error :=
  let '(tokens, err) := scanTokens (rawLines (stream_data r)) in
  (tokens, match err with Some e => Some e | None => stream_err r end).

(** *** Parser *)

Record Parser : Type := { verbose : bool }.

Definition NewParser (verbose : bool) : Parser := {| verbose := verbose |}.

(** [seen[key]] on a [map[string]bool]: [false] for a missing key. *)
Definition seen_at (seen : gmap string bool) (key : string) : bool :=
  default false (seen !! key).

(** The body of the scanning loop, on the loop state [(seen, keys)]. *)
Definition scanKey (st : gmap string bool * list string) (text : string)
  : gmap string bool * list string :=
  let '(seen, keys) := st in
  let key := TrimSpace text in
  if negb (String.eqb key "") && negb (seen_at seen key)
  then (<[key := true]> seen, (keys ++ [key])%list)
  else (seen, keys).

Definition scanKeys (tokens : list string) : list string :=
  snd (foldl scanKey (∅, []) tokens).

(** [FromStdin] reads and deduplicates keys from standard input. *)
Definition FromStdin (p : Parser) (stdin : Stream) : result (list string) :=
  let '(tokens, err) := Scanner_run stdin in
  let keys := scanKeys tokens in
  match err with
  | Some e => Err ("error reading from stdin: " ++ e)
  | None => Ok keys
  end.

(** [FromFile] reads and deduplicates keys from a file. *)
Definition FromFile (p : Parser) (fs : FileSystem) (filename : string)
  : result (list string) :=
  match fs filename with
  | Err e => Err ("failed to open file: " ++ e)
  | Ok file =>
      let '(tokens, err) := Scanner_run file in
      let keys := scanKeys tokens in
      match err with
      | Some e => Err ("error reading from file: " ++ e)
      | None => Ok keys
      end
  end.

(** [FromSingle] creates a single-element slice from a key. *)
Definition FromSingle (p : Parser) (key : string) : list string :=
  [TrimSpace key].

(** The three sources of keys [runValidation] chooses between. *)
Inductive Source : Type :=
  | SingleKey (key : string)
  | KeyFile (fs : FileSystem) (filename : string)
  | StdinPipe (stdin : Stream).

Definition supply (p : Parser) (src : Source) : result (list string) :=
  match src with
  | SingleKey key => Ok (FromSingle p key)
  | KeyFile fs filename => FromFile p fs filename
  | StdinPipe stdin => FromStdin p stdin
  end.

(** The trimmed texts of the source, line by line ([None] for a file that
    cannot be opened). *)
Definition sourceTexts (src : Source) : option (list string) :=
  match src with
  | SingleKey key => Some [TrimSpace key]
  | KeyFile fs filename =>
      match fs filename with
      | Ok file => Some (TrimSpace <$> (Scanner_run file).1)
      | Err _ => None
      end
  | StdinPipe stdin => Some (TrimSpace <$> (Scanner_run stdin).1)
  end.

(** Position of the first occurrence of [k] in [l]. *)
Fixpoint firstIndex (k : string) (l : list string) : option nat :=
  match l with
  | [] => None
  | x :: l' => if String.eqb x k then Some 0 else S <$> firstIndex k l'
  end.

End Input.

(** ** package detector: the KeyDetector (internal/input/parser.go) *)

Module Detector.

(** Pattern represents the pattern structure of the configuration. *)
Record Pattern : Type := {
  Name : list string;
  Regex : string;
}.

(** The library calls of the detector: [regexp.Compile],
    [Regexp.MatchString] and [json.Unmarshal] into a [[]Pattern]. *)
Class DetectorLib : Type := {
  Regexp : Type;
  regexp_Compile : string -> result Regexp;
  MatchString : Regexp -> string -> bool;
  json_Unmarshal : string -> result (list Pattern);
}.

Section WithLib.
Context `{lib : DetectorLib}.

(** KeyDetector handles API key pattern detection. *)
Record KeyDetector : Type := {
  patterns : list Pattern;
  compiled : gmap string Regexp;
  verbose : bool;
}.

Definition indexOutOfRange : string :=
  "runtime error: index out of range [0] with length 0".
Definition nilDereference : string :=
  "runtime error: invalid memory address or nil pointer dereference".

(** [pattern.Name[0]]. *)
Definition Name0 (pattern : Pattern) : run string :=
  match Name pattern with
  | [] => Panicked indexOutOfRange
  | name :: _ => Done name
  end.

(** [ValidatePattern] checks if a pattern configuration is valid. *)
Definition ValidatePattern (pattern : Pattern) : option error :=
  if Nat.eqb (List.length (Name pattern)) 0
  then Some "pattern must have at least one name"
  else if String.eqb (Regex pattern) ""
  then Some "pattern must have a regex"
  else match regexp_Compile (Regex pattern) with
       | Err e => Some ("invalid regex pattern: " ++ e)
       | Ok _ => None
       end.

(** The inner loop [for _, name := range pattern.Name]. *)
Definition registerNames (re : Regexp) (names : list string)
           (compiled : gmap string Regexp) : gmap string Regexp :=
  foldl (fun m name => <[name := re]> m) compiled names.

(** The loop that compiles all regex patterns. *)
Fixpoint compilePatterns (ps : list Pattern) (compiled : gmap string Regexp)
  : run (result (gmap string Regexp)) :=
  match ps with
  | [] => Done (Ok compiled)
  | pattern :: rest =>
      match regexp_Compile (Regex pattern) with
      | Err e =>
          match Name0 pattern with
          | Panicked msg => Panicked msg
          | Done name =>
              Done (Err ("invalid regex pattern for " ++ name ++ ": " ++ e))
          end
      | Ok re => compilePatterns rest (registerNames re (Name pattern) compiled)
      end
  end.

(** [NewKeyDetector] creates a new KeyDetector instance from a byte
    slice. *)
Definition NewKeyDetector (configData : string) : run (result KeyDetector) :=
  match json_Unmarshal configData with
  | Err e => Done (Err ("failed to parse config data: " ++ e))
  | Ok patterns =>
      match compilePatterns patterns ∅ with
      | Panicked msg => Panicked msg
      | Done (Err e) => Done (Err e)
      | Done (Ok compiled) =>
          Done (Ok {| patterns := patterns; compiled := compiled;
                      verbose := false |})
      end
  end.

(** The loop of [DetectService] over [d.patterns]. *)
Fixpoint detectIn (compiled : gmap string Regexp) (ps : list Pattern)
         (key : string) : run string :=
  match ps with
  | [] => Done ""
  | pattern :: rest =>
      match Name0 pattern with
      | Panicked msg => Panicked msg
      | Done name =>
          match compiled !! name with
          | None => Panicked nilDereference
          | Some re =>
              if MatchString re key then Done name
              else detectIn compiled rest key
          end
      end
  end.

(** [DetectService] identifies the service based on the API key
    pattern. *)
Definition DetectService (d : KeyDetector) (key : string) : run string :=
  detectIn (compiled d) (patterns d) key.

(** What [DetectService] prints on its way: with [verbose] set, the line
    for the entry that matched. *)
Fixpoint detectPrints (compiled : gmap string Regexp) (ps : list Pattern)
         (key : string) : list string :=
  match ps with
  | [] => []
  | pattern :: rest =>
      match Name0 pattern with
      | Panicked _ => []
      | Done name =>
          match compiled !! name with
          | None => []
          | Some re =>
              if MatchString re key
              then ["Detected service: " ++ name ++ String (ascii_of_N 10) ""]
              else detectPrints compiled rest key
          end
      end
  end.

Definition DetectService_prints (d : KeyDetector) (key : string)
  : list string :=
  if verbose d then detectPrints (compiled d) (patterns d) key else [].

Definition SetVerbose (d : KeyDetector) (v : bool) : KeyDetector :=
  {| patterns := patterns d; compiled := compiled d; verbose := v |}.

(** *** Notions the specification uses *)

(** The entry's own regex matches the key. *)
Definition entryMatches (pattern : Pattern) (key : string) : bool :=
  match regexp_Compile (Regex pattern) with
  | Ok re => MatchString re key
  | Err _ => false
  end.

(** The first alias of an entry, [""] for an entry without aliases. *)
Definition canonical (pattern : Pattern) : string :=
  match Name pattern with
  | [] => ""
  | name :: _ => name
  end.

(** What the specification asks [detect] to return: the canonical alias
    of the first entry whose regex matches, [""] when none does. *)
Definition firstMatch (ps : list Pattern) (key : string) : string :=
  match find (fun p => entryMatches p key) ps with
  | Some p => canonical p
  | None => ""
  end.

(** The entry invariant of the specification: the regex compiles and the
    alias list is not empty. *)
Definition entryInvariant (pattern : Pattern) : Prop :=
  (exists re, regexp_Compile (Regex pattern) = Ok re) /\ Name pattern <> [].

(** [alias] is declared by [pattern]. *)
Definition declares (alias : string) (pattern : Pattern) : bool :=
  bool_decide (alias ∈ Name pattern).

(** The last entry of the configuration that declares [alias]. *)
Definition lastDeclaring (ps : list Pattern) (alias : string)
  : option Pattern :=
  last (filter (fun p => declares alias p = true) ps).

(** No entry after position [i] declares [alias]. *)
Definition notRedeclaredAfter (ps : list Pattern) (i : nat) (alias : string)
  : Prop :=
  forall j q, i < j -> ps !! j = Some q -> alias ∉ Name q.

(** The canonical alias of no entry is declared again by a later
    entry. *)
Definition canonicalsNotRedeclared (ps : list Pattern) : Prop :=
  forall i p, ps !! i = Some p -> notRedeclaredAfter ps i (canonical p).

End WithLib.

End Detector.

(** ** package input: checking a pattern file (internal/input/validator.go) *)

Module PatternFile.
Import Detector.

(** [%d] of a non-negative [int]. *)
Definition itoa (n : nat) : string := NilEmpty.string_of_uint (Nat.to_uint n).

(** PatternConfig and ServicePattern types moved from detector package. *)
Record ServicePattern : Type := {
  Patterns : list string;
  Prefixes : list string;
  Length : list Z;
}.

(** The library calls of [ValidatePatternFile]: [os.Stat] (does the error
    say that the file does not exist?), [os.ReadFile], [json.Valid] and
    [json.Unmarshal] into a [PatternConfig]. *)
Class FileLib : Type := {
  os_Stat_IsNotExist : string -> bool;
  os_ReadFile : string -> result string;
  json_Valid : string -> bool;
  json_UnmarshalConfig : string -> result (gmap string ServicePattern);
}.

Section WithLib.
Context `{lib : DetectorLib} `{files : FileLib}.

(** The loop [for i, pattern := range sp.Patterns], from index [i] on. *)
Fixpoint checkPatterns (i : nat) (ps : list string) : option error :=
  match ps with
  | [] => None
  | pattern :: rest =>
      if String.eqb pattern ""
      then Some ("empty pattern at index " ++ itoa i)
      else match regexp_Compile ("^" ++ pattern ++ "$") with
           | Err e =>
               Some ("invalid regex pattern at index " ++ itoa i ++ ": " ++ e)
           | Ok _ => checkPatterns (S i) rest
           end
  end.

(** The loop [for i, prefix := range sp.Prefixes]. *)
Fixpoint checkPrefixes (i : nat) (ps : list string) : option error :=
  match ps with
  | [] => None
  | prefix :: rest =>
      if String.eqb prefix ""
      then Some ("empty prefix at index " ++ itoa i)
      else checkPrefixes (S i) rest
  end.

(** The loop [for i, length := range sp.Length]. *)
Fixpoint checkLengths (i : nat) (ls : list Z) : option error :=
  match ls with
  | [] => None
  | length :: rest =>
      if (length <=? 0)%Z
      then Some ("invalid length at index " ++ itoa i ++ ": must be positive")
      else checkLengths (S i) rest
  end.

(** [validateServicePattern] checks if a service pattern is valid. *)
Definition validateServicePattern (sp : ServicePattern) : option error :=
  if Nat.eqb (List.length (Patterns sp)) 0
  then Some "at least one pattern is required"
  else match checkPatterns 0 (Patterns sp) with
       | Some e => Some e
       | None =>
           match checkPrefixes 0 (Prefixes sp) with
           | Some e => Some e
           | None => checkLengths 0 (Length sp)
           end
       end.

(** The loop [for service, pattern := range config] over the entries in
    the order [entries]. *)
Fixpoint validateServices (entries : list (string * ServicePattern))
  : option error :=
  match entries with
  | [] => None
  | (service, pattern) :: rest =>
      if String.eqb service ""
      then Some "empty service name not allowed"
      else match validateServicePattern pattern with
           | Some err =>
               Some ("invalid pattern for service '" ++ service ++ "': " ++ err)
           | None => validateServices rest
           end
  end.

(** [validatePatternConfig] checks if the pattern configuration is valid.
    Go ranges over the map in an unspecified order: [order] is the order
    a run happens to take. *)
Definition validatePatternConfigIn (order : list (string * ServicePattern))
           (config : gmap string ServicePattern) : option error :=
  if Nat.eqb (size config) 0
  then Some "config must contain at least one service"
  else validateServices order.

Definition validatePatternConfig (config : gmap string ServicePattern)
  : option error :=
  validatePatternConfigIn (map_to_list config) config.

(** [ValidatePatternFile] checks if the pattern file exists and contains
    valid configuration. *)
Definition ValidatePatternFile (configPath : string) : option error :=
  if os_Stat_IsNotExist configPath
  then Some ("config file not found: " ++ configPath)
  else match os_ReadFile configPath with
       | Err e => Some ("failed to read config file: " ++ e)
       | Ok data =>
           if negb (json_Valid data)
           then Some "invalid JSON format in config file"
           else match json_UnmarshalConfig data with
                | Err e => Some ("failed to parse config file: " ++ e)
                | Ok patterns => validatePatternConfig patterns
                end
       end.

(** *** What the checks ask for *)

Definition validPattern (pattern : string) : Prop :=
  pattern <> "" /\ exists re, regexp_Compile ("^" ++ pattern ++ "$") = Ok re.

Definition validServicePattern (sp : ServicePattern) : Prop :=
  Patterns sp <> [] /\
  Forall validPattern (Patterns sp) /\
  Forall (fun prefix => prefix <> "") (Prefixes sp) /\
  Forall (fun length => (0 < length)%Z) (Length sp).

End WithLib.

End PatternFile.

(** ** package validator (internal/validator/services/googlemaps.go, second
       part): results, the Validator interface, the ValidationManager *)

Module Validator.

(** What lies outside the process: [World] is the state of the network, the
    remote services and the clock at some moment; a call that talks to the
    outside takes the world it finds and leaves the world it has made. *)
Class Runtime : Type := {
  Context : Type;
  Time : Type;
  World : Type;
  time_Now : World -> Time;
}.

(** Common validation errors. *)
Definition ErrInvalidKey : error := "invalid API key".
Definition ErrValidationError : error := "validation error".
Definition ErrRateLimited : error := "rate limit exceeded".
Definition ErrTimeout : error := "validation timeout".
Definition ErrServiceDown : error := "service unavailable".

(** ValidationMethod defines how the validation is performed. *)
Definition ValidationMethod : Type := string.
Definition MethodSDK : ValidationMethod := "sdk".
Definition MethodHTTP : ValidationMethod := "http".

(** RiskLevel represents the risk assessment of an API key; a Go string
    type, whose zero value is the empty string. *)
Definition RiskLevel : Type := string.
Definition RiskLevelLow : RiskLevel := "low".
Definition RiskLevelMedium : RiskLevel := "medium".
Definition RiskLevelHigh : RiskLevel := "high".

(** The values stored in [Details]: an error text, or the map
    [{"status_code": ..., "vulnerable": ...}]. *)
Inductive Detail : Type :=
  | DetailText (text : string)
  | DetailProbe (status_code : Z) (vulnerable : bool).

Section WithRuntime.
Context `{rt : Runtime}.

(** ValidationResult represents the outcome of key validation. *)
Record ValidationResult : Type := {
  Valid : bool;
  Service : string;
  Permissions : list string;
  RiskLevel_ : RiskLevel;
  Details : gmap string Detail;
  Error : option error;
  ErrorStr : string;
  ValidatedAt : Time;
}.

Definition set_Valid (b : bool) (r : ValidationResult) : ValidationResult :=
  {| Valid := b; Service := Service r; Permissions := Permissions r;
     RiskLevel_ := RiskLevel_ r; Details := Details r; Error := Error r;
     ErrorStr := ErrorStr r; ValidatedAt := ValidatedAt r |}.
Definition set_Permissions (p : list string) (r : ValidationResult)
  : ValidationResult :=
  {| Valid := Valid r; Service := Service r; Permissions := p;
     RiskLevel_ := RiskLevel_ r; Details := Details r; Error := Error r;
     ErrorStr := ErrorStr r; ValidatedAt := ValidatedAt r |}.
Definition set_RiskLevel (l : RiskLevel) (r : ValidationResult)
  : ValidationResult :=
  {| Valid := Valid r; Service := Service r; Permissions := Permissions r;
     RiskLevel_ := l; Details := Details r; Error := Error r;
     ErrorStr := ErrorStr r; ValidatedAt := ValidatedAt r |}.
Definition set_Detail (k : string) (d : Detail) (r : ValidationResult)
  : ValidationResult :=
  {| Valid := Valid r; Service := Service r; Permissions := Permissions r;
     RiskLevel_ := RiskLevel_ r; Details := <[k := d]> (Details r);
     Error := Error r; ErrorStr := ErrorStr r;
     ValidatedAt := ValidatedAt r |}.
Definition set_Error (e : error) (msg : string) (r : ValidationResult)
  : ValidationResult :=
  {| Valid := Valid r; Service := Service r; Permissions := Permissions r;
     RiskLevel_ := RiskLevel_ r; Details := Details r; Error := Some e;
     ErrorStr := msg; ValidatedAt := ValidatedAt r |}.

(** Validator interface defines the contract for service-specific
    validators. *)
Record Validator : Type := {
  Validate : Context -> string -> World -> result ValidationResult * World;
  GetService : string;
  GetValidationMethod : ValidationMethod;
}.

(** ValidationManager handles the validation process across multiple
    services.  (The lock [mu] serialises accesses to [validators]; the
    field [client] is not used by any method.) *)
Record ValidationManager : Type := {
  validators : gmap string Validator;
}.

Definition NewValidationManager : ValidationManager :=
  {| validators := ∅ |}.

(** [RegisterValidator] adds a new validator to the manager. *)
Definition RegisterValidator (vm : ValidationManager) (v : Validator)
  : ValidationManager :=
  {| validators := <[GetService v := v]> (validators vm) |}.

(** [GetValidator] retrieves a validator for a specific service. *)
Definition GetValidator (vm : ValidationManager) (service : string)
  : option Validator :=
  validators vm !! service.

(** [ValidateKey] validates a single key for a specific service. *)
Definition ValidateKey (vm : ValidationManager) (ctx : Context)
           (service key : string) (w : World)
  : result ValidationResult * World :=
  match GetValidator vm service with
  | None => (Err ("no validator found for service: " ++ service), w)
  | Some validator =>
      match Validate validator ctx key w with
      | (Err err, w') => (Err err, w')
      | (Ok result, w') => (Ok result, w')
      end
  end.

(** [GetSupportedServices] returns a list of services that can be
    validated.  (Go ranges over the map in an unspecified order;
    [map_to_list] fixes one.) *)
Definition GetSupportedServices (vm : ValidationManager) : list string :=
  (map_to_list (validators vm)).*1.

(** *** ValidateKeysParallel

    One goroutine per key, a buffered channel of capacity 5 as semaphore,
    a wait group as barrier.  The goroutines and the calling goroutine
    are small state machines; a scheduler picks which one moves next.
    Every interleaving the Go runtime can produce is a sequence of the
    events below. *)

(** Max 5 concurrent validations: the capacity of [semaphore]. *)
Definition semaphoreCapacity : nat := 5.

(** Where the goroutine of one key stands. *)
Inductive TaskPc : Type :=
  | NotStarted                               (* no [go] statement yet *)
  | Spawned                                  (* before [semaphore <- struct{}{}] *)
  | Acquired                                 (* inside [vm.ValidateKey] *)
  | Called (r : result ValidationResult)     (* [ValidateKey] has returned *)
  | Stored                                   (* [results[index]] is written *)
  | Released                                 (* deferred [<-semaphore] has run *)
  | Finished.                                (* deferred [wg.Done()] has run *)

(** Where the calling goroutine stands. *)
Inductive MainPc : Type :=
  | Spawning (i : nat)       (* in the [for i, key := range keys] loop *)
  | Waiting                  (* in [wg.Wait()] *)
  | Returned.                (* [return results] *)

Record State : Type := {
  main : MainPc;
  tasks : list TaskPc;
  semaphore : nat;                            (* elements in the channel *)
  wg : nat;                                   (* the wait group counter *)
  results : list (option ValidationResult);   (* [nil] is [None] *)
  (* what the [ValidateKey] call of each goroutine returned; not a
     program variable, kept to state what the slots must hold *)
  produced : list (option (result ValidationResult));
}.

Definition set_main (m : MainPc) (s : State) : State :=
  {| main := m; tasks := tasks s; semaphore := semaphore s; wg := wg s;
     results := results s; produced := produced s |}.
Definition set_task (i : nat) (pc : TaskPc) (s : State) : State :=
  {| main := main s; tasks := <[i := pc]> (tasks s);
     semaphore := semaphore s; wg := wg s; results := results s;
     produced := produced s |}.
Definition set_semaphore (n : nat) (s : State) : State :=
  {| main := main s; tasks := tasks s; semaphore := n; wg := wg s;
     results := results s; produced := produced s |}.
Definition set_wg (n : nat) (s : State) : State :=
  {| main := main s; tasks := tasks s; semaphore := semaphore s; wg := n;
     results := results s; produced := produced s |}.
Definition set_result (i : nat) (v : ValidationResult) (s : State) : State :=
  {| main := main s; tasks := tasks s; semaphore := semaphore s;
     wg := wg s; results := <[i := Some v]> (results s);
     produced := produced s |}.
Definition set_produced (i : nat) (r : result ValidationResult) (s : State)
  : State :=
  {| main := main s; tasks := tasks s; semaphore := semaphore s;
     wg := wg s; results := results s;
     produced := <[i := Some r]> (produced s) |}.

(** The verdict the goroutine builds when [ValidateKey] fails; [now] is
    the world [time.Now()] is read in. *)
Definition failureResult (service : string) (err : error) (now : World)
  : ValidationResult :=
  {| Valid := false; Service := service; Permissions := [];
     RiskLevel_ := ""; Details := ∅; Error := Some err; ErrorStr := err;
     ValidatedAt := time_Now now |}.

(** What the goroutine stores in its slot. *)
Definition slotValue (service : string) (r : result ValidationResult)
           (now : World) : ValidationResult :=
  match r with
  | Err err => failureResult service err now
  | Ok result => result
  end.

Inductive Event : Type :=
  | EvSpawn                          (* [wg.Add(1); go func(i, key)] *)
  | EvLoopExit                       (* the range loop is exhausted *)
  | EvReturn                         (* [wg.Wait()] returns *)
  | EvAcquire (i : nat)              (* [semaphore <- struct{}{}] *)
  | EvCall (i : nat) (w : World)     (* [vm.ValidateKey] runs in world [w] *)
  | EvStore (i : nat) (now : World)  (* [results[index] = ...] *)
  | EvRelease (i : nat)              (* [<-semaphore] *)
  | EvDone (i : nat).                (* [wg.Done()] *)

Section Parallel.
Variable vm : ValidationManager.
Variable ctx : Context.
Variable service : string.
Variable keys : list string.

Definition initial : State :=
  {| main := Spawning 0;
     tasks := replicate (List.length keys) NotStarted;
     semaphore := 0; wg := 0;
     results := replicate (List.length keys) None;
     produced := replicate (List.length keys) None |}.

(** One move of one goroutine; [None] when the move is not possible in
    state [s] (the goroutine is elsewhere, or it is blocked). *)
Definition exec (ev : Event) (s : State) : option State :=
  match ev with
  | EvSpawn =>
      match main s with
      | Spawning i =>
          if decide (i < List.length keys)
          then Some (set_main (Spawning (S i))
                       (set_wg (S (wg s)) (set_task i Spawned s)))
          else None
      | _ => None
      end
  | EvLoopExit =>
      match main s with
      | Spawning i =>
          if decide (i < List.length keys) then None
          else Some (set_main Waiting s)
      | _ => None
      end
  | EvReturn =>
      match main s, wg s with
      | Waiting, O => Some (set_main Returned s)
      | _, _ => None
      end
  | EvAcquire i =>
      match tasks s !! i with
      | Some Spawned =>
          if decide (semaphore s < semaphoreCapacity)
          then Some (set_semaphore (S (semaphore s)) (set_task i Acquired s))
          else None
      | _ => None
      end
  | EvCall i w =>
      match tasks s !! i, keys !! i with
      | Some Acquired, Some apiKey =>
          let r := (ValidateKey vm ctx service apiKey w).1 in
          Some (set_produced i r (set_task i (Called r) s))
      | _, _ => None
      end
  | EvStore i now =>
      match tasks s !! i with
      | Some (Called r) =>
          Some (set_result i (slotValue service r now) (set_task i Stored s))
      | _ => None
      end
  | EvRelease i =>
      match tasks s !! i with
      | Some Stored =>
          Some (set_semaphore (pred (semaphore s)) (set_task i Released s))
      | _ => None
      end
  | EvDone i =>
      match tasks s !! i with
      | Some Released =>
          Some (set_wg (pred (wg s)) (set_task i Finished s))
      | _ => None
      end
  end.

(** A schedule: the events in the order they happen. *)
Fixpoint execAll (evs : list Event) (s : State) : option State :=
  match evs with
  | [] => Some s
  | ev :: rest =>
      match exec ev s with
      | Some s' => execAll rest s'
      | None => None
      end
  end.

(** The states [ValidateKeysParallel] passes through. *)
Definition reachable (s : State) : Prop :=
  exists evs, execAll evs initial = Some s.

(** A call of [ValidateKeysParallel] that has returned [out]. *)
Definition returns (evs : list Event) (out : list (option ValidationResult))
  : Prop :=
  exists s, execAll evs initial = Some s /\ main s = Returned /\
            results s = out.

(** The goroutine is inside its [ValidateKey] call. *)
Definition inCall (pc : TaskPc) : bool :=
  match pc with Acquired => true | _ => false end.

(** The number of validation calls in flight. *)
Definition inFlight (s : State) : nat :=
  List.length (filter (fun pc => inCall pc = true) (tasks s)).

(** *** Invariants of the state machine *)

Definition active (pc : TaskPc) : nat :=
  match pc with
  | Spawned | Acquired | Called _ | Stored | Released => 1
  | NotStarted | Finished => 0
  end.

Definition holding (pc : TaskPc) : nat :=
  match pc with
  | Acquired | Called _ | Stored => 1
  | _ => 0
  end.

Definition remaining (pc : TaskPc) : nat :=
  match pc with
  | NotStarted => 6 | Spawned => 5 | Acquired => 4 | Called _ => 3
  | Stored => 2 | Released => 1 | Finished => 0
  end.

Definition total (f : TaskPc -> nat) (pcs : list TaskPc) : nat :=
  sum_list (f <$> pcs).

Definition mainRemaining (m : MainPc) : nat :=
  match m with
  | Spawning i => (List.length keys - i) + 2
  | Waiting => 1
  | Returned => 0
  end.

(** The number of moves left, at most. *)
Definition stepsLeft (s : State) : nat :=
  mainRemaining (main s) + total remaining (tasks s).

(** The moves a goroutine still has to make, and the moves of the
    calling goroutine apart from the spawns (leaving the loop and
    returning). *)
Definition movesOf (pc : TaskPc) : nat :=
  match pc with
  | NotStarted => 6 | Spawned => 5 | Acquired => 4 | Called _ => 3
  | Stored => 2 | Released => 1 | Finished => 0
  end.

Definition mainMoves (m : MainPc) : nat :=
  match m with
  | Spawning _ => 2
  | Waiting => 1
  | Returned => 0
  end.

Definition movesLeft (s : State) : nat :=
  mainMoves (main s) + total movesOf (tasks s).

(** [r] is what [ValidateKey] returned for the key at position [i], in
    some world. *)
Definition outcomeFor (i : nat) (r : result ValidationResult) : Prop :=
  exists apiKey w,
    keys !! i = Some apiKey /\
    r = (ValidateKey vm ctx service apiKey w).1.

Definition taskOk (i : nat) (pc : TaskPc) (res : option ValidationResult)
           (prod : option (result ValidationResult)) : Prop :=
  match pc with
  | NotStarted | Spawned | Acquired => res = None /\ prod = None
  | Called r => res = None /\ prod = Some r /\ outcomeFor i r
  | Stored | Released | Finished =>
      exists r now, prod = Some r /\ outcomeFor i r /\
                    res = Some (slotValue service r now)
  end.

Definition mainOk (s : State) : Prop :=
  match main s with
  | Spawning i =>
      i <= List.length keys /\
      forall j pc, tasks s !! j = Some pc -> (pc = NotStarted <-> i <= j)
  | Waiting => forall j pc, tasks s !! j = Some pc -> pc <> NotStarted
  | Returned => forall j pc, tasks s !! j = Some pc -> pc = Finished
  end.

(** The goroutine can move whatever the others do. *)
Definition ready (pc : TaskPc) : nat :=
  match pc with
  | Acquired | Called _ | Stored | Released => 1
  | _ => 0
  end.

Record Inv (s : State) : Prop := {
  inv_tasks : List.length (tasks s) = List.length keys;
  inv_results : List.length (results s) = List.length keys;
  inv_produced : List.length (produced s) = List.length keys;
  inv_semaphore : semaphore s = total holding (tasks s);
  inv_capacity : semaphore s <= semaphoreCapacity;
  inv_wg : wg s = total active (tasks s);
  inv_main : mainOk s;
  inv_task : forall i pc, tasks s !! i = Some pc ->
             exists res prod, results s !! i = Some res /\
                              produced s !! i = Some prod /\
                              taskOk i pc res prod;
}.

End Parallel.

End WithRuntime.

End Validator.

(** ** package services: the GoogleMapsValidator
       (internal/validator/services/googlemaps.go, first part) *)

Module Services.
Import GoStrings Validator.

(** APIResponse represents the structure to check for success/failure. *)
Record APIResponse : Type := {
  StatusCode : Z;
  Content : string;
  Status : string;
  ErrorMessage : string;
}.

(** APIEndpoint represents a Google Maps API endpoint configuration. *)
Record APIEndpoint : Type := {
  URL : string;
  Method : string;
  Parameters : gmap string string;
  Headers : gmap string string;
  PostData : gmap string string;
  VulnCheck : APIResponse -> bool;
}.

(** Define API endpoints for validation. *)
Definition googleMapsEndpoints : list APIEndpoint :=
  [ (* Static Map API *)
    {| URL := "https://maps.googleapis.com/maps/api/staticmap";
       Method := "GET";
       Parameters := <["center" := "45,10"]> (<["zoom" := "7"]>
                       (<["size" := "400x400"]> ∅));
       Headers := <["Accept" := "*/*"]> ∅;
       PostData := ∅;
       VulnCheck := fun resp =>
         Z.eqb (StatusCode resp) 200 || Contains (Content resp) "PNG" |};
    (* Street View API *)
    {| URL := "https://maps.googleapis.com/maps/api/streetview";
       Method := "GET";
       Parameters := <["size" := "400x400"]>
                       (<["location" := "40.720032,-73.988354"]>
                       (<["fov" := "90"]> (<["heading" := "235"]>
                       (<["pitch" := "10"]> ∅))));
       Headers := <["Accept" := "*/*"]> ∅;
       PostData := ∅;
       VulnCheck := fun resp =>
         Z.eqb (StatusCode resp) 200 || Contains (Content resp) "PNG" |};
    (* Directions API *)
    {| URL := "https://maps.googleapis.com/maps/api/directions/json";
       Method := "GET";
       Parameters := <["origin" := "Disneyland"]>
                       (<["destination" := "Universal Studios Hollywood"]> ∅);
       Headers := <["Accept" := "application/json"]> ∅;
       PostData := ∅;
       VulnCheck := fun resp =>
         Z.eqb (StatusCode resp) 200 && String.eqb (ErrorMessage resp) "" |};
    (* Geolocation API *)
    {| URL := "https://www.googleapis.com/geolocation/v1/geolocate";
       Method := "POST";
       Parameters := ∅;
       Headers := <["Content-Type" := "application/json"]>
                    (<["Accept" := "application/json"]> ∅);
       PostData := <["considerIp" := "true"]> ∅;
       VulnCheck := fun resp =>
         Z.eqb (StatusCode resp) 200 && negb (Contains (Content resp) "error") |}
  ].

Section WithRuntime.
Context `{rt : Runtime}.

(** [http.Client]: the validator builds it with a timeout of 10 seconds. *)
Record HTTPClient : Type := { Timeout : Z }.

(** [http.Request] as [validateEndpoint] builds it. *)
Record Request : Type := {
  req_ctx : Context;
  req_method : string;
  req_url : string;
  req_body : option string;
  req_header : gmap string string;
}.

(** [http.Response]: the status code and what [io.ReadAll] gets from the
    body. *)
Record Response : Type := {
  resp_StatusCode : Z;
  resp_Body : result string;
}.

(** The library calls of the validator: net/url, encoding/json and
    net/http. *)
Class NetLib : Type := {
  ParsedURL : Type;
  url_Parse : string -> result ParsedURL;
  url_Query : ParsedURL -> gmap string (list string);
  url_Encode : gmap string (list string) -> string;
  url_setRawQuery : ParsedURL -> string -> ParsedURL;
  url_String : ParsedURL -> string;
  json_Marshal : gmap string string -> result string;
  (* the checks of [http.NewRequestWithContext] on method and URL *)
  http_checkRequest : string -> string -> option error;
  textproto_CanonicalMIMEHeaderKey : string -> string;
  client_Do : HTTPClient -> Request -> World -> result Response * World;
  (* [json.Unmarshal(content, apiResp)], its error ignored: the response
     with the fields the content could be decoded into *)
  json_UnmarshalInto : string -> APIResponse -> APIResponse;
}.

Context `{net : NetLib}.

(** GoogleMapsValidator implements the Validator interface for Google
    Maps API. *)
Record GoogleMapsValidator : Type := { client : HTTPClient }.

Definition NewGoogleMapsValidator : GoogleMapsValidator :=
  {| client := {| Timeout := 10 |} |}.

Definition GetService (v : GoogleMapsValidator) : string :=
  "Google Safe Browsing API Key".

Definition GetValidationMethod (v : GoogleMapsValidator) : ValidationMethod :=
  MethodHTTP.

(** [q.Set(k, v)] on [url.Values]. *)
Definition Values_Set (k v : string) (q : gmap string (list string))
  : gmap string (list string) :=
  <[k := [v]]> q.

(** [req.Header.Set(k, v)]. *)
Definition Header_Set (k v : string) (req : Request) : Request :=
  {| req_ctx := req_ctx req; req_method := req_method req;
     req_url := req_url req; req_body := req_body req;
     req_header := <[textproto_CanonicalMIMEHeaderKey k := v]> (req_header req) |}.

(** The request body: the marshalled post data of a POST endpoint. *)
Definition requestBody (endpoint : APIEndpoint) : result (option string) :=
  if String.eqb (Method endpoint) "POST" && (0 <? size (PostData endpoint))%nat
  then match json_Marshal (PostData endpoint) with
       | Err e => Err ("failed to marshal post data: " ++ e)
       | Ok postData => Ok (Some postData)
       end
  else Ok None.

(** [validateEndpoint] checks a single API endpoint.  (Go ranges over the
    two maps in an unspecified order; [map_fold] fixes one.) *)
Definition validateEndpoint (v : GoogleMapsValidator) (ctx : Context)
           (endpoint : APIEndpoint) (key : string) (w : World)
  : result APIResponse * World :=
  match url_Parse (URL endpoint) with
  | Err e => (Err ("invalid endpoint URL: " ++ e), w)
  | Ok u =>
      let q := Values_Set "key" key (url_Query u) in
      let q := map_fold Values_Set q (Parameters endpoint) in
      let u := url_setRawQuery u (url_Encode q) in
      match requestBody endpoint with
      | Err e => (Err e, w)
      | Ok body =>
          match http_checkRequest (Method endpoint) (url_String u) with
          | Some e => (Err ("failed to create request: " ++ e), w)
          | None =>
              let req := {| req_ctx := ctx; req_method := Method endpoint;
                            req_url := url_String u; req_body := body;
                            req_header := ∅ |} in
              let req := map_fold Header_Set req (Headers endpoint) in
              match client_Do (client v) req w with
              | (Err e, w') => (Err ("request failed: " ++ e), w')
              | (Ok resp, w') =>
                  match resp_Body resp with
                  | Err e => (Err ("failed to read response: " ++ e), w')
                  | Ok content =>
                      let apiResp :=
                        {| StatusCode := resp_StatusCode resp;
                           Content := content;
                           Status := ""; ErrorMessage := "" |} in
                      (Ok (json_UnmarshalInto content apiResp), w')
                  end
              end
          end
      end
  end.

(** [assessRiskLevel] determines the risk level based on number of
    vulnerable endpoints. *)
Definition assessRiskLevel (v : GoogleMapsValidator)
           (vulnerableAPIs : list string) : RiskLevel :=
  match List.length vulnerableAPIs with
  | 0 => RiskLevelLow
  | 1 | 2 => RiskLevelMedium
  | _ => RiskLevelHigh
  end.

(** The state of the loop over the endpoints: [result],
    [vulnerableAPIs] and the world. *)
Definition LoopState : Type := (ValidationResult * list string * World)%type.

(** The body of the loop [for _, endpoint := range googleMapsEndpoints]. *)
Definition checkEndpoint (v : GoogleMapsValidator) (ctx : Context)
           (key : string) (st : LoopState) (endpoint : APIEndpoint)
  : LoopState :=
  let '(result, vulnerableAPIs, w) := st in
  match validateEndpoint v ctx endpoint key w with
  | (Err err, w') =>
      (set_Detail (URL endpoint) (DetailText ("Error: " ++ err)) result,
       vulnerableAPIs, w')
  | (Ok resp, w') =>
      let '(result, vulnerableAPIs) :=
        if VulnCheck endpoint resp
        then (set_Valid true result, (vulnerableAPIs ++ [URL endpoint])%list)
        else (result, vulnerableAPIs) in
      (set_Detail (URL endpoint)
         (DetailProbe (StatusCode resp) (VulnCheck endpoint resp)) result,
       vulnerableAPIs, w')
  end.

Definition checkEndpoints (v : GoogleMapsValidator) (ctx : Context)
           (key : string) (endpoints : list APIEndpoint) (st : LoopState)
  : LoopState :=
  foldl (checkEndpoint v ctx key) st endpoints.

(** [Validate] over a list of endpoints. *)
Definition ValidateOver (endpoints : list APIEndpoint)
           (v : GoogleMapsValidator) (ctx : Context) (key : string)
           (w : World) : result ValidationResult * World :=
  let result :=
    {| Valid := false; Service := GetService v; Permissions := [];
       RiskLevel_ := ""; Details := ∅; Error := None; ErrorStr := "";
       ValidatedAt := time_Now w |} in
  let '(result, vulnerableAPIs, w') :=
    checkEndpoints v ctx key endpoints (result, [], w) in
  let result := set_Permissions vulnerableAPIs result in
  let result := set_RiskLevel (assessRiskLevel v vulnerableAPIs) result in
  let result :=
    if negb (Valid result)
    then set_Error ErrInvalidKey "API key not vulnerable for any endpoints"
           result
    else result in
  (Ok result, w').

(** [Validate] performs the validation across all endpoints. *)
Definition Validate (v : GoogleMapsValidator) (ctx : Context) (key : string)
           (w : World) : result ValidationResult * World :=
  ValidateOver googleMapsEndpoints v ctx key w.

(** The validator as the manager sees it. *)
Definition asValidator (v : GoogleMapsValidator) : Validator :=
  {| Validator.Validate := Validate v;
     Validator.GetService := GetService v;
     Validator.GetValidationMethod := GetValidationMethod v |}.

(** *** Notions the specification uses *)

(** The probes of one validation, in order: each endpoint with what
    [validateEndpoint] returned for it. *)
Fixpoint probes (v : GoogleMapsValidator) (ctx : Context) (key : string)
         (endpoints : list APIEndpoint) (w : World)
  : list (APIEndpoint * result APIResponse) :=
  match endpoints with
  | [] => []
  | endpoint :: rest =>
      let '(r, w') := validateEndpoint v ctx endpoint key w in
      (endpoint, r) :: probes v ctx key rest w'
  end.

(** The predicate of the endpoint holds of the response of its probe. *)
Definition reportsVulnerable (p : APIEndpoint * result APIResponse) : bool :=
  match p.2 with
  | Ok resp => VulnCheck p.1 resp
  | Err _ => false
  end.

(** The identifiers of the endpoints found vulnerable. *)
Definition vulnerableIds (ps : list (APIEndpoint * result APIResponse))
  : list string :=
  (fun p => URL p.1) <$> filter (fun p => reportsVulnerable p = true) ps.

(** The risk classification of the specification, by count. *)
Definition riskOfCount (m : nat) : RiskLevel :=
  if (m =? 0)%nat then RiskLevelLow
  else if (m <=? 2)%nat then RiskLevelMedium
  else RiskLevelHigh.

(** The request [validateEndpoint] hands to [client.Do], or the error
    it returns before it gets there. *)
Definition requestFor (ctx : Context) (endpoint : APIEndpoint)
           (key : string) : result Request :=
  match url_Parse (URL endpoint) with
  | Err e => Err ("invalid endpoint URL: " ++ e)
  | Ok u =>
      let q := Values_Set "key" key (url_Query u) in
      let q := map_fold Values_Set q (Parameters endpoint) in
      let u := url_setRawQuery u (url_Encode q) in
      match requestBody endpoint with
      | Err e => Err e
      | Ok body =>
          match http_checkRequest (Method endpoint) (url_String u) with
          | Some e => Err ("failed to create request: " ++ e)
          | None =>
              Ok (map_fold Header_Set
                    {| req_ctx := ctx; req_method := Method endpoint;
                       req_url := url_String u; req_body := body;
                       req_header := ∅ |} (Headers endpoint))
          end
      end
  end.

(** The entry of [Details] a probe leaves. *)
Definition detailOf (p : APIEndpoint * result APIResponse) : Detail :=
  match p.2 with
  | Ok resp => DetailProbe (StatusCode resp) (VulnCheck p.1 resp)
  | Err err => DetailText ("Error: " ++ err)
  end.

(** The risk levels in their order. *)
Definition riskRank (l : RiskLevel) : nat :=
  if String.eqb l RiskLevelLow then 1
  else if String.eqb l RiskLevelMedium then 2
  else if String.eqb l RiskLevelHigh then 3
  else 0.

(** The world after the probes of [endpoints]. *)
Fixpoint worldAfter (v : GoogleMapsValidator) (ctx : Context) (key : string)
         (endpoints : list APIEndpoint) (w : World) : World :=
  match endpoints with
  | [] => w
  | endpoint :: rest =>
      worldAfter v ctx key rest (validateEndpoint v ctx endpoint key w).2
  end.

End WithRuntime.

End Services.

(** ** package main: the loop over the keys (cmd/apiKeyzer/main.go) *)

Module Main.
Import GoStrings.

Definition lf : string := String (byte 10) "".
Definition esc : string := String (byte 27) "".

(** [Color(colorString)] applied to one string argument. *)
Definition Red (s : string) : string := esc ++ "[1;31m" ++ s ++ esc ++ "[0m".
Definition Green (s : string) : string := esc ++ "[1;32m" ++ s ++ esc ++ "[0m".
Definition Yellow (s : string) : string := esc ++ "[1;33m" ++ s ++ esc ++ "[0m".
Definition Blue (s : string) : string := esc ++ "[1;34m" ++ s ++ esc ++ "[0m".
Definition Cyan (s : string) : string := esc ++ "[1;36m" ++ s ++ esc ++ "[0m".

(** [%d] of an [int]. *)
Definition formatInt (z : Z) : string :=
  if (z <? 0)%Z then "-" ++ PatternFile.itoa (Z.to_nat (- z))
  else PatternFile.itoa (Z.to_nat z).

(** [%v] of a value stored in [Details]. *)
Definition formatDetail (d : Validator.Detail) : string :=
  match d with
  | Validator.DetailText text => text
  | Validator.DetailProbe code vulnerable =>
      "map[status_code:" ++ formatInt code ++ " vulnerable:"
      ++ (if vulnerable then "true" else "false") ++ "]"
  end.

Section WithLibs.
Context `{rt : Validator.Runtime} `{net : !Services.NetLib}
        `{lib : Detector.DetectorLib}.

(** [initValidators]: a manager with the Google Maps validator
    registered. *)
Definition initValidators : Validator.ValidationManager :=
  Validator.RegisterValidator Validator.NewValidationManager
    (Services.asValidator Services.NewGoogleMapsValidator).

(** [printValidationResult]: the pieces of text it prints.  (The details
    are printed in the unspecified order of a map range; [map_to_list]
    fixes one.) *)
Definition printValidationResult (verbose : bool)
           (result : Validator.ValidationResult) (key : string)
  : list string :=
  let headline :=
    if Validator.Valid result
    then Red "[+] Vulnerable API Key: " ++ " " ++ key ++ lf
    else lf ++ "[-] Invalid key for " ++ Validator.Service result ++ ": "
           ++ Validator.ErrorStr result ++ lf in
  let line (ed : string * Validator.Detail) :=
    "  " ++ ed.1 ++ ": " ++ formatDetail ed.2 ++ lf in
  headline ::
    (if verbose
     then (lf ++ "Details:" ++ lf)
            :: (line <$> map_to_list (Validator.Details result))
     else []).

(** The state of the loop over the keys: what has been printed, the
    world, and the panic that ended the loop, if any. *)
Record Progress : Type := {
  printed : list string;
  world : Validator.World;
  panicked : option string;
}.

(** The body of the loop [for _, key := range keys] of [runValidation]. *)
Definition processKey (verbose : bool) (detector : Detector.KeyDetector)
           (validationManager : Validator.ValidationManager)
           (background : Validator.Context) (st : Progress) (key : string)
  : Progress :=
  match panicked st with
  | Some _ => st
  | None =>
      let out := app (printed st) (Detector.DetectService_prints detector key) in
      match Detector.DetectService detector key with
      | Panicked msg =>
          {| printed := out; world := world st; panicked := Some msg |}
      | Done service =>
          if String.eqb service ""
          then {| printed := app out ["Unknown service for key: " ++ key ++ lf];
                  world := world st; panicked := None |}
          else
            match Validator.ValidateKey validationManager background
                    service key (world st) with
            | (Err err, w) =>
                {| printed := app out ["Error validating key " ++ key ++ ": "
                                         ++ Yellow err ++ lf];
                   world := w; panicked := None |}
            | (Ok result, w) =>
                {| printed := app out (printValidationResult verbose result key);
                   world := w; panicked := None |}
            end
      end
  end.

(** What the loop prints for a key that is not validated: of an unknown
    service, or of a service without validator. *)
Definition offlineReport (detector : Detector.KeyDetector) (key : string)
  : list string :=
  app (Detector.DetectService_prints detector key)
      match Detector.DetectService detector key with
      | Panicked _ => []
      | Done service =>
          if String.eqb service ""
          then ["Unknown service for key: " ++ key ++ lf]
          else ["Error validating key " ++ key ++ ": "
                  ++ Yellow ("no validator found for service: " ++ service)
                  ++ lf]
      end.

(** A key the loop does not validate: no pattern matches it, or no
    validator is registered for its service. *)
Definition unsupported (detector : Detector.KeyDetector)
           (validationManager : Validator.ValidationManager)
           (key : string) : Prop :=
  exists service,
    Detector.DetectService detector key = Done service /\
    (service = "" \/ Validator.GetValidator validationManager service = None).

Definition processKeys (verbose : bool) (detector : Detector.KeyDetector)
           (validationManager : Validator.ValidationManager)
           (background : Validator.Context) (keys : list string)
           (w : Validator.World) : Progress :=
  foldl (processKey verbose detector validationManager background)
        {| printed := []; world := w; panicked := None |} keys.

End WithLibs.

End Main.

(** ** Stand-ins for the libraries, for the examples

    The properties below are proved for every implementation of the library
    interfaces.  The concrete inputs of the examples need concrete libraries;
    the ones here are small and exact on the inputs the examples use. *)

Module Example.
Import GoStrings.

(** *** encoding/json, for arrays of patterns *)

Inductive json : Type :=
  | JNull
  | JBool (b : bool)
  | JNumber (raw : string)
  | JString (s : string)
  | JArray (items : list json)
  | JObject (members : list (string * json)).

Definition quote : ascii := byte 34.
Definition backslash : ascii := byte 92.

(** Payloads are written with ['] where JSON has the double quote. *)
Fixpoint payload (s : string) : string :=
  match s with
  | EmptyString => EmptyString
  | String c rest =>
      String (if Ascii.eqb c "'"%char then quote else c) (payload rest)
  end.

Definition isWs (c : ascii) : bool :=
  Ascii.eqb c " "%char || Ascii.eqb c (byte 9) || Ascii.eqb c (byte 10)
  || Ascii.eqb c (byte 13).

Fixpoint skipWs (inp : list ascii) : list ascii :=
  match inp with
  | c :: rest => if isWs c then skipWs rest else inp
  | [] => []
  end.

Definition unescape (c : ascii) : option ascii :=
  if Ascii.eqb c quote then Some quote
  else if Ascii.eqb c backslash then Some backslash
  else if Ascii.eqb c "/"%char then Some "/"%char
  else if Ascii.eqb c "n"%char then Some (byte 10)
  else if Ascii.eqb c "t"%char then Some (byte 9)
  else if Ascii.eqb c "r"%char then Some (byte 13)
  else None.

(** The rest of a string literal, after its opening quote. *)
Fixpoint parseString (inp : list ascii) : option (string * list ascii) :=
  match inp with
  | [] => None
  | c :: rest =>
      if Ascii.eqb c quote then Some (EmptyString, rest)
      else if Ascii.eqb c backslash then
        match rest with
        | e :: rest' =>
            match unescape e, parseString rest' with
            | Some c', Some (s, rest'') => Some (String c' s, rest'')
            | _, _ => None
            end
        | [] => None
        end
      else match parseString rest with
           | Some (s, rest') => Some (String c s, rest')
           | None => None
           end
  end.

Definition isNumberChar (c : ascii) : bool :=
  let n := N_of_ascii c in
  (N.leb 48 n && N.leb n 57) || Ascii.eqb c "-"%char || Ascii.eqb c "+"%char
  || Ascii.eqb c "."%char || Ascii.eqb c "e"%char || Ascii.eqb c "E"%char.

Fixpoint parseNumber (inp : list ascii) : string * list ascii :=
  match inp with
  | c :: rest =>
      if isNumberChar c
      then let '(s, rest') := parseNumber rest in (String c s, rest')
      else (EmptyString, inp)
  | [] => (EmptyString, [])
  end.

Section Composite.
Variable parseValue : list ascii -> option (json * list ascii).

(** The elements of an array after the first [[]; [n] bounds their
    number. *)
Fixpoint parseItems (n : nat) (inp : list ascii)
  : option (list json * list ascii) :=
  match n with
  | O => None
  | S n' =>
      match parseValue inp with
      | None => None
      | Some (v, rest) =>
          match skipWs rest with
          | c :: rest' =>
              if Ascii.eqb c ","%char then
                match parseItems n' rest' with
                | Some (vs, rest'') => Some (v :: vs, rest'')
                | None => None
                end
              else if Ascii.eqb c "]"%char then Some ([v], rest')
              else None
          | [] => None
          end
      end
  end.

Fixpoint parseMembers (n : nat) (inp : list ascii)
  : option (list (string * json) * list ascii) :=
  match n with
  | O => None
  | S n' =>
      match skipWs inp with
      | q :: rest =>
          if Ascii.eqb q quote then
            match parseString rest with
            | None => None
            | Some (k, rest1) =>
                match skipWs rest1 with
                | c :: rest2 =>
                    if Ascii.eqb c ":"%char then
                      match parseValue rest2 with
                      | None => None
                      | Some (v, rest3) =>
                          match skipWs rest3 with
                          | d :: rest4 =>
                              if Ascii.eqb d ","%char then
                                match parseMembers n' rest4 with
                                | Some (ms, rest5) => Some ((k, v) :: ms, rest5)
                                | None => None
                                end
                              else if Ascii.eqb d "}"%char
                              then Some ([(k, v)], rest4)
                              else None
                          | [] => None
                          end
                      end
                    else None
                | [] => None
                end
            end
          else None
      | [] => None
      end
  end.
End Composite.

Fixpoint parseValue (depth : nat) (inp : list ascii)
  : option (json * list ascii) :=
  match depth with
  | O => None
  | S depth' =>
      match skipWs inp with
      | [] => None
      | c :: rest =>
          if Ascii.eqb c quote then
            match parseString rest with
            | Some (s, rest') => Some (JString s, rest')
            | None => None
            end
          else if Ascii.eqb c "["%char then
            match skipWs rest with
            | d :: rest' =>
                if Ascii.eqb d "]"%char then Some (JArray [], rest')
                else match parseItems (parseValue depth') (List.length rest) rest with
                     | Some (vs, rest'') => Some (JArray vs, rest'')
                     | None => None
                     end
            | [] => None
            end
          else if Ascii.eqb c "{"%char then
            match skipWs rest with
            | d :: rest' =>
                if Ascii.eqb d "}"%char then Some (JObject [], rest')
                else match parseMembers (parseValue depth') (List.length rest) rest with
                     | Some (ms, rest'') => Some (JObject ms, rest'')
                     | None => None
                     end
            | [] => None
            end
          else if hasPrefix (list_ascii_of_string "null") (c :: rest)
          then Some (JNull, drop 4 (c :: rest))
          else if hasPrefix (list_ascii_of_string "true") (c :: rest)
          then Some (JBool true, drop 4 (c :: rest))
          else if hasPrefix (list_ascii_of_string "false") (c :: rest)
          then Some (JBool false, drop 5 (c :: rest))
          else if isNumberChar c
          then let '(s, rest') := parseNumber (c :: rest) in
               Some (JNumber s, rest')
          else None
      end
  end.

Definition parseJSON (data : string) : option json :=
  let inp := list_ascii_of_string data in
  match parseValue (S (List.length inp)) inp with
  | Some (v, rest) =>
      match skipWs rest with
      | [] => Some v
      | _ :: _ => None
      end
  | None => None
  end.

Definition lower (c : ascii) : ascii :=
  let n := N_of_ascii c in
  if N.leb 65 n && N.leb n 90 then ascii_of_N (n + 32) else c.

Fixpoint foldName (s : string) : string :=
  match s with
  | EmptyString => EmptyString
  | String c rest => String (lower c) (foldName rest)
  end.

Definition typeError : error := "json: cannot unmarshal value into Go value".

Definition decodeString (v : json) (old : string) : result string :=
  match v with
  | JString s => Ok s
  | JNull => Ok old
  | _ => Err typeError
  end.

Fixpoint decodeStrings (vs : list json) : result (list string) :=
  match vs with
  | [] => Ok []
  | v :: rest =>
      match decodeString v "", decodeStrings rest with
      | Ok s, Ok ss => Ok (s :: ss)
      | Err e, _ => Err e
      | _, Err e => Err e
      end
  end.

(** One object member into the struct; keys match field names without
    regard to case, unknown keys are skipped. *)
Definition decodeMember (p : Detector.Pattern) (m : string * json)
  : result Detector.Pattern :=
  let '(k, v) := m in
  if String.eqb (foldName k) "name" then
    match v with
    | JNull => Ok p
    | JArray vs =>
        match decodeStrings vs with
        | Ok names => Ok {| Detector.Name := names;
                            Detector.Regex := Detector.Regex p |}
        | Err e => Err e
        end
    | _ => Err typeError
    end
  else if String.eqb (foldName k) "regex" then
    match decodeString v (Detector.Regex p) with
    | Ok s => Ok {| Detector.Name := Detector.Name p; Detector.Regex := s |}
    | Err e => Err e
    end
  else Ok p.

Fixpoint decodeMembers (p : Detector.Pattern) (ms : list (string * json))
  : result Detector.Pattern :=
  match ms with
  | [] => Ok p
  | m :: rest =>
      match decodeMember p m with
      | Ok p' => decodeMembers p' rest
      | Err e => Err e
      end
  end.

Definition decodePattern (v : json) : result Detector.Pattern :=
  let zero := {| Detector.Name := []; Detector.Regex := "" |} in
  match v with
  | JObject ms => decodeMembers zero ms
  | JNull => Ok zero
  | _ => Err typeError
  end.

Fixpoint decodePatterns (vs : list json) : result (list Detector.Pattern) :=
  match vs with
  | [] => Ok []
  | v :: rest =>
      match decodePattern v, decodePatterns rest with
      | Ok p, Ok ps => Ok (p :: ps)
      | Err e, _ => Err e
      | _, Err e => Err e
      end
  end.

Definition unmarshalPatterns (data : string) : result (list Detector.Pattern) :=
  match parseJSON data with
  | None => Err "invalid character in JSON input"
  | Some JNull => Ok []
  | Some (JArray vs) => decodePatterns vs
  | Some _ => Err typeError
  end.

(** *** regexp, for patterns without metacharacters

    A pattern in which no character has a special meaning matches the
    strings it occurs in.  Every other pattern is refused by this stand-in;
    of those the examples use only ["("], which [regexp.Compile] refuses
    as well, with the error given here. *)

Definition metacharacters : string := "\.+*?()|[]{}^$".

Fixpoint isLiteral (pattern : string) : bool :=
  match pattern with
  | EmptyString => true
  | String c rest =>
      negb (Contains metacharacters (String c EmptyString)) && isLiteral rest
  end.

Definition compileLiteral (pattern : string) : result string :=
  if isLiteral pattern then Ok pattern
  else if String.eqb pattern "("
  then Err "error parsing regexp: missing closing ): `(`"
  else Err "error parsing regexp: not a literal".

#[export] Instance literalLib : Detector.DetectorLib := {|
  Detector.Regexp := string;
  Detector.regexp_Compile := compileLiteral;
  Detector.MatchString := fun re key => Contains key re;
  Detector.json_Unmarshal := unmarshalPatterns;
|}.

(** *** net/url, net/http and the world, scripted

    The world of the examples is a clock and two lists of URL prefixes: the
    hosts that refuse connections and the endpoints that serve every key
    with status 200; every other request is answered with status 403.
    The error of a refused connection is the cause alone (the client of
    net/http puts the method and the URL in front of it), and the query is
    encoded without sorting and escaping; the properties are proved for
    every implementation of the interface. *)

Record NetWorld : Type := {
  clock : nat;
  unreachable : list string;
  serving : list string;
}.

Definition tick (w : NetWorld) : NetWorld :=
  {| clock := S (clock w); unreachable := unreachable w;
     serving := serving w |}.

#[export] Instance scriptedRuntime : Validator.Runtime := {|
  Validator.Context := unit;
  Validator.Time := nat;
  Validator.World := NetWorld;
  Validator.time_Now := clock;
|}.

(** [strconv.Quote], which [%q] prints a string with: exact on ASCII
    strings (every byte from 128 on is written as an escape here). *)
Definition hexDigit (n : N) : ascii :=
  if N.ltb n 10 then ascii_of_N (48 + n) else ascii_of_N (87 + n).

Definition quoteByte (c : ascii) : string :=
  let n := N_of_ascii c in
  if Ascii.eqb c quote then String backslash (String quote "")
  else if Ascii.eqb c backslash then String backslash (String backslash "")
  else if N.eqb n 7 then "\a"
  else if N.eqb n 8 then "\b"
  else if N.eqb n 9 then "\t"
  else if N.eqb n 10 then "\n"
  else if N.eqb n 11 then "\v"
  else if N.eqb n 12 then "\f"
  else if N.eqb n 13 then "\r"
  else if N.ltb n 32 || N.leb 127 n
  then "\x" ++ String (hexDigit (n / 16)) (String (hexDigit (n mod 16)) "")
  else String c "".

Fixpoint quoteBody (s : string) : string :=
  match s with
  | EmptyString => EmptyString
  | String c rest => quoteByte c ++ quoteBody rest
  end.

Definition strconv_Quote (s : string) : string :=
  String quote (quoteBody s ++ String quote "").

(** [url.Parse] refuses a URL with an ASCII control character; the error
    is a [*url.Error] with the operation [parse] and the URL, printed as
    [parse <quoted URL>: <cause>].  (For URLs without fragment.) *)
Definition isCTL (c : ascii) : bool :=
  let n := N_of_ascii c in N.ltb n 32 || N.eqb n 127.

Definition parseURL (raw : string) : result (string * string) :=
  if existsb isCTL (list_ascii_of_string raw)
  then Err ("parse " ++ strconv_Quote raw
              ++ ": net/url: invalid control character in URL")
  else Ok (raw, "").

Definition encodeQuery (q : gmap string (list string)) : string :=
  map_fold (fun k vs acc =>
              foldl (fun acc v => acc ++ "&" ++ k ++ "=" ++ v) acc vs) "" q.

Definition marshalMap (m : gmap string string) : result string :=
  let member k v acc :=
    (if String.eqb acc "" then "" else acc ++ ",") ++ "'" ++ k ++ "':'" ++ v ++ "'" in
  Ok (payload ("{" ++ map_fold member "" m ++ "}")).

Definition matchesAny (prefixes : list string) (url : string) : bool :=
  existsb (fun p => String.prefix p url) prefixes.

Definition doRequest (c : Services.HTTPClient) (req : Services.Request)
           (w : NetWorld) : result Services.Response * NetWorld :=
  if matchesAny (unreachable w) (Services.req_url req)
  then (Err "dial tcp: connection refused", tick w)
  else if matchesAny (serving w) (Services.req_url req)
  then (Ok {| Services.resp_StatusCode := 200;
              Services.resp_Body := Ok "PNG" |}, tick w)
  else (Ok {| Services.resp_StatusCode := 403;
              Services.resp_Body := Ok "error" |}, tick w).

#[export] Instance scriptedNet : Services.NetLib := {|
  Services.ParsedURL := string * string;
  Services.url_Parse := parseURL;
  Services.url_Query := fun _ => ∅;
  Services.url_Encode := encodeQuery;
  Services.url_setRawQuery := fun u q => (u.1, q);
  Services.url_String := fun u => u.1 ++ "?" ++ u.2;
  Services.json_Marshal := marshalMap;
  Services.http_checkRequest := fun _ _ => None;
  Services.textproto_CanonicalMIMEHeaderKey := fun k => k;
  Services.client_Do := doRequest;
  Services.json_UnmarshalInto := fun _ resp => resp;
|}.

Definition staticmap : string :=
  "https://maps.googleapis.com/maps/api/staticmap".
Definition streetview : string :=
  "https://maps.googleapis.com/maps/api/streetview".
Definition directions : string :=
  "https://maps.googleapis.com/maps/api/directions/json".
Definition geolocate : string :=
  "https://www.googleapis.com/geolocation/v1/geolocate".

(** Street View is down, Static Map and Directions serve the key. *)
Definition streetviewDown : NetWorld :=
  {| clock := 7; unreachable := [streetview];
     serving := [staticmap; directions] |}.

(** An endpoint whose URL does not parse (it ends in the DEL character). *)
Definition brokenEndpoint : Services.APIEndpoint :=
  {| Services.URL := String (byte 127) "https://maps.example/";
     Services.Method := "GET";
     Services.Parameters := ∅; Services.Headers := ∅;
     Services.PostData := ∅;
     Services.VulnCheck := fun resp => Z.eqb (Services.StatusCode resp) 200 |}.

(** A validator that fails on the key ["bad"] and accepts every other
    key. *)
Definition pickyValidator : Validator.Validator :=
  {| Validator.Validate := fun _ key w =>
       if String.eqb key "bad" then (Err Validator.ErrTimeout, tick w)
       else (Ok {| Validator.Valid := true; Validator.Service := "picky";
                   Validator.Permissions := [key];
                   Validator.RiskLevel_ := Validator.RiskLevelMedium;
                   Validator.Details := ∅; Validator.Error := None;
                   Validator.ErrorStr := "";
                   Validator.ValidatedAt := clock w |}, tick w);
     Validator.GetService := "picky";
     Validator.GetValidationMethod := Validator.MethodSDK |}.

Definition pickyManager : Validator.ValidationManager :=
  Validator.RegisterValidator Validator.NewValidationManager pickyValidator.

Definition quiet : NetWorld :=
  {| clock := 0; unreachable := []; serving := [] |}.

(** A schedule for three keys in which the goroutine of the last key
    finishes first and the calling goroutine waits for all of them. *)
Definition lastFirst : list Validator.Event :=
  [Validator.EvSpawn; Validator.EvSpawn; Validator.EvAcquire 1;
   Validator.EvSpawn; Validator.EvLoopExit; Validator.EvAcquire 2;
   Validator.EvCall 2 quiet; Validator.EvAcquire 0;
   Validator.EvStore 2 quiet; Validator.EvCall 1 (tick quiet);
   Validator.EvRelease 2; Validator.EvDone 2;
   Validator.EvCall 0 quiet; Validator.EvStore 0 (tick (tick quiet));
   Validator.EvStore 1 quiet; Validator.EvRelease 0; Validator.EvRelease 1;
   Validator.EvDone 1; Validator.EvDone 0; Validator.EvReturn].

(** The endpoint list around its second entry, Street View. *)
Definition streetviewEndpoint : Services.APIEndpoint :=
  default brokenEndpoint (Services.googleMapsEndpoints !! 1).
Definition beforeStreetview : list Services.APIEndpoint :=
  take 1 Services.googleMapsEndpoints.
Definition afterStreetview : list Services.APIEndpoint :=
  drop 2 Services.googleMapsEndpoints.

(** Configurations: two entries that share the alias B; two entries with
    the same canonical alias A; an entry without aliases; two entries whose
    patterns overlap. *)
Definition sharedAlias : string :=
  payload "[{'Name':['A','B'],'Regex':'x'},{'Name':['C','B'],'Regex':'y'}]".
Definition sharedAliasDetector : Detector.KeyDetector :=
  {| Detector.patterns :=
       [{| Detector.Name := ["A"; "B"]; Detector.Regex := "x" |};
        {| Detector.Name := ["C"; "B"]; Detector.Regex := "y" |}];
     Detector.compiled := <["A" := "x"]> (<["B" := "y"]> (<["C" := "y"]> ∅));
     Detector.verbose := false |}.
Definition sharedCanonical : string :=
  payload "[{'Name':['A'],'Regex':'x'},{'Name':['A'],'Regex':'y'}]".
Definition noAlias : string := payload "[{'Name':[],'Regex':'x'}]".
Definition twoServices : string :=
  payload "[{'Name':['A','B'],'Regex':'x'},{'Name':['C'],'Regex':'xy'}]".

(** Six keys, all spawned, the first five holding the semaphore. *)
Definition sixKeys : list string := ["k0"; "k1"; "k2"; "k3"; "k4"; "k5"].
Definition fiveAcquired : list Validator.Event :=
  [Validator.EvSpawn; Validator.EvSpawn; Validator.EvSpawn;
   Validator.EvSpawn; Validator.EvSpawn; Validator.EvSpawn;
   Validator.EvAcquire 0; Validator.EvAcquire 1; Validator.EvAcquire 2;
   Validator.EvAcquire 3; Validator.EvAcquire 4].

(** Standard input with blank lines, a repeated key and a carriage
    return. *)
Definition pipedKeys : Input.Stream :=
  {| Input.stream_data :=
       " key-1 " ++ String (byte 13) (String (byte 10) "")
       ++ String (byte 10) "key-2" ++ String (byte 10) "key-1"
       ++ String (byte 10) "   " ++ String (byte 10) "key-3";
     Input.stream_err := None |}.

(** A configuration whose second entry has a regex that does not
    compile. *)
Definition badRegex : string :=
  payload "[{'Name':['A'],'Regex':'x'},{'Name':['B'],'Regex':'('}]".

(** The detector of the configuration without aliases. *)
Definition noAliasDetector : Detector.KeyDetector :=
  {| Detector.patterns := [{| Detector.Name := []; Detector.Regex := "x" |}];
     Detector.compiled := ∅;
     Detector.verbose := false |}.

(** A schedule for one key. *)
Definition oneKey : list Validator.Event :=
  [Validator.EvSpawn; Validator.EvLoopExit; Validator.EvAcquire 0;
   Validator.EvCall 0 streetviewDown; Validator.EvStore 0 quiet;
   Validator.EvRelease 0; Validator.EvDone 0; Validator.EvReturn].

(** *** regexp, for anchored patterns

    [validateServicePattern] compiles a pattern between [^] and [$].  This
    stand-in accepts a pattern without metacharacters between the two
    anchors, which matches the keys equal to it, and refuses every other
    pattern. *)

Fixpoint anchoredBody (s : string) : option string :=
  match s with
  | EmptyString => None
  | String c rest =>
      match rest with
      | EmptyString => if Ascii.eqb c "$"%char then Some EmptyString else None
      | String _ _ => option_map (String c) (anchoredBody rest)
      end
  end.

Definition compileAnchored (pattern : string) : result string :=
  match pattern with
  | EmptyString => Err "error parsing regexp: not anchored"
  | String c rest =>
      if Ascii.eqb c "^"%char then
        match anchoredBody rest with
        | Some body =>
            if isLiteral body then Ok body
            else Err "error parsing regexp: not a literal"
        | None => Err "error parsing regexp: not anchored"
        end
      else Err "error parsing regexp: not anchored"
  end.

Definition anchoredLib : Detector.DetectorLib := {|
  Detector.Regexp := string;
  Detector.regexp_Compile := compileAnchored;
  Detector.MatchString := fun re key => String.eqb key re;
  Detector.json_Unmarshal := unmarshalPatterns;
|}.

(** Service patterns: one that passes the check, one whose second pattern
    is empty; a configuration with the first. *)
Definition googlePattern : PatternFile.ServicePattern :=
  {| PatternFile.Patterns := ["AIza"; "ya29"];
     PatternFile.Prefixes := ["AIza"];
     PatternFile.Length := [39%Z] |}.
Definition emptySecond : PatternFile.ServicePattern :=
  {| PatternFile.Patterns := ["AIza"; ""; "ya29"];
     PatternFile.Prefixes := [];
     PatternFile.Length := [] |}.
Definition googleConfig : gmap string PatternFile.ServicePattern :=
  {[ "google" := googlePattern ]}.

End Example.

(** * Properties *)

Module GoStringsProps.
Import GoStrings.

Lemma trimFrom_skip width k b :
  trimFrom width k b = trimFrom width 0 (drop k b).
Proof.
  revert k. induction b as [|c b IH]; intros [|k]; try done.
  cbn [trimFrom]. rewrite IH. done.
Qed.

Lemma trimFrom_step width b :
  width [] = 0 ->
  trimFrom width 0 b =
  match width b with
  | O => b
  | S k => trimFrom width 0 (drop (S k) b)
  end.
Proof.
  intros Hnil. destruct b as [|c b]; cbn [trimFrom].
  - rewrite Hnil. done.
  - destruct (width (c :: b)) as [|k]; [done|]. exact (trimFrom_skip width k b).
Qed.

Lemma trimFrom_width width :
  width [] = 0 ->
  forall n b, List.length b <= n -> width (trimFrom width 0 b) = 0.
Proof.
  intros Hnil. induction n as [|n IH]; intros b Hlen.
  - destruct b; [done|cbn in Hlen; lia].
  - rewrite trimFrom_step; [|exact Hnil]. destruct (width b) eqn:E; [exact E|].
    apply IH. rewrite length_drop. destruct b; cbn in *; lia.
Qed.

Lemma trimFrom_suffix width :
  width [] = 0 ->
  forall n b, List.length b <= n ->
              exists pre, b = (pre ++ trimFrom width 0 b)%list.
Proof.
  intros Hnil. induction n as [|n IH]; intros b Hlen.
  - destruct b; [by exists []|cbn in Hlen; lia].
  - rewrite trimFrom_step by done. destruct (width b) as [|k] eqn:E.
    + by exists [].
    + destruct (IH (drop (S k) b)) as [pre Hpre].
      { rewrite length_drop. destruct b; cbn in *; lia. }
      exists (take (S k) b ++ pre)%list.
      rewrite <- app_assoc, <- Hpre. by rewrite take_drop.
Qed.

Lemma trimFrom_id width b : width b = 0 -> trimFrom width 0 b = b.
Proof. intros H. destruct b; [done|]. cbn [trimFrom]. by rewrite H. Qed.

Lemma hasPrefix_app p b t : hasPrefix p b = true -> hasPrefix p (b ++ t) = true.
Proof.
  revert b. induction p as [|x p IH]; intros [|y b] H; try done.
  cbn in *. apply andb_true_iff in H as [-> H]. by apply IH.
Qed.

Lemma whiteSpace_nonempty sp : In sp whiteSpace -> 0 < List.length sp.
Proof.
  intros H. cbn in H.
  repeat (destruct H as [<-|H]; [cbn; lia|]). done.
Qed.

Lemma leadingSpace_nil : leadingSpace [] = 0.
Proof. reflexivity. Qed.

Lemma trailingSpace_nil : trailingSpace [] = 0.
Proof. reflexivity. Qed.

(** White space at the front of a prefix is white space at the front of the
    whole. *)
Lemma leadingSpace_app b t :
  leadingSpace b <> 0 -> leadingSpace (b ++ t) <> 0.
Proof.
  unfold leadingSpace. intros H.
  destruct (find (fun sp => hasPrefix sp b) whiteSpace) as [sp|] eqn:E; [|done].
  apply find_some in E as [Hin Hp].
  destruct (find (fun sp => hasPrefix sp (b ++ t)) whiteSpace) as [sp'|] eqn:E'.
  - apply find_some in E' as [Hin' _].
    pose proof (whiteSpace_nonempty _ Hin'). lia.
  - pose proof (find_none _ _ E' _ Hin) as Hno. cbn in Hno.
    by rewrite hasPrefix_app in Hno.
Qed.

Lemma list_ascii_roundtrip b :
  list_ascii_of_string (string_of_list_ascii b) = b.
Proof. apply list_ascii_of_string_of_list_ascii. Qed.

(** [TrimSpace] leaves no white space at either end. *)
Lemma TrimSpace_trimmed s : trimmed (TrimSpace s).
Proof.
  unfold trimmed, TrimSpace. rewrite list_ascii_roundtrip.
  set (l := trimLeft (list_ascii_of_string s)).
  assert (Hl : leadingSpace l = 0).
  { eapply trimFrom_width; [apply leadingSpace_nil|done]. }
  unfold trimRight.
  destruct (trimFrom_suffix trailingSpace trailingSpace_nil _ (rev l) (le_n _))
    as [pre Hpre].
  set (x := trimFrom trailingSpace 0 (rev l)) in *.
  split.
  - assert (l = (rev x ++ rev pre)%list) as Hsplit.
    { rewrite <- rev_app_distr, <- Hpre. by rewrite rev_involutive. }
    destruct (leadingSpace (rev x)) eqn:E; [done|].
    exfalso. rewrite Hsplit in Hl. revert Hl. apply leadingSpace_app. lia.
  - rewrite rev_involutive.
    eapply trimFrom_width; [apply trailingSpace_nil|done].
Qed.

(** A string without white space at its ends is left as it is. *)
Lemma TrimSpace_id s : trimmed s -> TrimSpace s = s.
Proof.
  intros [Hl Hr]. unfold TrimSpace, trimLeft, trimRight.
  rewrite (trimFrom_id leadingSpace (list_ascii_of_string s) Hl).
  rewrite (trimFrom_id trailingSpace (rev (list_ascii_of_string s)) Hr).
  rewrite rev_involutive. apply string_of_list_ascii_of_string.
Qed.

End GoStringsProps.

Module InputProps.
Import GoStrings Input GoStringsProps.

Lemma String_eqb_empty k : String.eqb k "" = true <-> k = "".
Proof. apply String.eqb_eq. Qed.

Lemma firstIndex_None k l : firstIndex k l = None <-> k ∉ l.
Proof.
  induction l as [|x l IH]; cbn.
  - split; [intros _; apply not_elem_of_nil|done].
  - destruct (String.eqb x k) eqn:E.
    + apply String.eqb_eq in E as ->. split; [done|].
      intros H. exfalso. apply H. by apply elem_of_cons; left.
    + apply String.eqb_neq in E. rewrite not_elem_of_cons.
      destruct (firstIndex k l); cbn; split; try done.
      * intros [_ H]. by apply IH in H.
      * intros _. split; [congruence|]. by apply IH.
  Qed.

Lemma firstIndex_lt k l a : firstIndex k l = Some a -> a < List.length l.
Proof.
  revert a. induction l as [|x l IH]; intros a; cbn; [done|].
  destruct (String.eqb x k).
  - intros [= <-]. lia.
  - destruct (firstIndex k l) as [b|]; cbn; [|done].
    intros [= <-]. specialize (IH b eq_refl). lia.
Qed.

Lemma firstIndex_app_l k l t a :
  firstIndex k l = Some a -> firstIndex k (l ++ t) = Some a.
Proof.
  revert a. induction l as [|x l IH]; intros a; cbn; [done|].
  destruct (String.eqb x k); [done|].
  destruct (firstIndex k l) as [b|]; cbn; [|done].
  intros [= <-]. by rewrite (IH b).
Qed.

Lemma firstIndex_app_r k l :
  firstIndex k l = None -> firstIndex k (l ++ [k]) = Some (List.length l).
Proof.
  induction l as [|x l IH]; cbn.
  - by rewrite String.eqb_refl.
  - destruct (String.eqb x k); [done|].
    destruct (firstIndex k l); cbn; [done|].
    intros _. by rewrite IH.
Qed.

(** The state of the scanning loop after the texts [l]. *)
Record scanned (l : list string) (st : gmap string bool * list string) : Prop := {
  sc_seen : forall k, seen_at st.1 k = true <-> k ∈ st.2;
  sc_nodup : NoDup st.2;
  sc_trimmed : Forall trimmed st.2;
  sc_elems : forall k, k ∈ st.2 <-> k <> "" /\ k ∈ TrimSpace <$> l;
  sc_order : forall i j ki kj,
      st.2 !! i = Some ki -> st.2 !! j = Some kj -> i < j ->
      exists a b, firstIndex ki (TrimSpace <$> l) = Some a /\
                  firstIndex kj (TrimSpace <$> l) = Some b /\ a < b;
}.

Lemma scanned_nil : scanned [] (∅, []).
Proof.
  split; cbn.
  - intros k. unfold seen_at. rewrite lookup_empty. cbn.
    split; [done|]. intros H. by apply elem_of_nil in H.
  - constructor.
  - constructor.
  - intros k. split; [intros H; by apply elem_of_nil in H|].
    intros [_ H]. by apply elem_of_nil in H.
  - intros i j ki kj H. done.
Qed.

Lemma scanned_snoc l st text :
  scanned l st -> scanned (l ++ [text]) (scanKey st text).
Proof.
  intros []. destruct st as [seen keys]. cbn [fst snd] in *.
  unfold scanKey. set (key := TrimSpace text).
  assert (Htexts : TrimSpace <$> (l ++ [text])%list
                   = ((TrimSpace <$> l) ++ [key])%list)
    by (by rewrite fmap_app).
  destruct (String.eqb key "") eqn:Eempty; cbn [negb andb].
  { apply String.eqb_eq in Eempty.
    split; cbn [fst snd]; rewrite ?Htexts; try done.
    - intros k. rewrite sc_elems0, elem_of_app, list_elem_of_singleton.
      split; [intros [? ?]; auto|]. intros [Hk [?| ->]]; [done|congruence].
    - intros i j ki kj Hi Hj Hlt.
      destruct (sc_order0 _ _ _ _ Hi Hj Hlt) as (a & b & Ha & Hb & Hab).
      exists a, b. by rewrite !(firstIndex_app_l _ _ _ _ Ha),
                            !(firstIndex_app_l _ _ _ _ Hb). }
  apply String.eqb_neq in Eempty.
  destruct (seen_at seen key) eqn:Eseen; cbn [negb].
  { apply sc_seen0 in Eseen.
    split; cbn [fst snd]; rewrite ?Htexts; try done.
    - intros k. rewrite sc_elems0, elem_of_app, list_elem_of_singleton.
      split; [intros [? ?]; auto|]. intros [Hk [?| ->]]; [done|].
      by apply sc_elems0.
    - intros i j ki kj Hi Hj Hlt.
      destruct (sc_order0 _ _ _ _ Hi Hj Hlt) as (a & b & Ha & Hb & Hab).
      exists a, b. by rewrite !(firstIndex_app_l _ _ _ _ Ha),
                            !(firstIndex_app_l _ _ _ _ Hb). }
  assert (Hfresh : key ∉ keys).
  { intros Hin. apply sc_seen0 in Hin. congruence. }
  assert (Hnew : firstIndex key (TrimSpace <$> l) = None).
  { apply firstIndex_None. intros Hin. apply Hfresh, sc_elems0. done. }
  split; cbn [fst snd]; rewrite ?Htexts.
  - intros k. unfold seen_at in *. rewrite elem_of_app, list_elem_of_singleton.
    destruct (decide (key = k)) as [->|Hne].
    + rewrite lookup_insert_eq. cbn. split; auto.
    + rewrite lookup_insert_ne by done. rewrite sc_seen0.
      split; [auto|]. intros [?|?]; [done|congruence].
  - apply NoDup_app. split; [done|]. split.
    + intros k Hk ->%list_elem_of_singleton. done.
    + apply NoDup_singleton.
  - apply Forall_app. split; [done|]. constructor; [|constructor].
    apply TrimSpace_trimmed.
  - intros k. rewrite !elem_of_app, !list_elem_of_singleton, sc_elems0.
    split.
    + intros [[? ?]| ->]; auto.
    + intros [Hk [?| ->]]; auto.
  - intros i j ki kj Hi Hj Hlt.
    apply lookup_app_Some in Hj as [Hj|[Hge Hj]].
    + pose proof (lookup_lt_Some _ _ _ Hj).
      rewrite lookup_app_l in Hi by lia.
      destruct (sc_order0 _ _ _ _ Hi Hj Hlt) as (a & b & Ha & Hb & Hab).
      exists a, b. by rewrite !(firstIndex_app_l _ _ _ _ Ha),
                            !(firstIndex_app_l _ _ _ _ Hb).
    + apply list_lookup_singleton_Some in Hj as [Hj <-].
      rewrite lookup_app_l in Hi by lia.
      assert (ki ∈ keys) as Hki by (by eapply list_elem_of_lookup_2).
      apply sc_elems0 in Hki as [_ Hki].
      destruct (firstIndex ki (TrimSpace <$> l)) as [a|] eqn:Ea.
      2:{ by apply firstIndex_None in Ea. }
      exists a, (List.length (TrimSpace <$> l)).
      rewrite (firstIndex_app_l _ _ _ _ Ea), firstIndex_app_r by done.
      repeat split. by eapply firstIndex_lt.
Qed.

Lemma scanned_foldl tokens :
  forall l st, scanned l st -> scanned (l ++ tokens) (foldl scanKey st tokens).
Proof.
  induction tokens as [|text tokens IH]; intros l st H; cbn.
  - by rewrite app_nil_r.
  - replace (l ++ text :: tokens)%list with ((l ++ [text]) ++ tokens)%list
      by (by rewrite <- app_assoc).
    apply IH. by apply scanned_snoc.
Qed.

Lemma scanKeys_scanned tokens :
  scanned tokens (foldl scanKey (∅, []) tokens).
Proof. apply (scanned_foldl tokens [] _ scanned_nil). Qed.

(** C9 (as amended).  Whatever the source, the supplied keys are trimmed
    of surrounding white space, no key occurs twice, and the keys stand in
    the order of their first occurrence in the source.  For a file and for
    standard input the keys are exactly the non-empty trimmed lines.  For a
    single argument the sequence is the one trimmed key, empty or not. *)
Theorem supplied_keys p src keys :
  supply p src = Ok keys ->
  exists texts,
    sourceTexts src = Some texts /\
    Forall trimmed keys /\
    NoDup keys /\
    (forall i j ki kj,
        keys !! i = Some ki -> keys !! j = Some kj -> i < j ->
        exists a b, firstIndex ki texts = Some a /\
                    firstIndex kj texts = Some b /\ a < b) /\
    match src with
    | SingleKey key => keys = [TrimSpace key]
    | _ => forall k, k ∈ keys <-> k <> "" /\ k ∈ texts
    end.
Proof.
  destruct src as [key|fs filename|stdin]; cbn.
  - intros [= <-]. exists [TrimSpace key]. unfold FromSingle.
    split; [reflexivity|].
    split; [|split; [|split; [|reflexivity]]].
    + constructor; [apply TrimSpace_trimmed|constructor].
    + apply NoDup_singleton.
    + intros [|i] [|j] ki kj Hi Hj Hlt; try lia; done.
  - unfold FromFile. destruct (fs filename) as [file|e]; [|done].
    destruct (Scanner_run file) as [tokens [e|]] eqn:Erun; [done|].
    intros [= <-]. exists (TrimSpace <$> tokens).
    destruct (scanKeys_scanned tokens). unfold scanKeys.
    split; [reflexivity|].
    split; [assumption|].
    split; [assumption|].
    split; assumption.
  - unfold FromStdin.
    destruct (Scanner_run stdin) as [tokens [e|]] eqn:Erun; [done|].
    intros [= <-]. exists (TrimSpace <$> tokens).
    destruct (scanKeys_scanned tokens). unfold scanKeys.
    split; [reflexivity|].
    split; [assumption|].
    split; [assumption|].
    split; assumption.
Qed.

End InputProps.

Module DetectorProps.
Import Detector.
Section WithLib.
Context `{lib : DetectorLib}.

Lemma registerNames_lookup re names (m : gmap string Regexp) alias :
  registerNames re names m !! alias
  = if decide (alias ∈ names) then Some re else m !! alias.
Proof.
  unfold registerNames. revert m.
  induction names as [|name names IH]; intros m; cbn [foldl].
  - rewrite decide_False; [done|]. apply not_elem_of_nil.
  - rewrite IH. destruct (decide (alias ∈ names)) as [Hin|Hnot].
    + rewrite decide_True; [done|]. by apply elem_of_cons; right.
    + destruct (decide (name = alias)) as [->|Hne].
      * rewrite lookup_insert_eq, decide_True; [done|]. by apply elem_of_cons; left.
      * rewrite lookup_insert_ne by done. rewrite decide_False; [done|].
        intros [?|?]%elem_of_cons; congruence.
Qed.

Lemma notRedeclaredAfter_cons p ps j alias :
  notRedeclaredAfter ps j alias -> notRedeclaredAfter (p :: ps) (S j) alias.
Proof.
  intros H [|k] q Hlt Hk; [lia|]. apply (H k); [lia|done].
Qed.

(** The alias map after the compile loop: an alias maps to the regex of
    the last entry that declares it. *)
Lemma compilePatterns_alias ps :
  forall (m m' : gmap string Regexp),
    compilePatterns ps m = Done (Ok m') ->
    forall alias,
      (exists j q re,
          ps !! j = Some q /\ alias ∈ Name q /\
          notRedeclaredAfter ps j alias /\
          regexp_Compile (Regex q) = Ok re /\ m' !! alias = Some re)
      \/ ((forall j q, ps !! j = Some q -> alias ∉ Name q) /\
          m' !! alias = m !! alias).
Proof.
  induction ps as [|p rest IH]; intros m m' Hc alias; cbn in Hc.
  - injection Hc as <-. right. split; [|done]. intros j q Hj. done.
  - destruct (regexp_Compile (Regex p)) as [re|e] eqn:Ere.
    2:{ by destruct (Name0 p). }
    destruct (IH _ _ Hc alias) as [(j & q & re' & Hj & Hin & Hnot & Hre & Hm)
                                  |[Hnone Hm]].
    + left. exists (S j), q, re'. repeat split; try done.
      by apply notRedeclaredAfter_cons.
    + rewrite registerNames_lookup in Hm.
      destruct (decide (alias ∈ Name p)) as [Hin|Hnot].
      * left. exists 0, p, re. repeat split; try done.
        intros [|k] q Hlt Hk; [lia|]. by apply (Hnone k).
      * right. split; [|done]. intros [|k] q Hk.
        -- by injection Hk as <-.
        -- by apply (Hnone k).
Qed.

Lemma compilePatterns_compiles ps :
  forall (m m' : gmap string Regexp),
    compilePatterns ps m = Done (Ok m') ->
    Forall (fun p => exists re, regexp_Compile (Regex p) = Ok re) ps.
Proof.
  induction ps as [|p rest IH]; intros m m' Hc; cbn in Hc; [constructor|].
  destruct (regexp_Compile (Regex p)) as [re|e] eqn:Ere.
  2:{ by destruct (Name0 p). }
  constructor; [by exists re|]. by eapply IH.
Qed.

Lemma NewKeyDetector_inv configData d :
  NewKeyDetector configData = Done (Ok d) ->
  json_Unmarshal configData = Ok (patterns d) /\
  compilePatterns (patterns d) ∅ = Done (Ok (compiled d)).
Proof.
  unfold NewKeyDetector. intros H.
  destruct (json_Unmarshal configData) as [ps|e]; [|done].
  destruct (compilePatterns ps ∅) as [[m|e]|msg] eqn:Ec; try done.
  injection H as <-. done.
Qed.

(** After the compile loop an alias declared at position [i] maps to the
    regex of the last entry that declares it. *)
Lemma compilePatterns_last ps (m : gmap string Regexp) i p alias :
  compilePatterns ps ∅ = Done (Ok m) ->
  ps !! i = Some p ->
  alias ∈ Name p ->
  exists j q re,
    i <= j /\ ps !! j = Some q /\ alias ∈ Name q /\
    notRedeclaredAfter ps j alias /\
    regexp_Compile (Regex q) = Ok re /\
    m !! alias = Some re.
Proof.
  intros Hc Hi Hin.
  destruct (compilePatterns_alias _ _ _ Hc alias)
    as [(j & q & re & Hj & Hinq & Hnot & Hre & Hm)|[Hnone _]].
  2:{ by specialize (Hnone _ _ Hi). }
  exists j, q, re. repeat split; try done.
  destruct (decide (i <= j)) as [|Hgt]; [done|].
  exfalso. apply (Hnot i p); [lia|done..].
Qed.

(** C3 (as amended).  In a table built by a successful load, looking up
    an alias of an entry yields the compiled pattern of the last entry of
    the configuration that declares this alias: an entry at the same or a
    later position.  It is the pattern of the owning entry whenever no
    later entry declares the alias again. *)
Theorem alias_lookup_last_declaration configData d i p alias :
  NewKeyDetector configData = Done (Ok d) ->
  patterns d !! i = Some p ->
  alias ∈ Name p ->
  exists j q re,
    i <= j /\ patterns d !! j = Some q /\ alias ∈ Name q /\
    notRedeclaredAfter (patterns d) j alias /\
    regexp_Compile (Regex q) = Ok re /\
    compiled d !! alias = Some re /\
    (notRedeclaredAfter (patterns d) i alias ->
     regexp_Compile (Regex p) = Ok re).
Proof.
  intros Hnew Hi Hin. apply NewKeyDetector_inv in Hnew as [_ Hc].
  destruct (compilePatterns_last _ _ _ _ _ Hc Hi Hin)
    as (j & q & re & Hle & Hj & Hinq & Hnot & Hre & Hm).
  exists j, q, re. repeat split; try done.
  intros Hlast. assert (j = i) as ->.
  { destruct (decide (j = i)) as [|Hne]; [done|].
    exfalso. apply (Hlast j q); [lia|done..]. }
  congruence.
Qed.

Lemma find_firstMatch ps key :
  (forall i p, ps !! i = Some p -> entryMatches p key = true ->
               (forall k q, k < i -> ps !! k = Some q ->
                            entryMatches q key = false) ->
               firstMatch ps key = canonical p) /\
  ((forall p, p ∈ ps -> entryMatches p key = false) ->
   firstMatch ps key = "").
Proof.
  unfold firstMatch. induction ps as [|x ps [IH1 IH2]]; cbn.
  - split; [by intros i p Hi|done].
  - split.
    + intros [|i] p Hi Hm Hfirst.
      * injection Hi as ->. by rewrite Hm.
      * rewrite (Hfirst 0 x ltac:(lia) eq_refl).
        apply (IH1 i); [done..|]. intros k q Hk Hq.
        apply (Hfirst (S k)); [lia|done].
    + intros Hnone. rewrite (Hnone x) by (by apply elem_of_cons; left).
      apply IH2. intros p Hp. apply Hnone. by apply elem_of_cons; right.
Qed.

(** The loop of [DetectService] on entries that are registered with their
    own regex. *)
Lemma detectIn_firstMatch (m : gmap string Regexp) ps key :
  Forall (fun p => exists re, regexp_Compile (Regex p) = Ok re /\
                              Name p <> [] /\
                              m !! canonical p = Some re) ps ->
  detectIn m ps key = Done (firstMatch ps key).
Proof.
  unfold firstMatch.
  induction 1 as [|p ps (re & Hre & Hname & Hm) _ IH]; cbn; [done|].
  unfold Name0, canonical, entryMatches in *.
  destruct (Name p) as [|name names] eqn:En; [done|].
  rewrite Hm, Hre. destruct (MatchString re key); [by rewrite En|exact IH].
Qed.

(** C2 (as amended).  For a table built by a successful load in which
    every entry has an alias and no later entry declares the canonical
    alias of an earlier one again, [DetectService] goes through the
    entries in the order of the configuration and returns the canonical
    alias of the first entry whose regex matches the key (unanchored);
    of two entries that both match, the earlier one wins; when no entry
    matches it returns the empty string. *)
Theorem detect_first_match configData d key :
  NewKeyDetector configData = Done (Ok d) ->
  Forall (fun p => Name p <> []) (patterns d) ->
  canonicalsNotRedeclared (patterns d) ->
  DetectService d key = Done (firstMatch (patterns d) key) /\
  (forall i p,
      patterns d !! i = Some p -> entryMatches p key = true ->
      (forall k q, k < i -> patterns d !! k = Some q ->
                   entryMatches q key = false) ->
      firstMatch (patterns d) key = canonical p) /\
  ((forall p, p ∈ patterns d -> entryMatches p key = false) ->
   firstMatch (patterns d) key = "").
Proof.
  intros Hnew Hnames Hcanon. split; [|apply find_firstMatch].
  unfold DetectService. apply detectIn_firstMatch.
  apply Forall_lookup. intros i p Hi.
  pose proof (Forall_lookup_1 _ _ _ _ Hnames Hi) as Hname. cbn beta in Hname.
  assert (canonical p ∈ Name p) as Hin.
  { unfold canonical. destruct (Name p); [congruence|]. by apply elem_of_cons; left. }
  pose proof Hnew as [_ Hc]%NewKeyDetector_inv.
  destruct (compilePatterns_last _ _ _ _ _ Hc Hi Hin)
    as (j & q & re & Hle & Hj & Hinq & _ & Hre & Hm).
  assert (j = i) as ->.
  { destruct (decide (j = i)) as [|Hne]; [done|].
    exfalso. apply (Hcanon i p Hi j q); [lia|done..]. }
  exists re. split; [congruence|done].
Qed.

End WithLib.
End DetectorProps.

Import GoStrings Detector Example.

(** Two entries declare the alias B: looked up, B gives the pattern of the
    second entry, not the one of the first, and the two patterns differ on the
    key x. *)
Lemma shared_alias_lookup :
  exists d p,
    NewKeyDetector sharedAlias = Done (Ok d) /\
    patterns d !! 0 = Some p /\ "B" ∈ Name p /\
    regexp_Compile (Regex p) = Ok "x" /\
    compiled d !! "B" = Some "y" /\
    @MatchString literalLib "x" "x" = true /\
    @MatchString literalLib "y" "x" = false.
Proof.
  eexists _, _. split; [reflexivity|].
  split; [reflexivity|]. split; [|repeat split; reflexivity].
  cbn. apply elem_of_cons; right. apply elem_of_cons; by left.
Qed.

(** Two entries with the same canonical alias A: the regex of the first
    matches the key x, yet [DetectService] finds no match. *)
Lemma shared_canonical_detect :
  exists d,
    NewKeyDetector sharedCanonical = Done (Ok d) /\
    DetectService d "x" = Done "" /\
    firstMatch (patterns d) "x" = "A".
Proof. eexists. split; [reflexivity|]. split; reflexivity. Qed.

(** C8.  A configuration with an entry that has no alias is accepted by
    [NewKeyDetector], the table breaks the entry invariant, and
    [DetectService] panics on it with an index out of range. *)
Lemma empty_alias_list_accepted :
  exists d,
    NewKeyDetector noAlias = Done (Ok d) /\
    ~ Forall entryInvariant (patterns d) /\
    DetectService d "a" = Panicked indexOutOfRange.
Proof.
  eexists. split; [reflexivity|]. split; [|reflexivity].
  intros H. apply Forall_cons in H as [[_ H] _]. by apply H.
Qed.

Module ServicesProps.
Import GoStrings Validator Services.

Section WithLibs.
Context `{rt : Runtime} `{net : !NetLib}.
Variable v : GoogleMapsValidator.
Variable ctx : Context.
Variable key : string.

Lemma checkEndpoint_unfold (result : ValidationResult) vuln w endpoint :
  checkEndpoint v ctx key (result, vuln, w) endpoint =
  match (validateEndpoint v ctx endpoint key w).1 with
  | Err err =>
      (set_Detail (URL endpoint) (DetailText ("Error: " ++ err)) result,
       vuln, (validateEndpoint v ctx endpoint key w).2)
  | Ok resp =>
      (set_Detail (URL endpoint)
         (DetailProbe (StatusCode resp) (VulnCheck endpoint resp))
         (if VulnCheck endpoint resp then set_Valid true result else result),
       if VulnCheck endpoint resp then (vuln ++ [URL endpoint])%list else vuln,
       (validateEndpoint v ctx endpoint key w).2)
  end.
Proof.
  unfold checkEndpoint.
  destruct (validateEndpoint v ctx endpoint key w) as [[resp|err] w']; simpl;
    [destruct (VulnCheck endpoint resp)|]; reflexivity.
Qed.

Lemma vulnerableIds_cons p ps :
  vulnerableIds (p :: ps) =
  ((if reportsVulnerable p then [URL p.1] else []) ++ vulnerableIds ps)%list.
Proof.
  unfold vulnerableIds. rewrite filter_cons.
  destruct (reportsVulnerable p) eqn:E.
  - rewrite decide_True by done. reflexivity.
  - rewrite decide_False by (rewrite ?E; congruence). reflexivity.
Qed.

Lemma probes_cons endpoint rest w :
  probes v ctx key (endpoint :: rest) w =
  (endpoint, (validateEndpoint v ctx endpoint key w).1)
    :: probes v ctx key rest (validateEndpoint v ctx endpoint key w).2.
Proof. simpl. destruct (validateEndpoint v ctx endpoint key w); reflexivity. Qed.

Lemma checkEndpoints_cons endpoint rest (st : LoopState) :
  checkEndpoints v ctx key (endpoint :: rest) st =
  checkEndpoints v ctx key rest (checkEndpoint v ctx key st endpoint).
Proof. reflexivity. Qed.

(** The loop over the endpoints, as a whole. *)
Lemma checkEndpoints_spec endpoints :
  forall (result : ValidationResult) vuln w,
    let st := checkEndpoints v ctx key endpoints (result, vuln, w) in
    let found := vulnerableIds (probes v ctx key endpoints w) in
    st.1.2 = (vuln ++ found)%list /\
    st.2 = worldAfter v ctx key endpoints w /\
    Valid st.1.1 = Valid result || negb (Nat.eqb (List.length found) 0) /\
    Service st.1.1 = Service result /\
    Error st.1.1 = Error result /\
    ErrorStr st.1.1 = ErrorStr result /\
    ValidatedAt st.1.1 = ValidatedAt result.
Proof.
  induction endpoints as [|endpoint rest IH]; intros result vuln w.
  - simpl. rewrite app_nil_r, orb_false_r. done.
  - cbn zeta. rewrite checkEndpoints_cons.
    rewrite checkEndpoint_unfold, probes_cons, vulnerableIds_cons.
    unfold reportsVulnerable. cbn [fst snd worldAfter].
    destruct (validateEndpoint v ctx endpoint key w) as [[resp|err] w'];
      cbn [fst snd].
    + destruct (IH (set_Detail (URL endpoint)
                      (DetailProbe (StatusCode resp) (VulnCheck endpoint resp))
                      (if VulnCheck endpoint resp then set_Valid true result
                       else result))
                   (if VulnCheck endpoint resp
                    then (vuln ++ [URL endpoint])%list else vuln) w')
        as (H1 & H2 & H3 & H4 & H5 & H6 & H7).
      rewrite H1, H2, H3, H4, H5, H6, H7.
      destruct (VulnCheck endpoint resp); cbn.
      * rewrite <- app_assoc. rewrite orb_true_r. done.
      * done.
    + destruct (IH (set_Detail (URL endpoint) (DetailText ("Error: " ++ err))
                      result) vuln w')
        as (H1 & H2 & H3 & H4 & H5 & H6 & H7).
      rewrite H1, H2, H3, H4, H5, H6, H7. done.
Qed.

Lemma checkEndpoint_details_other (st : LoopState) endpoint url :
  url <> URL endpoint ->
  Details (checkEndpoint v ctx key st endpoint).1.1 !! url = Details st.1.1 !! url.
Proof.
  intros Hne. destruct st as [[result vuln] w].
  rewrite checkEndpoint_unfold.
  destruct (validateEndpoint v ctx endpoint key w).1 as [resp|err]; cbn.
  - rewrite lookup_insert_ne by congruence.
    destruct (VulnCheck endpoint resp); reflexivity.
  - rewrite lookup_insert_ne by congruence. reflexivity.
Qed.

Lemma checkEndpoints_details_other endpoints :
  forall (st : LoopState) url,
    url ∉ URL <$> endpoints ->
    Details (checkEndpoints v ctx key endpoints st).1.1 !! url
    = Details st.1.1 !! url.
Proof.
  induction endpoints as [|endpoint rest IH]; intros st url Hnot; [done|].
  rewrite fmap_cons, not_elem_of_cons in Hnot. destruct Hnot as [Hne Hnot].
  rewrite checkEndpoints_cons, IH by done.
  by apply checkEndpoint_details_other.
Qed.

Lemma checkEndpoints_app pre post (st : LoopState) :
  checkEndpoints v ctx key (pre ++ post) st =
  checkEndpoints v ctx key post (checkEndpoints v ctx key pre st).
Proof. unfold checkEndpoints. apply foldl_app. Qed.

Lemma probes_app pre post w :
  probes v ctx key (pre ++ post) w =
  (probes v ctx key pre w
     ++ probes v ctx key post (worldAfter v ctx key pre w))%list.
Proof.
  revert w. induction pre as [|e pre IH]; intros w; [done|].
  rewrite <- app_comm_cons, !probes_cons, IH. reflexivity.
Qed.

Lemma vulnerableIds_app ps qs :
  vulnerableIds (ps ++ qs) = (vulnerableIds ps ++ vulnerableIds qs)%list.
Proof. unfold vulnerableIds. by rewrite filter_app, fmap_app. Qed.

Lemma vulnerableIds_length ps :
  List.length (vulnerableIds ps)
  = List.length (filter (fun p => reportsVulnerable p = true) ps).
Proof. unfold vulnerableIds. by rewrite length_fmap. Qed.

Lemma probes_length endpoints w :
  List.length (probes v ctx key endpoints w) = List.length endpoints.
Proof.
  revert w. induction endpoints as [|e rest IH]; intros w; [done|].
  rewrite probes_cons. cbn. by rewrite IH.
Qed.

(** What [Validate] returns, in terms of the loop. *)
Lemma ValidateOver_unfold endpoints w :
  let start :=
    {| Valid := false; Service := GetService v; Permissions := [];
       RiskLevel_ := ""; Details := ∅; Error := None; ErrorStr := "";
       ValidatedAt := time_Now w |} in
  let st := checkEndpoints v ctx key endpoints (start, [], w) in
  let result :=
    set_RiskLevel (assessRiskLevel v st.1.2) (set_Permissions st.1.2 st.1.1) in
  ValidateOver endpoints v ctx key w =
  (Ok (if negb (Valid result)
       then set_Error ErrInvalidKey
              "API key not vulnerable for any endpoints" result
       else result), st.2).
Proof.
  cbn zeta. unfold ValidateOver.
  destruct (checkEndpoints v ctx key endpoints _) as [[result vuln] w'].
  reflexivity.
Qed.

Lemma assessRiskLevel_count (l : list string) :
  assessRiskLevel v l = riskOfCount (List.length l).
Proof.
  unfold assessRiskLevel, riskOfCount.
  destruct l as [|? [|? [|? ?]]]; reflexivity.
Qed.

Lemma ValidateOver_fields endpoints w :
  exists verdict,
    ValidateOver endpoints v ctx key w
    = (Ok verdict, worldAfter v ctx key endpoints w) /\
    Permissions verdict = vulnerableIds (probes v ctx key endpoints w) /\
    Valid verdict = negb (Nat.eqb (List.length (Permissions verdict)) 0) /\
    RiskLevel_ verdict = riskOfCount (List.length (Permissions verdict)) /\
    Service verdict = GetService v /\
    ValidatedAt verdict = time_Now w /\
    Details verdict =
      Details (checkEndpoints v ctx key endpoints
                 ({| Valid := false; Service := GetService v;
                     Permissions := []; RiskLevel_ := ""; Details := ∅;
                     Error := None; ErrorStr := "";
                     ValidatedAt := time_Now w |}, [], w)).1.1.
Proof.
  pose proof (ValidateOver_unfold endpoints w) as HV. cbn zeta in HV.
  set (start := {| Valid := false; Service := GetService v;
                   Permissions := [] |}) in *.
  destruct (checkEndpoints_spec endpoints start [] w)
    as (H1 & H2 & H3 & H4 & H5 & H6 & H7).
  cbn zeta in *. rewrite app_nil_l in H1. cbn [Valid start orb] in H3.
  eexists. split; [rewrite HV; f_equal; exact H2|].
  rewrite <- H1 in H3.
  set (st := checkEndpoints v ctx key endpoints (start, [], w)) in *.
  destruct (Valid st.1.1) eqn:EV; cbn; rewrite ?EV; cbn;
    rewrite ?assessRiskLevel_count, ?H1, ?H4, ?H7; try rewrite <- H1;
    repeat split; try done; congruence.
Qed.

(** C1.  The endpoint fold law: when the validator has the N endpoints
    [endpoints] and M of them report a vulnerable response to their
    probe, [Validate] returns a verdict with [Valid] true exactly when
    M > 0, with [Permissions] the identifiers of the M vulnerable
    endpoints (so of length M), and with the risk level low for M = 0,
    medium for M = 1 or 2, high for M >= 3. *)
Theorem endpoint_fold_law (endpoints : list APIEndpoint) (w : World) :
  let ps := probes v ctx key endpoints w in
  let M := List.length (filter (fun p => reportsVulnerable p = true) ps) in
  exists verdict,
    (ValidateOver endpoints v ctx key w).1 = Ok verdict /\
    M <= List.length endpoints /\
    Valid verdict = (0 <? M)%nat /\
    Permissions verdict = vulnerableIds ps /\
    List.length (Permissions verdict) = M /\
    RiskLevel_ verdict =
      (if (M =? 0)%nat then RiskLevelLow
       else if (M <=? 2)%nat then RiskLevelMedium
       else RiskLevelHigh).
Proof.
  cbn zeta.
  destruct (ValidateOver_fields endpoints w)
    as (verdict & HV & HP & HValid & HRisk & _).
  exists verdict. rewrite HV. split; [done|].
  rewrite <- vulnerableIds_length, <- HP.
  split.
  { rewrite HP, vulnerableIds_length, <- (probes_length endpoints w).
    apply length_filter. }
  split.
  { rewrite HValid. by destruct (List.length (Permissions verdict)). }
  split; [done|]. split; [done|]. exact HRisk.
Qed.

Lemma checkEndpoint_details_mono (st : LoopState) endpoint url :
  is_Some (Details st.1.1 !! url) ->
  is_Some (Details (checkEndpoint v ctx key st endpoint).1.1 !! url).
Proof.
  intros Hsome. destruct st as [[result vuln] w].
  rewrite checkEndpoint_unfold.
  destruct (validateEndpoint v ctx endpoint key w).1 as [resp|err]; cbn;
    (destruct (decide (URL endpoint = url)) as [->|Hne];
     [rewrite lookup_insert_eq; eauto|rewrite lookup_insert_ne by done]).
  - by destruct (VulnCheck endpoint resp).
  - done.
Qed.

Lemma checkEndpoint_details_own (st : LoopState) endpoint :
  is_Some (Details (checkEndpoint v ctx key st endpoint).1.1 !! URL endpoint).
Proof.
  destruct st as [[result vuln] w]. rewrite checkEndpoint_unfold.
  destruct (validateEndpoint v ctx endpoint key w).1 as [resp|err]; cbn;
    rewrite lookup_insert_eq; eauto.
Qed.

Lemma checkEndpoints_details_mono endpoints :
  forall (st : LoopState) url,
    is_Some (Details st.1.1 !! url) ->
    is_Some (Details (checkEndpoints v ctx key endpoints st).1.1 !! url).
Proof.
  induction endpoints as [|endpoint rest IH]; intros st url Hsome; [done|].
  rewrite checkEndpoints_cons. apply IH. by apply checkEndpoint_details_mono.
Qed.

Lemma checkEndpoints_details_each endpoints :
  forall (st : LoopState) endpoint,
    endpoint ∈ endpoints ->
    is_Some (Details (checkEndpoints v ctx key endpoints st).1.1
               !! URL endpoint).
Proof.
  induction endpoints as [|e rest IH]; intros st endpoint Hin.
  - by apply elem_of_nil in Hin.
  - rewrite checkEndpoints_cons. apply elem_of_cons in Hin as [->|Hin].
    + apply checkEndpoints_details_mono, checkEndpoint_details_own.
    + by apply IH.
Qed.

Lemma validateEndpoint_requestFor endpoint w :
  validateEndpoint v ctx endpoint key w =
  match requestFor ctx endpoint key with
  | Err e => (Err e, w)
  | Ok req =>
      match client_Do (client v) req w with
      | (Err e, w') => (Err ("request failed: " ++ e), w')
      | (Ok resp, w') =>
          match resp_Body resp with
          | Err e => (Err ("failed to read response: " ++ e), w')
          | Ok content =>
              (Ok (json_UnmarshalInto content
                     {| StatusCode := resp_StatusCode resp;
                        Content := content; Status := "";
                        ErrorMessage := "" |}), w')
          end
      end
  end.
Proof.
  unfold validateEndpoint, requestFor.
  destruct (url_Parse (URL endpoint)); [|done].
  destruct (requestBody endpoint); [|done].
  by destruct (http_checkRequest _ _).
Qed.

(** A probe that fails leaves its error text in [Details]; the loop goes
    on with the endpoints after it, and [Validate] returns no error. *)
Lemma failed_probe_recorded pre endpoint post w err w1 :
  validateEndpoint v ctx endpoint key (worldAfter v ctx key pre w)
    = (Err err, w1) ->
  URL endpoint ∉ URL <$> post ->
  exists verdict,
    (ValidateOver (pre ++ endpoint :: post) v ctx key w).1 = Ok verdict /\
    Details verdict !! URL endpoint = Some (DetailText ("Error: " ++ err)) /\
    Permissions verdict =
      (vulnerableIds (probes v ctx key pre w)
         ++ vulnerableIds (probes v ctx key post w1))%list /\
    (forall later, later ∈ post -> is_Some (Details verdict !! URL later)).
Proof.
  intros Hfail Hfresh.
  destruct (ValidateOver_fields (pre ++ endpoint :: post) w)
    as (verdict & HV & HP & _ & _ & _ & _ & HD).
  exists verdict. rewrite HV. split; [done|].
  rewrite HD, HP. clear HD HP HV.
  rewrite checkEndpoints_app, checkEndpoints_cons.
  set (result0 := {| Valid := false; Service := GetService v |}).
  pose proof (checkEndpoints_spec pre result0 [] w) as (_ & Hw & _).
  cbn zeta in Hw.
  destruct (checkEndpoints v ctx key pre (result0, [], w))
    as [[result vuln] w0] eqn:Epre.
  cbn [snd] in Hw. subst w0.
  rewrite checkEndpoint_unfold, Hfail. cbn [fst snd].
  split; [|split].
  - rewrite checkEndpoints_details_other by done. cbn.
    by rewrite lookup_insert_eq.
  - rewrite probes_app, vulnerableIds_app, probes_cons, Hfail.
    cbn [fst snd]. rewrite vulnerableIds_cons. reflexivity.
  - intros later Hin. by apply checkEndpoints_details_each.
Qed.

(** C6.  When the probe of one endpoint fails with a transport error
    ([client.Do] returns the error [e]), the details of the verdict hold
    the text "Error: request failed: e" under the identifier of that
    endpoint, the loop goes on with the endpoints after it (their
    vulnerable ones are among the permissions and each has its entry in
    the details), and [Validate] returns no error. *)
Theorem transport_error_recorded pre endpoint post w req e w1 :
  requestFor ctx endpoint key = Ok req ->
  client_Do (client v) req (worldAfter v ctx key pre w) = (Err e, w1) ->
  URL endpoint ∉ URL <$> post ->
  exists verdict,
    (ValidateOver (pre ++ endpoint :: post) v ctx key w).1 = Ok verdict /\
    Details verdict !! URL endpoint
      = Some (DetailText ("Error: " ++ "request failed: " ++ e)) /\
    Permissions verdict =
      (vulnerableIds (probes v ctx key pre w)
         ++ vulnerableIds (probes v ctx key post w1))%list /\
    (forall later, later ∈ post -> is_Some (Details verdict !! URL later)).
Proof.
  intros Hreq Hdo Hfresh.
  apply failed_probe_recorded; [|done].
  by rewrite validateEndpoint_requestFor, Hreq, Hdo.
Qed.

(** An endpoint whose URL does not parse: [validateEndpoint] returns the
    error before any request is made. *)
Lemma validateEndpoint_malformed endpoint e w :
  url_Parse (URL endpoint) = Err e ->
  validateEndpoint v ctx endpoint key w
  = (Err ("invalid endpoint URL: " ++ e), w).
Proof. intros Hparse. unfold validateEndpoint. by rewrite Hparse. Qed.

Lemma checkEndpoint_malformed_own (st : LoopState) endpoint e :
  url_Parse (URL endpoint) = Err e ->
  Details (checkEndpoint v ctx key st endpoint).1.1 !! URL endpoint
  = Some (DetailText ("Error: " ++ "invalid endpoint URL: " ++ e)).
Proof.
  intros Hparse. destruct st as [[result vuln] w].
  rewrite checkEndpoint_unfold, (validateEndpoint_malformed _ _ _ Hparse).
  cbn. by rewrite lookup_insert_eq.
Qed.

(** An endpoint with the same URL fails in the same way, so the entry
    stays what it is. *)
Lemma checkEndpoint_malformed_kept (st : LoopState) endpoint url e :
  url_Parse url = Err e ->
  Details st.1.1 !! url
  = Some (DetailText ("Error: " ++ "invalid endpoint URL: " ++ e)) ->
  Details (checkEndpoint v ctx key st endpoint).1.1 !! url
  = Some (DetailText ("Error: " ++ "invalid endpoint URL: " ++ e)).
Proof.
  intros Hparse Hst. destruct (decide (url = URL endpoint)) as [->|Hne].
  - by apply checkEndpoint_malformed_own.
  - by rewrite checkEndpoint_details_other.
Qed.

Lemma checkEndpoints_malformed_kept endpoints :
  forall (st : LoopState) url e,
    url_Parse url = Err e ->
    Details st.1.1 !! url
    = Some (DetailText ("Error: " ++ "invalid endpoint URL: " ++ e)) ->
    Details (checkEndpoints v ctx key endpoints st).1.1 !! url
    = Some (DetailText ("Error: " ++ "invalid endpoint URL: " ++ e)).
Proof.
  induction endpoints as [|endpoint rest IH]; intros st url e Hparse Hst;
    [done|].
  rewrite checkEndpoints_cons. apply IH; [done|].
  by apply checkEndpoint_malformed_kept.
Qed.

Lemma checkEndpoints_malformed endpoints :
  forall (st : LoopState) endpoint e,
    endpoint ∈ endpoints ->
    url_Parse (URL endpoint) = Err e ->
    Details (checkEndpoints v ctx key endpoints st).1.1 !! URL endpoint
    = Some (DetailText ("Error: " ++ "invalid endpoint URL: " ++ e)).
Proof.
  induction endpoints as [|first rest IH]; intros st endpoint e Hin Hparse.
  - by apply elem_of_nil in Hin.
  - rewrite checkEndpoints_cons. apply elem_of_cons in Hin as [->|Hin].
    + apply checkEndpoints_malformed_kept; [done|].
      by apply checkEndpoint_malformed_own.
    + by apply IH.
Qed.

Lemma checkEndpoint_details_set (st : LoopState) endpoint :
  Details (checkEndpoint v ctx key st endpoint).1.1 !! URL endpoint
  = Some (detailOf (endpoint, (validateEndpoint v ctx endpoint key st.2).1)).
Proof.
  destruct st as [[result vuln] w]. rewrite checkEndpoint_unfold. cbn [snd].
  unfold detailOf.
  destruct (validateEndpoint v ctx endpoint key w).1 as [resp|err]; cbn;
    by rewrite lookup_insert_eq.
Qed.

Lemma checkEndpoint_world (st : LoopState) endpoint :
  (checkEndpoint v ctx key st endpoint).2 = (validateEndpoint v ctx endpoint key st.2).2.
Proof.
  destruct st as [[result vuln] w]. rewrite checkEndpoint_unfold. cbn [snd].
  by destruct (validateEndpoint v ctx endpoint key w).1.
Qed.

(** Every endpoint of the table has the entry of a probe of its URL (the
    last one, if several endpoints share the URL). *)
Lemma checkEndpoints_details_probe endpoints :
  forall (st : LoopState) endpoint,
    endpoint ∈ endpoints ->
    exists p,
      p ∈ probes v ctx key endpoints st.2 /\
      URL p.1 = URL endpoint /\
      Details (checkEndpoints v ctx key endpoints st).1.1 !! URL endpoint
      = Some (detailOf p).
Proof.
  induction endpoints as [|first rest IH]; intros st endpoint Hin.
  - by apply elem_of_nil in Hin.
  - rewrite checkEndpoints_cons, probes_cons.
    destruct (decide (URL endpoint ∈ URL <$> rest)) as [Hlater|Hfresh].
    + apply list_elem_of_fmap in Hlater as (later & Hurl & Hlater).
      destruct (IH (checkEndpoint v ctx key st first) later Hlater)
        as (p & Hp & Hpurl & Hd).
      rewrite checkEndpoint_world in Hp.
      exists p. split; [by apply elem_of_cons; right|].
      split; [congruence|]. by rewrite Hurl.
    + assert (endpoint = first) as ->.
      { apply elem_of_cons in Hin as [?|Hin]; [done|].
        exfalso. apply Hfresh. apply list_elem_of_fmap. by exists endpoint. }
      exists (first, (validateEndpoint v ctx first key st.2).1).
      split; [by apply elem_of_cons; left|]. split; [done|].
      rewrite checkEndpoints_details_other by done.
      apply checkEndpoint_details_set.
Qed.

(** C7 (as amended).  No failure of a probe is fatal, a malformed
    endpoint URL included.  [Validate] returns a verdict and no error in
    every world, and so does its loop over every table of endpoints.
    For every endpoint of the table whose URL does not parse,
    [validateEndpoint] returns the error "invalid endpoint URL: e"
    without a request, and the details of the verdict hold the text
    "Error: invalid endpoint URL: e" under the identifier of that
    endpoint.  That is the entry of any failed probe, a transport error
    included: the loop goes on, and every endpoint of the table has in
    the details the entry of a probe of its URL, which for a probe that
    failed with [err] is the text "Error: err". *)
Theorem malformed_url_recorded endpoints w :
  (exists verdict, (Validate v ctx key w).1 = Ok verdict) /\
  exists verdict,
    (ValidateOver endpoints v ctx key w).1 = Ok verdict /\
    (forall endpoint e,
        endpoint ∈ endpoints ->
        url_Parse (URL endpoint) = Err e ->
        (forall w', validateEndpoint v ctx endpoint key w'
                    = (Err ("invalid endpoint URL: " ++ e), w')) /\
        Details verdict !! URL endpoint
        = Some (DetailText ("Error: " ++ "invalid endpoint URL: " ++ e))) /\
    (forall endpoint,
        endpoint ∈ endpoints ->
        exists p,
          p ∈ probes v ctx key endpoints w /\
          URL p.1 = URL endpoint /\
          Details verdict !! URL endpoint = Some (detailOf p) /\
          (forall err, p.2 = Err err ->
                       detailOf p = DetailText ("Error: " ++ err))).
Proof.
  split.
  - destruct (ValidateOver_fields googleMapsEndpoints w) as (verdict & HV & _).
    exists verdict. unfold Validate. by rewrite HV.
  - destruct (ValidateOver_fields endpoints w)
      as (verdict & HV & _ & _ & _ & _ & _ & HD).
    exists verdict. rewrite HV. split; [done|]. rewrite HD. split.
    + intros endpoint e Hin Hparse. split.
      * intros w'. by apply validateEndpoint_malformed.
      * by apply checkEndpoints_malformed.
    + intros endpoint Hin.
      destruct (checkEndpoints_details_probe endpoints
                  ({| Valid := false; Service := GetService v;
                      Permissions := []; RiskLevel_ := ""; Details := ∅;
                      Error := None; ErrorStr := "";
                      ValidatedAt := time_Now w |}, [], w) endpoint Hin)
        as (p & Hp & Hurl & Hd).
      exists p. repeat split; try done.
      intros err Herr. unfold detailOf. by rewrite Herr.
Qed.

End WithLibs.
End ServicesProps.

Import GoStrings Validator Services Example.

(** A table with a malformed URL template: the table of the validator with
    [brokenEndpoint] put in front (every URL of the table itself parses).
    [url.Parse] refuses the URL of [brokenEndpoint], [validateEndpoint]
    returns the error, and the loop of [Validate] over the table returns a
    verdict, not an error. *)
Lemma malformed_url_not_fatal :
  Forall (fun endpoint => is_Ok (url_Parse (URL endpoint)) = true)
    googleMapsEndpoints /\
  url_Parse (URL brokenEndpoint)
    = Err ("parse "
             ++ String quote ("\x7fhttps://maps.example/"
             ++ String quote ": net/url: invalid control character in URL")) /\
  validateEndpoint (rt := scriptedRuntime) NewGoogleMapsValidator tt
    brokenEndpoint "KEY" quiet
    = (Err ("invalid endpoint URL: " ++ "parse "
              ++ String quote ("\x7fhttps://maps.example/"
              ++ String quote ": net/url: invalid control character in URL")),
       quiet) /\
  is_Ok (ValidateOver (rt := scriptedRuntime)
           (brokenEndpoint :: googleMapsEndpoints)
           NewGoogleMapsValidator tt "KEY" quiet).1
    = true.
Proof.
  split; [repeat constructor|]. repeat split; vm_compute; reflexivity.
Qed.

(** The same table: the verdict records the failure of the malformed
    endpoint and has an entry for Static Map, probed after it. *)
Lemma malformed_url_recorded_witness :
  exists verdict,
    (ValidateOver (rt := scriptedRuntime)
       (brokenEndpoint :: googleMapsEndpoints)
       NewGoogleMapsValidator tt "KEY" quiet).1 = Ok verdict /\
    Details verdict !! URL brokenEndpoint
      = Some (DetailText
                ("Error: " ++ "invalid endpoint URL: " ++ "parse "
                   ++ String quote ("\x7fhttps://maps.example/"
                   ++ String quote
                        ": net/url: invalid control character in URL"))) /\
    is_Some (Details verdict !! staticmap).
Proof.
  destruct (ServicesProps.malformed_url_recorded (rt := scriptedRuntime)
              NewGoogleMapsValidator tt "KEY"
              (brokenEndpoint :: googleMapsEndpoints) quiet)
    as (_ & verdict & HV & Hbad & Heach).
  exists verdict. split; [exact HV|]. split.
  - apply (Hbad brokenEndpoint); [apply list_elem_of_here|].
    vm_compute. reflexivity.
  - destruct (Heach (default brokenEndpoint (googleMapsEndpoints !! 0)))
      as (p & _ & _ & Hd & _).
    + apply elem_of_cons; right. apply list_elem_of_here.
    + exists (detailOf p). exact Hd.
Defined.

Module ParProps.
Import Validator.
Section S.
Context `{rt : Runtime}.
Variable vm : ValidationManager.
Variable ctx : Context.
Variable service : string.
Variable keys : list string.

Lemma total_insert f (pcs : list TaskPc) i a b :
  pcs !! i = Some a ->
  total f (<[i := b]> pcs) + f a = total f pcs + f b.
Proof.
  unfold total. revert i. induction pcs as [|x pcs IH]; intros [|i] H; try done.
  - csimpl in *. injection H as ->. lia.
  - csimpl in *. specialize (IH i H). lia.
Qed.

Lemma total_replicate f n pc : total f (replicate n pc) = n * f pc.
Proof. unfold total. induction n; csimpl; [done|]. rewrite IHn. lia. Qed.

Lemma total_pos f (pcs : list TaskPc) :
  0 < total f pcs -> exists i pc, pcs !! i = Some pc /\ 0 < f pc.
Proof.
  unfold total. induction pcs as [|x pcs IH]; csimpl; [lia|]. intros H.
  destruct (f x) eqn:E.
  - destruct IH as (i & pc & ? & ?); [lia|]. by exists (S i), pc.
  - exists 0, x. split; [done|lia].
Qed.

Lemma total_zero f (pcs : list TaskPc) i pc :
  total f pcs = 0 -> pcs !! i = Some pc -> f pc = 0.
Proof.
  unfold total. revert i. induction pcs as [|x pcs IH]; intros [|i] H0 H; try done.
  - csimpl in *. injection H as ->. lia.
  - csimpl in *. apply (IH i); [lia|done].
Qed.

Lemma initial_Inv : Inv vm ctx service keys (initial keys).
Proof.
  split; unfold mainOk, Validator.initial;
    cbn [tasks results produced semaphore wg main].
  - apply length_replicate.
  - apply length_replicate.
  - apply length_replicate.
  - by rewrite total_replicate, Nat.mul_0_r.
  - unfold semaphoreCapacity. lia.
  - by rewrite total_replicate, Nat.mul_0_r.
  - split; [lia|]. intros j pc H.
    apply lookup_replicate in H as [-> _]. split; [lia|done].
  - intros i pc H. apply lookup_replicate in H as [-> Hi].
    exists None, None. rewrite !lookup_replicate. by repeat split.
Qed.

Lemma total_ge f (pcs : list TaskPc) i a :
  pcs !! i = Some a -> f a <= total f pcs.
Proof.
  unfold total. revert i. induction pcs as [|x pcs IH]; intros [|i] H; try done.
  - csimpl in *. injection H as ->. lia.
  - csimpl in *. specialize (IH i H). lia.
Qed.

(** The goroutine of key [i] moves from [a] to [b]. *)
Lemma task_move_Inv s i a b sem' wg' rs' ps' :
  Inv vm ctx service keys s ->
  tasks s !! i = Some a ->
  a <> NotStarted -> a <> Finished -> b <> NotStarted ->
  sem' + holding a = semaphore s + holding b ->
  sem' <= semaphoreCapacity ->
  wg' + active a = wg s + active b ->
  List.length rs' = List.length (results s) ->
  List.length ps' = List.length (produced s) ->
  (forall j, j <> i -> rs' !! j = results s !! j /\ ps' !! j = produced s !! j) ->
  (forall res prod, results s !! i = Some res -> produced s !! i = Some prod ->
                    taskOk vm ctx service keys i a res prod ->
     exists res' prod', rs' !! i = Some res' /\ ps' !! i = Some prod' /\
                        taskOk vm ctx service keys i b res' prod') ->
  Inv vm ctx service keys {| main := main s; tasks := <[i := b]> (tasks s); semaphore := sem';
         wg := wg'; results := rs'; produced := ps' |}.
Proof.
  intros [] Hi Ha Ha' Hb Hsem Hcap Hwg Hrs Hps Hother Hown.
  pose proof (total_insert holding _ _ _ b Hi).
  pose proof (total_insert active _ _ _ b Hi).
  split; cbn [main tasks semaphore wg results produced].
  - by rewrite length_insert.
  - congruence.
  - congruence.
  - lia.
  - done.
  - lia.
  - unfold mainOk in *. cbn [main tasks].
    destruct (main s) as [k| |].
    + destruct inv_main0 as [Hk Hns]. split; [done|]. intros j pc Hj.
      apply list_lookup_insert_Some in Hj as [(-> & -> & _)|(Hne & Hj)].
      * specialize (Hns _ _ Hi). tauto.
      * by apply Hns.
    + intros j pc Hj.
      apply list_lookup_insert_Some in Hj as [(-> & -> & _)|(Hne & Hj)];
        [done|by eapply inv_main0].
    + by specialize (inv_main0 _ _ Hi).
  - intros j pc Hj.
    apply list_lookup_insert_Some in Hj as [(-> & -> & _)|(Hne & Hj)].
    + destruct (inv_task0 _ _ Hi) as (res & prod & Hr & Hp & Hok). eauto.
    + destruct (Hother j) as [-> ->]; [done|]. by apply inv_task0.
Qed.

Lemma exec_Inv ev s s' : Inv vm ctx service keys s -> exec vm ctx service keys ev s = Some s' -> Inv vm ctx service keys s'.
Proof.
  intros HI Hexec. pose proof HI as [].
  destruct ev as [| | |i|i w|i now|i|i]; cbn in Hexec.
  - (* EvSpawn *)
    destruct (main s) as [k| |] eqn:Em; try done.
    destruct (decide (k < List.length keys)) as [Hk|]; [|done].
    injection Hexec as <-.
    unfold mainOk in inv_main0. rewrite Em in inv_main0.
    destruct inv_main0 as [_ Hns].
    destruct (lookup_lt_is_Some_2 (tasks s) k) as [a Ha]; [lia|].
    assert (a = NotStarted) as -> by (apply (Hns _ _ Ha); lia).
    pose proof (total_insert holding _ _ _ Spawned Ha) as Hh.
    pose proof (total_insert active _ _ _ Spawned Ha) as Hact.
    cbn [holding active] in Hh, Hact.
    split; unfold mainOk;
      cbn [main tasks semaphore wg results produced set_main set_wg set_task]
        in *.
    + by rewrite length_insert.
    + done.
    + done.
    + lia.
    + done.
    + lia.
    + split; [lia|]. intros j pc Hj.
      apply list_lookup_insert_Some in Hj as [(-> & <- & _)|(Hne & Hj)].
      * split; [done|lia].
      * rewrite (Hns _ _ Hj). lia.
    + intros j pc Hj.
      apply list_lookup_insert_Some in Hj as [(-> & <- & _)|(Hne & Hj)].
      * destruct (inv_task0 _ _ Ha) as (res & prod & ? & ? & ?). eauto.
      * by apply inv_task0.
  - (* EvLoopExit *)
    destruct (main s) as [k| |] eqn:Em; try done.
    destruct (decide (k < List.length keys)) as [|Hk]; [done|].
    injection Hexec as <-.
    unfold mainOk in inv_main0. rewrite Em in inv_main0.
    destruct inv_main0 as [Hle Hns].
    split; unfold mainOk; cbn; try done.
    intros j pc Hj ->. pose proof (lookup_lt_Some _ _ _ Hj) as Hlt.
    assert (k <= j) by (by apply (Hns _ _ Hj)). lia.
  - (* EvReturn *)
    destruct (main s) eqn:Em; try done.
    destruct (wg s) eqn:Ew; [|done].
    injection Hexec as <-.
    unfold mainOk in inv_main0. rewrite Em in inv_main0.
    split; unfold mainOk; cbn [main tasks semaphore wg results produced set_main];
      try done; try congruence.
    intros j pc Hj. specialize (inv_main0 _ _ Hj).
    assert (active pc = 0) by (eapply total_zero; [|done]; congruence).
    by destruct pc.
  - (* EvAcquire *)
    destruct (tasks s !! i) as [[]|] eqn:Ei; try done.
    destruct (decide (semaphore s < semaphoreCapacity)); [|done].
    injection Hexec as <-.
    apply (task_move_Inv s i Spawned Acquired); cbn; try done; try lia.
    intros res prod Hr Hp Hok. eauto.
  - (* EvCall *)
    destruct (tasks s !! i) as [[]|] eqn:Ei; try done.
    destruct (keys !! i) as [apiKey|] eqn:Ek; [|done].
    injection Hexec as <-.
    apply (task_move_Inv s i Acquired (Called _)); cbn; try done; try lia.
    + by rewrite length_insert.
    + intros j Hne. by rewrite list_lookup_insert_ne.
    + intros res prod Hr Hp [-> ->]. eexists _, _.
      split; [done|]. split.
      * apply list_lookup_insert_eq. by eapply lookup_lt_Some.
      * repeat split. by exists apiKey, w.
  - (* EvStore *)
    destruct (tasks s !! i) as [[| | |r| | |]|] eqn:Ei; try done.
    injection Hexec as <-.
    apply (task_move_Inv s i (Called r) Stored); cbn; try done; try lia.
    + by rewrite length_insert.
    + intros j Hne. by rewrite list_lookup_insert_ne.
    + intros res prod Hr Hp (-> & -> & Hout). eexists _, _.
      split; [|split; [done|]].
      * apply list_lookup_insert_eq. by eapply lookup_lt_Some.
      * by exists r, now.
  - (* EvRelease *)
    destruct (tasks s !! i) as [[]|] eqn:Ei; try done.
    injection Hexec as <-.
    pose proof (total_ge holding _ _ _ Ei). cbn in *.
    apply (task_move_Inv s i Stored Released); cbn; try done; try lia.
    intros res prod Hr Hp Hok. eauto.
  - (* EvDone *)
    destruct (tasks s !! i) as [[]|] eqn:Ei; try done.
    injection Hexec as <-.
    pose proof (total_ge active _ _ _ Ei). cbn in *.
    apply (task_move_Inv s i Released Finished); cbn; try done; try lia.
    intros res prod Hr Hp Hok. eauto.
Qed.

Lemma execAll_Inv evs : forall s s', Inv vm ctx service keys s -> execAll vm ctx service keys evs s = Some s' -> Inv vm ctx service keys s'.
Proof.
  induction evs as [|ev evs IH]; intros s s' HI H; cbn in H.
  - by injection H as <-.
  - destruct (exec vm ctx service keys ev s) as [s1|] eqn:E; [|done].
    eapply IH; [|done]. by eapply exec_Inv.
Qed.

Lemma reachable_Inv evs s : execAll vm ctx service keys evs (initial keys) = Some s -> Inv vm ctx service keys s.
Proof. apply execAll_Inv, initial_Inv. Qed.

Lemma total_le f g (pcs : list TaskPc) :
  (forall pc, f pc <= g pc) -> total f pcs <= total g pcs.
Proof.
  intros Hfg. unfold total. induction pcs as [|x pcs IH]; csimpl; [done|].
  specialize (Hfg x). lia.
Qed.

(** No deadlock: as long as the call has not returned, some goroutine can
    move. *)
Lemma progress (w0 : World) s :
  Inv vm ctx service keys s -> main s <> Returned -> exists ev s', exec vm ctx service keys ev s = Some s'.
Proof.
  intros [] Hmain. unfold mainOk in inv_main0.
  destruct (main s) as [k| |] eqn:Em; [| |done].
  - destruct (decide (k < List.length keys)) as [Hk|Hk].
    + exists EvSpawn. cbn. rewrite Em. rewrite decide_True by done. eauto.
    + exists EvLoopExit. cbn. rewrite Em. rewrite decide_False by done. eauto.
  - destruct (wg s) as [|n] eqn:Ew.
    { exists EvReturn. cbn. rewrite Em, Ew. eauto. }
    destruct (total ready (tasks s)) as [|m] eqn:Eready.
    + destruct (total_pos active (tasks s)) as (i & pc & Hi & Hact); [lia|].
      pose proof (total_zero ready _ _ _ Eready Hi) as Hr.
      assert (pc = Spawned) as ->
        by (destruct pc; cbn in Hact, Hr; try done; lia).
      pose proof (total_le holding ready (tasks s)) as Hle.
      exists (EvAcquire i). cbn. rewrite Hi.
      rewrite decide_True; [eauto|].
      unfold semaphoreCapacity. rewrite inv_semaphore0.
      enough (total holding (tasks s) <= 0) by lia.
      rewrite <- Eready. apply Hle. intros []; cbn; lia.
    + destruct (total_pos ready (tasks s)) as (i & pc & Hi & Hr); [lia|].
      destruct pc; cbn in Hr; try lia.
      * destruct (lookup_lt_is_Some_2 keys i) as [apiKey Hk].
        { rewrite <- inv_tasks0. by eapply lookup_lt_Some. }
        exists (EvCall i w0). cbn. rewrite Hi, Hk. eauto.
      * exists (EvStore i w0). cbn. rewrite Hi. eauto.
      * exists (EvRelease i). cbn. rewrite Hi. eauto.
      * exists (EvDone i). cbn. rewrite Hi. eauto.
Qed.

(** Every move brings the call closer to its return. *)
Lemma exec_stepsLeft ev s s' :
  Inv vm ctx service keys s -> exec vm ctx service keys ev s = Some s' -> stepsLeft keys s' < stepsLeft keys s.
Proof.
  intros HI Hexec. unfold stepsLeft.
  destruct ev as [| | |i|i w|i now|i|i]; cbn in Hexec.
  - destruct (main s) as [k| |] eqn:Em; try done.
    destruct (decide (k < List.length keys)) as [Hk|]; [|done].
    injection Hexec as <-. cbn [main tasks set_main set_wg set_task mainRemaining].
    destruct HI as [? _ _ _ _ _ Hm _]. unfold mainOk in Hm.
    rewrite Em in Hm. destruct Hm as [_ Hns].
    destruct (lookup_lt_is_Some_2 (tasks s) k) as [a Ea]; [lia|].
    assert (a = NotStarted) as -> by (apply (Hns _ _ Ea); lia).
    pose proof (total_insert remaining _ _ _ Spawned Ea) as H.
    cbn [remaining] in H. unfold total in *. lia.
  - destruct (main s) as [k| |] eqn:Em; try done.
    destruct (decide (k < List.length keys)); [done|].
    injection Hexec as <-. cbn. rewrite ?Em. cbn. unfold total in *. lia.
  - destruct (main s) eqn:Em; try done. destruct (wg s); [|done].
    injection Hexec as <-. cbn. rewrite ?Em. cbn. unfold total in *. lia.
  - destruct (tasks s !! i) as [[]|] eqn:Ei; try done.
    destruct (decide (semaphore s < semaphoreCapacity)); [|done].
    injection Hexec as <-.
    pose proof (total_insert remaining _ _ _ Acquired Ei) as H. cbn in *. unfold total in *. lia.
  - destruct (tasks s !! i) as [[]|] eqn:Ei; try done.
    destruct (keys !! i); [|done]. injection Hexec as <-.
    pose proof (total_insert remaining _ _ _
                  (Called (ValidateKey vm ctx service s0 w).1) Ei) as H.
    cbn in *. unfold total in *. lia.
  - destruct (tasks s !! i) as [[| | |r| | |]|] eqn:Ei; try done.
    injection Hexec as <-.
    pose proof (total_insert remaining _ _ _ Stored Ei) as H. cbn in *. unfold total in *. lia.
  - destruct (tasks s !! i) as [[]|] eqn:Ei; try done.
    injection Hexec as <-.
    pose proof (total_insert remaining _ _ _ Released Ei) as H. cbn in *. unfold total in *. lia.
  - destruct (tasks s !! i) as [[]|] eqn:Ei; try done.
    injection Hexec as <-.
    pose proof (total_insert remaining _ _ _ Finished Ei) as H. cbn in *. unfold total in *. lia.
Qed.

Lemma execAll_app evs1 evs2 s :
  execAll vm ctx service keys (evs1 ++ evs2) s =
  match execAll vm ctx service keys evs1 s with
  | Some s1 => execAll vm ctx service keys evs2 s1
  | None => None
  end.
Proof.
  revert s. induction evs1 as [|ev evs1 IH]; intros s; [done|].
  cbn. destruct (exec vm ctx service keys ev s); [apply IH|done].
Qed.

(** Every schedule is finite: no more than [stepsLeft] moves. *)
Lemma execAll_bounded evs :
  forall s s', Inv vm ctx service keys s -> execAll vm ctx service keys evs s = Some s' ->
               List.length evs + stepsLeft keys s' <= stepsLeft keys s.
Proof.
  induction evs as [|ev evs IH]; intros s s' HI H; cbn in H.
  - injection H as <-. cbn. lia.
  - destruct (exec vm ctx service keys ev s) as [s1|] eqn:E; [|done].
    pose proof (exec_stepsLeft _ _ _ HI E).
    apply IH in H; [|by eapply exec_Inv]. cbn. lia.
Qed.

(** From every state on the way the call can be brought to its return. *)
Lemma completion (w0 : World) fuel :
  forall s, Inv vm ctx service keys s -> stepsLeft keys s <= fuel ->
            exists evs s', execAll vm ctx service keys evs s = Some s' /\ main s' = Returned.
Proof.
  induction fuel as [|fuel IH]; intros s HI Hfuel.
  - destruct (main s) eqn:Em; unfold stepsLeft in Hfuel;
      rewrite Em in Hfuel; cbn in Hfuel; try lia.
    by exists [], s.
  - assert (main s = Returned \/ main s <> Returned) as [Hret|Hmain]
      by (destruct (main s); auto).
    { by exists [], s. }
    destruct (progress w0 s HI Hmain) as (ev & s1 & Hexec).
    destruct (IH s1) as (evs & s' & Hrun & Hret).
    { by eapply exec_Inv. }
    { pose proof (exec_stepsLeft _ _ _ HI Hexec). lia. }
    exists (ev :: evs), s'. cbn. by rewrite Hexec.
Qed.

Lemma inFlight_le_holding (pcs : list TaskPc) :
  List.length (filter (fun pc => inCall pc = true) pcs) <= total holding pcs.
Proof.
  unfold total. induction pcs as [|pc pcs IH]; [done|].
  rewrite filter_cons. csimpl.
  destruct pc; cbn; try (rewrite decide_False by done; lia).
  rewrite decide_True by done. cbn. lia.
Qed.

(** What the slots hold once the call has returned. *)
Lemma returned_slots s i apiKey :
  Inv vm ctx service keys s -> main s = Returned -> keys !! i = Some apiKey ->
  tasks s !! i = Some Finished /\
  exists r w now,
    produced s !! i = Some (Some r) /\
    r = (ValidateKey vm ctx service apiKey w).1 /\
    results s !! i = Some (Some (slotValue service r now)).
Proof.
  intros [] Hret Hkey. unfold mainOk in inv_main0. rewrite Hret in inv_main0.
  destruct (lookup_lt_is_Some_2 (tasks s) i) as [pc Hpc].
  { rewrite inv_tasks0. by eapply lookup_lt_Some. }
  pose proof (inv_main0 _ _ Hpc) as ->. split; [done|].
  destruct (inv_task0 _ _ Hpc) as (res & prod & Hr & Hp & Hok).
  destruct Hok as (r & now & -> & (apiKey' & w & Hkey' & ->) & ->).
  rewrite Hkey in Hkey'. injection Hkey' as <-.
  by exists (ValidateKey vm ctx service apiKey w).1, w, now.
Qed.

(** C4.  Whatever the schedule of the goroutines: once
    [ValidateKeysParallel] has returned, the results are as many as the
    keys, and the slot at position [i] holds the verdict made from what
    [ValidateKey] returned for the key at position [i].  Every run can be
    continued to the return. *)
Theorem ValidateKeysParallel_positional (w0 : World) evs s :
  execAll vm ctx service keys evs (initial keys) = Some s ->
  (exists rest s', execAll vm ctx service keys (evs ++ rest) (initial keys) = Some s' /\
                   main s' = Returned) /\
  (main s = Returned ->
   List.length (results s) = List.length keys /\
   forall i apiKey,
     keys !! i = Some apiKey ->
     exists r w now,
       produced s !! i = Some (Some r) /\
       r = (ValidateKey vm ctx service apiKey w).1 /\
       results s !! i = Some (Some (slotValue service r now))).
Proof.
  intros Hrun. pose proof (reachable_Inv _ _ Hrun) as HI. split.
  - destruct (completion w0 (stepsLeft keys s) s HI) as (rest & s' & Hrest & Hret);
      [done|].
    exists rest, s'. by rewrite execAll_app, Hrun.
  - intros Hret. split; [by destruct HI|].
    intros i apiKey Hkey. by apply returned_slots.
Qed.

(** C5.  When [ValidateKeysParallel] has returned, every goroutine has
    finished (there is no early exit); the slot of a key whose validation
    failed with [err] holds a verdict with [Valid = false] and the error
    recorded; the slot of a key whose validation succeeded holds its
    verdict, whatever happened to the other keys; and with no validator
    registered for the service every key has failed with that error. *)
Theorem ValidateKeysParallel_failure_isolated evs s :
  execAll vm ctx service keys evs (initial keys) = Some s ->
  main s = Returned ->
  (forall i, i < List.length keys -> tasks s !! i = Some Finished) /\
  (forall i err,
     produced s !! i = Some (Some (Err err)) ->
     exists verdict,
       results s !! i = Some (Some verdict) /\
       Valid verdict = false /\ Service verdict = service /\
       Error verdict = Some err /\ ErrorStr verdict = err) /\
  (forall j verdict,
     produced s !! j = Some (Some (Ok verdict)) ->
     results s !! j = Some (Some verdict)) /\
  (GetValidator vm service = None ->
   forall i, i < List.length keys ->
     produced s !! i
     = Some (Some (Err ("no validator found for service: " ++ service)))).
Proof.
  intros Hrun Hret. pose proof (reachable_Inv _ _ Hrun) as HI.
  assert (Hslot : forall i, i < List.length keys ->
            exists apiKey, keys !! i = Some apiKey).
  { intros i Hi. by apply lookup_lt_is_Some_2. }
  assert (Hlt : forall i x, produced s !! i = Some x -> i < List.length keys).
  { intros i x Hp. destruct HI. rewrite <- inv_produced0.
    by eapply lookup_lt_Some. }
  split; [|split; [|split]].
  - intros i Hi. destruct (Hslot i Hi) as [apiKey Hkey].
    by destruct (returned_slots s i apiKey HI Hret Hkey).
  - intros i err Hp. destruct (Hslot i (Hlt _ _ Hp)) as [apiKey Hkey].
    destruct (returned_slots s i apiKey HI Hret Hkey)
      as (_ & r & w & now & Hp' & _ & Hres).
    rewrite Hp in Hp'. injection Hp' as <-.
    eexists. split; [exact Hres|]. done.
  - intros j verdict Hp. destruct (Hslot j (Hlt _ _ Hp)) as [apiKey Hkey].
    destruct (returned_slots s j apiKey HI Hret Hkey)
      as (_ & r & w & now & Hp' & _ & Hres).
    rewrite Hp in Hp'. injection Hp' as <-. exact Hres.
  - intros Hnone i Hi. destruct (Hslot i Hi) as [apiKey Hkey].
    destruct (returned_slots s i apiKey HI Hret Hkey)
      as (_ & r & w & now & Hp' & -> & _).
    rewrite Hp'. unfold ValidateKey. by rewrite Hnone.
Qed.

(** C10.  In every state a run of [ValidateKeysParallel] passes through,
    at most 5 calls of [ValidateKey] are in flight, however many keys
    there are. *)
Theorem ValidateKeysParallel_bounded evs s :
  execAll vm ctx service keys evs (initial keys) = Some s ->
  inFlight s <= 5.
Proof.
  intros Hrun. destruct (reachable_Inv _ _ Hrun).
  unfold inFlight.
  etransitivity; [apply inFlight_le_holding|].
  rewrite <- inv_semaphore0. exact inv_capacity0.
Qed.

End S.
End ParProps.

Import Validator Example.

Lemma ValidateKeysParallel_positional_witness :
  exists s,
    execAll (rt := scriptedRuntime) pickyManager tt "picky" ["a"; "bad"; "c"]
      lastFirst (initial ["a"; "bad"; "c"]) = Some s /\
    List.length (results s) = 3.
Proof.
  eexists. split; [vm_compute; reflexivity|].
  eapply (ParProps.ValidateKeysParallel_positional (rt := scriptedRuntime)
            pickyManager tt "picky" ["a"; "bad"; "c"] quiet lastFirst).
  - vm_compute. reflexivity.
  - reflexivity.
Defined.

Module Witnesses.
Import GoStrings Example.

(** Two overlapping patterns: the earlier entry wins. *)
Lemma detect_first_match_witness :
  exists d,
    Detector.NewKeyDetector twoServices = Done (Ok d) /\
    Detector.DetectService d "xy"
      = Done (Detector.firstMatch (Detector.patterns d) "xy") /\
    Detector.firstMatch (Detector.patterns d) "xy" = "A".
Proof.
  eexists. split; [reflexivity|].
  split; [|reflexivity].
  apply (DetectorProps.detect_first_match twoServices).
  - reflexivity.
  - repeat constructor; discriminate.
  - intros [|[|i]] p Hi [|[|j]] q Hlt Hj; try lia; try discriminate.
    injection Hi as <-. injection Hj as <-. cbn.
    rewrite list_elem_of_singleton. discriminate.
Defined.

(** The alias B of the first entry is looked up: the regex is the one of
    the second entry, the last that declares B. *)
Lemma alias_lookup_last_declaration_witness :
  exists d j q re,
    Detector.NewKeyDetector sharedAlias = Done (Ok d) /\
    0 <= j /\ Detector.patterns d !! j = Some q /\
    Detector.regexp_Compile (Detector.Regex q) = Ok re /\
    Detector.compiled d !! "B" = Some re.
Proof.
  destruct (DetectorProps.alias_lookup_last_declaration sharedAlias
              sharedAliasDetector 0
              {| Detector.Name := ["A"; "B"]; Detector.Regex := "x" |} "B")
    as (j & q & re & Hle & Hj & _ & _ & Hre & Hm & _).
  - reflexivity.
  - reflexivity.
  - apply elem_of_cons; right. apply elem_of_cons; by left.
  - exists sharedAliasDetector, j, q, re. split; [reflexivity|]. auto.
Defined.

Lemma blank_single_key :
  Input.supply (Input.NewParser false) (Input.SingleKey "   ") = Ok [""].
Proof. reflexivity. Qed.

Lemma supplied_keys_witness :
  Input.supply (Input.NewParser false) (Input.StdinPipe pipedKeys)
    = Ok ["key-1"; "key-2"; "key-3"] /\
  NoDup ["key-1"; "key-2"; "key-3"].
Proof.
  split; [vm_compute; reflexivity|].
  destruct (InputProps.supplied_keys (Input.NewParser false)
              (Input.StdinPipe pipedKeys) ["key-1"; "key-2"; "key-3"])
    as (texts & _ & _ & Hnodup & _).
  - vm_compute. reflexivity.
  - exact Hnodup.
Defined.

Lemma transport_error_recorded_witness :
  exists verdict,
    (Services.ValidateOver (rt := scriptedRuntime)
       (beforeStreetview ++ streetviewEndpoint :: afterStreetview)
       Services.NewGoogleMapsValidator tt "KEY" streetviewDown).1 = Ok verdict /\
    Validator.Details verdict !! streetview
      = Some (Validator.DetailText
                ("Error: " ++ "request failed: " ++ "dial tcp: connection refused")).
Proof.
  edestruct (ServicesProps.transport_error_recorded (rt := scriptedRuntime)
               Services.NewGoogleMapsValidator tt "KEY"
               beforeStreetview streetviewEndpoint afterStreetview
               streetviewDown)
    as (verdict & HV & HD & _).
  - reflexivity.
  - reflexivity.
  - cbn. rewrite !not_elem_of_cons.
    repeat split; try discriminate. apply not_elem_of_nil.
  - exists verdict. split; [exact HV|exact HD].
Defined.

Lemma ValidateKeysParallel_failure_isolated_witness :
  exists s,
    Validator.execAll (rt := scriptedRuntime) pickyManager tt "picky"
      ["a"; "bad"; "c"] lastFirst (Validator.initial ["a"; "bad"; "c"])
      = Some s /\
    forall i, i < 3 -> Validator.tasks s !! i = Some Validator.Finished.
Proof.
  eexists. split; [vm_compute; reflexivity|].
  eapply (ParProps.ValidateKeysParallel_failure_isolated (rt := scriptedRuntime)
            pickyManager tt "picky" ["a"; "bad"; "c"] lastFirst).
  - vm_compute. reflexivity.
  - reflexivity.
Defined.

Lemma ValidateKeysParallel_bounded_witness :
  exists s,
    Validator.execAll (rt := scriptedRuntime) pickyManager tt "picky" sixKeys
      fiveAcquired (Validator.initial sixKeys) = Some s /\
    Validator.inFlight s <= 5.
Proof.
  eexists. split; [vm_compute; reflexivity|].
  eapply (ParProps.ValidateKeysParallel_bounded (rt := scriptedRuntime)
            pickyManager tt "picky" sixKeys fiveAcquired).
  vm_compute. reflexivity.
Defined.

(** With five validations in flight the sixth goroutine cannot pass the
    semaphore. *)
Lemma sixth_acquire_blocks :
  Validator.execAll (rt := scriptedRuntime) pickyManager tt "picky" sixKeys
    (fiveAcquired ++ [Validator.EvAcquire 5]) (Validator.initial sixKeys)
  = None.
Proof. vm_compute. reflexivity. Qed.

End Witnesses.

(** * More properties of the code *)

Module InputMore.
Import GoStrings Input GoStringsProps InputProps.

Lemma scanKeys_app_singleton tokens text :
  scanKeys (tokens ++ [text]) = (scanKey (foldl scanKey (∅, []) tokens) text).2.
Proof. unfold scanKeys. by rewrite foldl_app. Qed.

Lemma scanKeys_snoc tokens text :
  scanKeys (tokens ++ [text]) =
  if decide (TrimSpace text = "" \/ TrimSpace text ∈ TrimSpace <$> tokens)
  then scanKeys tokens
  else (scanKeys tokens ++ [TrimSpace text])%list.
Proof.
  rewrite scanKeys_app_singleton. unfold scanKeys.
  destruct (scanKeys_scanned tokens) as [Hseen _ _ Helems _].
  destruct (foldl scanKey (∅, []) tokens) as [seen keys]. cbn [fst snd] in *.
  unfold scanKey. set (key := TrimSpace text).
  destruct (String.eqb key "") eqn:Eempty; cbn [negb andb].
  { apply String.eqb_eq in Eempty. rewrite decide_True by auto. done. }
  apply String.eqb_neq in Eempty.
  destruct (seen_at seen key) eqn:Eseen; cbn [negb snd].
  - apply Hseen, Helems in Eseen as [_ Hin]. rewrite decide_True by auto. done.
  - rewrite decide_False; [done|]. intros [?|Hin]; [done|].
    assert (key ∈ keys) as Hk by (by apply Helems).
    apply Hseen in Hk. congruence.
Qed.

Lemma fmap_TrimSpace_id keys : Forall trimmed keys -> TrimSpace <$> keys = keys.
Proof.
  induction 1 as [|k keys Hk _ IH]; [done|].
  rewrite fmap_cons, IH, TrimSpace_id by done. done.
Qed.

Lemma scanKeys_fixed keys :
  Forall trimmed keys -> Forall (fun k => k <> "") keys -> NoDup keys ->
  scanKeys keys = keys.
Proof.
  induction keys as [|k keys IH] using rev_ind; intros Ht Hne Hnd; [done|].
  apply Forall_app in Ht as [Ht Hk]. apply Forall_app in Hne as [Hne Hkne].
  apply NoDup_app in Hnd as (Hnd & Hfresh & _).
  rewrite scanKeys_snoc, IH by done.
  apply Forall_inv in Hk. apply Forall_inv in Hkne.
  rewrite fmap_TrimSpace_id, TrimSpace_id by done.
  rewrite decide_False; [done|]. intros [?|Hin]; [done|].
  apply (Hfresh k Hin). by apply list_elem_of_singleton.
Qed.

(** X1.  Scanning a concatenation of lines gives the keys of the first part
    followed by the keys of the second part that the first part does not
    have: the deduplication of the loop works across any split of the input. *)
Theorem scanKeys_app tokens more :
  scanKeys (tokens ++ more) =
  (scanKeys tokens ++ filter (fun k => k ∉ scanKeys tokens) (scanKeys more))%list.
Proof.
  destruct (scanKeys_scanned tokens) as [_ _ _ Helems _].
  induction more as [|text more IH] using rev_ind.
  - by rewrite !app_nil_r.
  - rewrite app_assoc, !scanKeys_snoc, IH, fmap_app.
    set (key := TrimSpace text).
    destruct (decide (key = "")) as [Hempty|Hne].
    { rewrite !decide_True by auto. done. }
    destruct (decide (key ∈ TrimSpace <$> more)) as [Hmore|Hmore].
    { rewrite !decide_True; [done|auto|]. right. apply elem_of_app. auto. }
    rewrite (decide_False (P := key = "" \/ key ∈ TrimSpace <$> more)) by tauto.
    rewrite filter_app, filter_cons, filter_nil.
    destruct (decide (key ∈ TrimSpace <$> tokens)) as [Htok|Htok].
    + rewrite decide_True by (right; apply elem_of_app; auto).
      rewrite decide_False; [by rewrite app_nil_r|].
      intros Hnot. apply Hnot. by apply Helems.
    + rewrite decide_False.
      2:{ intros [?|[?|?]%elem_of_app]; done. }
      rewrite decide_True; [by rewrite app_assoc|].
      intros Hin. by apply Helems in Hin as [_ ?].
Qed.

(** X2.  The scanning loop run on its own output returns it unchanged: the
    keys it returns are trimmed, non-empty and distinct, so a second pass
    removes nothing. *)
Theorem scanKeys_idempotent tokens : scanKeys (scanKeys tokens) = scanKeys tokens.
Proof.
  destruct (scanKeys_scanned tokens) as [_ Hnd Ht Helems _].
  apply scanKeys_fixed; [done| |done].
  apply Forall_forall. intros k Hk. by apply Helems in Hk as [? _].
Qed.

Lemma scanTokens_ok raw :
  Forall short raw -> scanTokens raw = (dropCR <$> raw, None).
Proof.
  induction 1 as [|line raw Hline _ IH]; [done|]. cbn.
  unfold short in Hline. apply N.leb_gt in Hline. rewrite Hline, IH. done.
Qed.

Lemma scanTokens_long raw :
  ~ Forall short raw -> (scanTokens raw).2 = Some ErrTooLong.
Proof.
  induction raw as [|line raw IH]; intros Hnot.
  - exfalso. apply Hnot. constructor.
  - cbn. destruct (N.leb MaxScanTokenSize (N.of_nat (String.length line))) eqn:E.
    + done.
    + destruct (scanTokens raw) as [tokens err] eqn:Er. cbn. apply IH.
      intros Hall. apply Hnot. constructor; [|done]. by apply N.leb_gt.
Qed.

Lemma Forall_short_dec raw : Forall short raw \/ ~ Forall short raw.
Proof.
  induction raw as [|line raw [IH|IH]].
  - left. constructor.
  - destruct (N.ltb_spec (N.of_nat (String.length line)) MaxScanTokenSize).
    + left. by constructor.
    + right. intros [Hl _]%Forall_cons. unfold short in Hl. lia.
  - right. intros [_ ?]%Forall_cons. done.
Qed.

(** X3.  FromStdin succeeds exactly when no line reaches the scanner's token
    limit and the reader reports no error, and then returns the deduplicated
    trimmed lines; a line at or over the limit gives the error 'error
    reading from stdin: bufio.Scanner: token too long', and a read error e
    gives 'error reading from stdin: e'. In both failure cases no keys are
    returned. *)
Theorem FromStdin_outcome p stdin :
  let raw := rawLines (stream_data stdin) in
  (Forall short raw -> stream_err stdin = None ->
   FromStdin p stdin = Ok (scanKeys (dropCR <$> raw))) /\
  (~ Forall short raw ->
   FromStdin p stdin = Err ("error reading from stdin: " ++ ErrTooLong)) /\
  (forall e, Forall short raw -> stream_err stdin = Some e ->
             FromStdin p stdin = Err ("error reading from stdin: " ++ e)).
Proof.
  cbn zeta. unfold FromStdin, Scanner_run. repeat split.
  - intros Hshort Herr. rewrite (scanTokens_ok _ Hshort), Herr. done.
  - intros Hlong. pose proof (scanTokens_long _ Hlong) as H.
    destruct (scanTokens _) as [tokens err]. cbn in H. by subst.
  - intros e Hshort Herr. rewrite (scanTokens_ok _ Hshort), Herr. done.
Qed.

End InputMore.

Module DetectorMore.
Import Detector DetectorProps.

Section WithLib.
Context `{lib : DetectorLib}.

Lemma ValidatePattern_None pattern :
  ValidatePattern pattern = None <->
  entryInvariant pattern /\ Regex pattern <> "".
Proof.
  unfold ValidatePattern, entryInvariant.
  destruct (Name pattern) as [|name names]; cbn.
  { split; [done|]. by intros [[_ ?] _]. }
  destruct (String.eqb (Regex pattern) "") eqn:E.
  { apply String.eqb_eq in E. split; [done|]. by intros [_ ?]. }
  apply String.eqb_neq in E.
  destruct (regexp_Compile (Regex pattern)) as [re|e].
  - split; [|done]. intros _. split; [|done]. split; [by exists re|done].
  - split; [done|]. by intros [[[re ?] _] _].
Qed.

Lemma compilePatterns_ok ps :
  Forall (fun p => exists re, regexp_Compile (Regex p) = Ok re) ps ->
  forall m : gmap string Regexp, exists m', compilePatterns ps m = Done (Ok m').
Proof.
  induction 1 as [|p ps [re Hre] _ IH]; intros m; cbn; [by exists m|].
  rewrite Hre. apply IH.
Qed.

Lemma detectIn_returns (m : gmap string Regexp) ps key :
  Forall (fun p => Name p <> [] /\ is_Some (m !! canonical p)) ps ->
  exists r, detectIn m ps key = Done r.
Proof.
  induction 1 as [|p ps [Hname [re Hre]] _ [r IH]]; cbn; [by exists ""|].
  unfold Name0, canonical in *. destruct (Name p) as [|name names]; [done|].
  rewrite Hre. destruct (MatchString re key); eauto.
Qed.

Lemma loaded_alias_registered ps (m : gmap string Regexp) p :
  compilePatterns ps ∅ = Done (Ok m) -> p ∈ ps -> Name p <> [] ->
  is_Some (m !! canonical p).
Proof.
  intros Hc [i Hi]%list_elem_of_lookup_1 Hname.
  destruct (compilePatterns_last ps m i p (canonical p) Hc Hi)
    as (j & q & re & _ & _ & _ & _ & _ & Hm); [|by exists re].
  unfold canonical. destruct (Name p); [done|]. by apply elem_of_cons; left.
Qed.

(** X5.  If every entry of a decoded configuration passes ValidatePattern,
    then NewKeyDetector loads the configuration without error, keeps the
    entries in their order, every entry satisfies the entry invariant, and
    DetectService returns (never panics) on every key. *)
Theorem validated_config_loads configData ps :
  json_Unmarshal configData = Ok ps ->
  Forall (fun p => ValidatePattern p = None) ps ->
  exists d,
    NewKeyDetector configData = Done (Ok d) /\
    patterns d = ps /\
    Forall entryInvariant ps /\
    forall key, exists service, DetectService d key = Done service.
Proof.
  intros Hjson Hvalid.
  assert (Hinv : Forall entryInvariant ps).
  { eapply Forall_impl; [exact Hvalid|]. intros p Hp. by apply ValidatePattern_None in Hp as [? _]. }
  destruct (compilePatterns_ok ps) with (m := (∅ : gmap string Regexp)) as [m Hm].
  { eapply Forall_impl; [exact Hinv|]. by intros p [? _]. }
  exists {| patterns := ps; compiled := m; verbose := false |}.
  split; [|split; [done|split; [done|]]].
  - unfold NewKeyDetector. by rewrite Hjson, Hm.
  - intros key. unfold DetectService. cbn. apply detectIn_returns.
    apply Forall_forall. intros p Hp.
    pose proof (proj1 (Forall_forall _ _) Hinv p Hp) as [_ Hname].
    split; [done|]. by eapply loaded_alias_registered.
Qed.

(** X6.  When the entries before some entry compile and that entry's regex
    does not, NewKeyDetector fails with 'invalid regex pattern for <first
    alias of that entry>: <compile error>', or panics with an index out of
    range if that entry has no alias; later entries are not looked at. *)
Theorem first_bad_regex_reported configData before pattern after e :
  json_Unmarshal configData = Ok (before ++ pattern :: after)%list ->
  Forall (fun p => exists re, regexp_Compile (Regex p) = Ok re) before ->
  regexp_Compile (Regex pattern) = Err e ->
  NewKeyDetector configData =
  match Name pattern with
  | [] => Panicked indexOutOfRange
  | name :: _ => Done (Err ("invalid regex pattern for " ++ name ++ ": " ++ e))
  end.
Proof.
  intros Hjson Hbefore Hbad. unfold NewKeyDetector. rewrite Hjson.
  assert (forall m : gmap string Regexp,
             compilePatterns (before ++ pattern :: after)%list m =
             match Name pattern with
             | [] => Panicked indexOutOfRange
             | name :: _ =>
                 Done (Err ("invalid regex pattern for " ++ name ++ ": " ++ e))
             end) as ->.
  { clear Hjson. induction Hbefore as [|p ps [re Hre] _ IH]; intros m; cbn.
    - rewrite Hbad. unfold Name0. by destruct (Name pattern).
    - rewrite Hre. apply IH. }
  by destruct (Name pattern).
Qed.

(** X7.  After a successful NewKeyDetector, the compiled map has an entry
    for an alias exactly when some pattern of the configuration declares
    that alias. *)
Theorem compiled_aliases configData d alias :
  NewKeyDetector configData = Done (Ok d) ->
  is_Some (compiled d !! alias) <->
  exists p, p ∈ patterns d /\ alias ∈ Name p.
Proof.
  intros [_ Hc]%NewKeyDetector_inv.
  destruct (compilePatterns_alias _ _ _ Hc alias)
    as [(j & q & re & Hj & Hin & _ & _ & Hm)|[Hnone Hm]].
  - split; [|by exists re]. intros _. exists q. split; [|done].
    by eapply list_elem_of_lookup_2.
  - rewrite Hm, lookup_empty. split; [by intros [? ?]|].
    intros (p & [i Hi]%list_elem_of_lookup_1 & Hin). by specialize (Hnone _ _ Hi).
Qed.

(** X8.  When DetectService returns a service, either it is the first alias
    of some entry whose regex in the compiled map matches the key, or it is
    the empty string and the regex looked up for every entry fails to match
    the key. *)
Theorem DetectService_sound d key service :
  DetectService d key = Done service ->
  (exists p re,
      p ∈ patterns d /\ Name p <> [] /\ canonical p = service /\
      compiled d !! service = Some re /\ MatchString re key = true)
  \/ (service = "" /\
      forall p, p ∈ patterns d ->
                Name p <> [] /\
                exists re, compiled d !! canonical p = Some re /\
                           MatchString re key = false).
Proof.
  unfold DetectService. generalize (compiled d) as m. intros m.
  induction (patterns d) as [|p ps IH]; cbn.
  - intros [= <-]. right. split; [done|]. intros p Hp. by apply elem_of_nil in Hp.
  - unfold Name0. destruct (Name p) as [|name names] eqn:En; [done|].
    destruct (m !! name) as [re|] eqn:Em; [|done].
    destruct (MatchString re key) eqn:Ematch.
    + intros [= <-]. left. exists p, re. unfold canonical. rewrite En.
      repeat split; try done. by apply elem_of_cons; left.
    + intros [(q & re' & Hq & ?)|[-> Hall]]%IH.
      * left. exists q, re'. split; [by apply elem_of_cons; right|done].
      * right. split; [done|]. intros q [->|Hq]%elem_of_cons; [|by apply Hall].
        unfold canonical. rewrite En. split; [done|]. by exists re.
Qed.

(** X9.  On a detector built by NewKeyDetector, DetectService can panic only
    with an index out of range and only if some entry has no alias; if every
    entry has an alias it returns on every key (every first alias has a
    compiled regex). *)
Theorem loaded_panics_only_without_alias configData d key :
  NewKeyDetector configData = Done (Ok d) ->
  (forall msg, DetectService d key = Panicked msg ->
               msg = indexOutOfRange /\ exists p, p ∈ patterns d /\ Name p = []) /\
  (Forall (fun p => Name p <> []) (patterns d) ->
   exists service, DetectService d key = Done service).
Proof.
  intros [_ Hc]%NewKeyDetector_inv. split.
  - intros msg. unfold DetectService.
    assert (Hreg : forall p, p ∈ patterns d -> Name p <> [] ->
                             is_Some (compiled d !! canonical p))
      by (intros; by eapply loaded_alias_registered).
    clear Hc. revert Hreg. generalize (compiled d) as m. intros m.
    induction (patterns d) as [|p ps IH]; cbn; [done|]. intros Hreg.
    unfold Name0. destruct (Name p) as [|name names] eqn:En.
    + intros [= <-]. split; [done|]. exists p. split; [by apply elem_of_cons; left|done].
    + destruct (Hreg p) as [re Hre]; [by apply elem_of_cons; left|by rewrite En|].
      unfold canonical in Hre. rewrite En in Hre. rewrite Hre.
      destruct (MatchString re key); [done|]. intros Hp.
      destruct IH as [-> (q & Hq & ?)]; [|done|].
      * intros q Hq. apply Hreg. by apply elem_of_cons; right.
      * split; [done|]. exists q. split; [by apply elem_of_cons; right|done].
  - intros Hnames. unfold DetectService. apply detectIn_returns.
    apply Forall_forall. intros p Hp.
    pose proof (proj1 (Forall_forall _ _) Hnames p Hp) as Hname.
    split; [done|]. by eapply loaded_alias_registered.
Qed.

End WithLib.
End DetectorMore.

Module ManagerMore.
Import Validator.

Section WithRuntime.
Context `{rt : Runtime}.

Lemma ValidateKey_registered (vm : ValidationManager) v ctx service key w :
  GetValidator vm service = Some v ->
  ValidateKey vm ctx service key w = Validate v ctx key w.
Proof.
  unfold ValidateKey. intros ->. by destruct (Validate v ctx key w) as [[?|?] ?].
Qed.

(** X10.  After RegisterValidator(v), ValidateKey for the service of v is
    v.Validate, and ValidateKey for any other service behaves as before the
    registration. *)
Theorem register_dispatch vm v ctx service key w :
  ValidateKey (RegisterValidator vm v) ctx service key w =
  if decide (service = GetService v) then Validate v ctx key w
  else ValidateKey vm ctx service key w.
Proof.
  destruct (decide (service = GetService v)) as [->|Hne].
  - apply ValidateKey_registered. unfold GetValidator, RegisterValidator. cbn.
    apply lookup_insert_eq.
  - unfold ValidateKey, GetValidator, RegisterValidator. cbn.
    by rewrite lookup_insert_ne.
Qed.

Lemma elem_of_GetSupportedServices vm service :
  service ∈ GetSupportedServices vm <-> is_Some (GetValidator vm service).
Proof.
  unfold GetSupportedServices, GetValidator. rewrite list_elem_of_fmap. split.
  - intros ([s v] & -> & Hin). apply elem_of_map_to_list in Hin. by exists v.
  - intros [v Hv]. exists (service, v). split; [done|].
    by apply elem_of_map_to_list.
Qed.

(** X11.  GetSupportedServices lists exactly the services for which
    GetValidator finds a validator, each of them once. *)
Theorem supported_services vm :
  NoDup (GetSupportedServices vm) /\
  forall service,
    service ∈ GetSupportedServices vm <-> is_Some (GetValidator vm service).
Proof.
  split; [|apply elem_of_GetSupportedServices].
  unfold GetSupportedServices. apply NoDup_fst_map_to_list.
Qed.

(** X12.  After RegisterValidator(v) the supported services are the service
    of v together with the services supported before: a registration removes
    none. *)
Theorem register_supported vm v service :
  service ∈ GetSupportedServices (RegisterValidator vm v) <->
  service = GetService v \/ service ∈ GetSupportedServices vm.
Proof.
  rewrite !elem_of_GetSupportedServices.
  unfold GetValidator, RegisterValidator. cbn.
  destruct (decide (service = GetService v)) as [->|Hne].
  - rewrite lookup_insert_eq. split; [auto|]. intros _. by eexists.
  - rewrite lookup_insert_ne by done. split; [auto|]. by intros [?|?].
Qed.

End WithRuntime.
End ManagerMore.

Module ServicesMore.
Import GoStrings Validator Services ServicesProps.

Section WithLibs.
Context `{rt : Runtime} `{net : !NetLib}.
Variable v : GoogleMapsValidator.
Variable ctx : Context.
Variable key : string.

(** X13.  Validate always returns a result and no error; the result names
    the service 'Google Safe Browsing API Key' and the time at the start of
    the call; it is Valid exactly when Permissions is non-empty; a valid
    result carries no Error and an empty ErrorStr; an invalid one carries
    ErrInvalidKey, the text 'API key not vulnerable for any endpoints' and
    risk level LOW. *)
Theorem verdict_invariants (endpoints : list APIEndpoint) (w : World) :
  exists verdict,
    (ValidateOver endpoints v ctx key w).1 = Ok verdict /\
    Service verdict = "Google Safe Browsing API Key" /\
    ValidatedAt verdict = time_Now w /\
    (Valid verdict = true <-> Permissions verdict <> []) /\
    (Valid verdict = true -> Error verdict = None /\ ErrorStr verdict = "") /\
    (Valid verdict = false ->
     Error verdict = Some ErrInvalidKey /\
     ErrorStr verdict = "API key not vulnerable for any endpoints" /\
     RiskLevel_ verdict = RiskLevelLow).
Proof.
  pose proof (ValidateOver_unfold v ctx key endpoints w) as HV. cbn zeta in HV.
  set (start := {| Valid := false; Service := Services.GetService v;
                   Permissions := [] |}) in *.
  destruct (checkEndpoints_spec v ctx key endpoints start [] w)
    as (H1 & _ & H3 & H4 & H5 & H6 & H7).
  cbn zeta in *. rewrite app_nil_l in H1. cbn [Valid start orb] in H3.
  rewrite <- H1 in H3.
  set (st := checkEndpoints v ctx key endpoints (start, [], w)) in *.
  rewrite HV. cbn [fst]. eexists. split; [reflexivity|].
  cbn [Valid set_RiskLevel set_Permissions].
  rewrite assessRiskLevel_count.
  destruct (Valid st.1.1) eqn:EV; cbn; rewrite ?EV, ?H4, ?H5, ?H6, ?H7; cbn.
  - repeat split; try done. intros _ Hnil. rewrite Hnil in H3. done.
  - destruct (st.1.2); [|done]. repeat split; done.
Qed.

Lemma checkEndpoint_details_new (st : LoopState) endpoint url :
  is_Some (Details (checkEndpoint v ctx key st endpoint).1.1 !! url) ->
  url = URL endpoint \/ is_Some (Details st.1.1 !! url).
Proof.
  destruct (decide (url = URL endpoint)) as [|Hne]; [auto|].
  rewrite checkEndpoint_details_other by done. auto.
Qed.

Lemma checkEndpoints_details_dom endpoints :
  forall (st : LoopState) url,
    is_Some (Details (checkEndpoints v ctx key endpoints st).1.1 !! url) <->
    url ∈ URL <$> endpoints \/ is_Some (Details st.1.1 !! url).
Proof.
  induction endpoints as [|endpoint rest IH]; intros st url.
  - cbn. split; [auto|]. intros [H|H]; [by apply elem_of_nil in H|done].
  - rewrite checkEndpoints_cons, IH, fmap_cons, elem_of_cons. split.
    + intros [?|[?|?]%checkEndpoint_details_new]; auto.
    + intros [[->|?]|?]; auto.
      * right. apply checkEndpoint_details_own.
      * right. by apply checkEndpoint_details_mono.
Qed.

(** X14.  The Details of the result of Validate have an entry for the URL of
    every endpoint probed and for nothing else. *)
Theorem details_domain (endpoints : list APIEndpoint) (w : World) url :
  exists verdict,
    (ValidateOver endpoints v ctx key w).1 = Ok verdict /\
    (is_Some (Details verdict !! url) <-> url ∈ URL <$> endpoints).
Proof.
  destruct (ValidateOver_fields v ctx key endpoints w)
    as (verdict & HV & _ & _ & _ & _ & _ & HD).
  exists verdict. rewrite HV. split; [done|].
  rewrite HD, checkEndpoints_details_dom. cbn. rewrite lookup_empty.
  split; [intros [?|[? ?]]; done|auto].
Qed.

End WithLibs.
End ServicesMore.

Module ServicesMore2.
Import GoStrings Validator Services ServicesProps ServicesMore.

Section WithLibs.
Context `{rt : Runtime} `{net : !NetLib}.
Variable v : GoogleMapsValidator.
Variable ctx : Context.
Variable key : string.

Lemma probes_fst endpoints w :
  (probes v ctx key endpoints w).*1 = endpoints.
Proof.
  revert w. induction endpoints as [|e rest IH]; intros w; [done|].
  rewrite probes_cons, fmap_cons, IH. done.
Qed.

(** X15.  The Permissions of the result of Validate are URLs of endpoints,
    in the order of the endpoint list (a sublist of the list of endpoint
    URLs). *)
Theorem permissions_in_order (endpoints : list APIEndpoint) (w : World) :
  exists verdict,
    (ValidateOver endpoints v ctx key w).1 = Ok verdict /\
    Permissions verdict `sublist_of` URL <$> endpoints.
Proof.
  destruct (ValidateOver_fields v ctx key endpoints w)
    as (verdict & HV & HP & _).
  exists verdict. rewrite HV. split; [done|]. rewrite HP.
  unfold vulnerableIds.
  rewrite <- (probes_fst endpoints w) at 2. rewrite <- list_fmap_compose.
  apply fmap_sublist, sublist_filter.
Qed.

Lemma checkEndpoints_world endpoints (st : LoopState) :
  (checkEndpoints v ctx key endpoints st).2 = worldAfter v ctx key endpoints st.2.
Proof.
  destruct st as [[result vuln] w].
  by destruct (checkEndpoints_spec v ctx key endpoints result vuln w) as (_ & ? & _).
Qed.

Lemma checkEndpoints_details_probes endpoints :
  forall (st : LoopState) p,
    NoDup (URL <$> endpoints) ->
    p ∈ probes v ctx key endpoints st.2 ->
    Details (checkEndpoints v ctx key endpoints st).1.1 !! URL p.1
    = Some (detailOf p).
Proof.
  induction endpoints as [|e rest IH]; intros st p Hnd Hin.
  - by apply elem_of_nil in Hin.
  - rewrite fmap_cons in Hnd. apply NoDup_cons in Hnd as [Hfresh Hnd].
    rewrite probes_cons in Hin. rewrite checkEndpoints_cons.
    apply elem_of_cons in Hin as [->|Hin].
    + cbn [fst]. rewrite checkEndpoints_details_other by done.
      apply checkEndpoint_details_set.
    + apply IH; [done|]. by rewrite checkEndpoint_world.
Qed.

(** X16.  If the endpoint URLs are distinct, every probe leaves its own
    entry in Details under the URL of its endpoint: status code and
    vulnerable flag for a response, 'Error: <error>' for a failed probe. *)
Theorem details_of_probes (endpoints : list APIEndpoint) (w : World) p :
  NoDup (URL <$> endpoints) ->
  p ∈ probes v ctx key endpoints w ->
  exists verdict,
    (ValidateOver endpoints v ctx key w).1 = Ok verdict /\
    Details verdict !! URL p.1 = Some (detailOf p).
Proof.
  intros Hnd Hin.
  destruct (ValidateOver_fields v ctx key endpoints w)
    as (verdict & HV & _ & _ & _ & _ & _ & HD).
  exists verdict. rewrite HV. split; [done|]. rewrite HD.
  by apply checkEndpoints_details_probes.
Qed.

(** X17.  If the endpoint URLs are distinct, a URL is in Permissions exactly
    when its entry in Details is a probe record with vulnerable = true. *)
Theorem permissions_match_details (endpoints : list APIEndpoint) (w : World) url :
  NoDup (URL <$> endpoints) ->
  exists verdict,
    (ValidateOver endpoints v ctx key w).1 = Ok verdict /\
    (url ∈ Permissions verdict <->
     exists code, Details verdict !! url = Some (DetailProbe code true)).
Proof.
  intros Hnd.
  destruct (ValidateOver_fields v ctx key endpoints w)
    as (verdict & HV & HP & _ & _ & _ & _ & HD).
  exists verdict. rewrite HV. split; [done|]. rewrite HP, HD.
  unfold vulnerableIds. rewrite list_elem_of_fmap. split.
  - intros (p & -> & [Hvuln Hin]%list_elem_of_filter).
    rewrite (checkEndpoints_details_probes endpoints (_, _, w) p Hnd Hin).
    unfold detailOf, reportsVulnerable in *.
    destruct p.2 as [resp|err]; [|done]. rewrite Hvuln. by eexists.
  - intros [code Hcode].
    assert (url ∈ URL <$> endpoints) as Hurl.
    { assert (is_Some (Details
                (checkEndpoints v ctx key endpoints
                   ({| Valid := false; Service := Services.GetService v;
                       Permissions := []; RiskLevel_ := ""; Details := ∅;
                       Error := None; ErrorStr := "";
                       ValidatedAt := time_Now w |}, [], w)).1.1 !! url))
        as Hdom by (by eexists).
      apply checkEndpoints_details_dom in Hdom as [?|[? Hempty]]; [done|].
      cbn in Hempty. by rewrite lookup_empty in Hempty. }
    rewrite <- (probes_fst endpoints w), <- list_fmap_compose in Hurl.
    apply list_elem_of_fmap in Hurl as (p & -> & Hin).
    exists p. split; [done|]. apply list_elem_of_filter. split; [|done].
    rewrite (checkEndpoints_details_probes endpoints (_, _, w) p Hnd Hin) in Hcode.
    unfold detailOf, reportsVulnerable in *.
    destruct p.2 as [resp|err]; [|done]. by injection Hcode as _ ->.
Qed.

(** X18.  assessRiskLevel is monotone in the number of vulnerable endpoints:
    a longer list never gets a lower risk level (LOW < MEDIUM < HIGH). *)
Theorem assessRiskLevel_monotone (l1 l2 : list string) :
  List.length l1 <= List.length l2 ->
  riskRank (assessRiskLevel v l1) <= riskRank (assessRiskLevel v l2).
Proof.
  rewrite !assessRiskLevel_count. unfold riskOfCount.
  intros Hle.
  destruct (List.length l1) as [|[|[|n1]]], (List.length l2) as [|[|[|n2]]];
    cbn; lia.
Qed.

Lemma fold_Values_Set (params : gmap string string)
      (q0 : gmap string (list string)) k :
  map_fold Values_Set q0 params !! k =
  match params !! k with
  | Some x => Some [x]
  | None => q0 !! k
  end.
Proof.
  apply (map_fold_weak_ind
           (fun q (m : gmap string string) =>
              q !! k = match m !! k with Some x => Some [x] | None => q0 !! k end)).
  - by rewrite lookup_empty.
  - intros i x m q Hfresh IH. unfold Values_Set.
    destruct (decide (i = k)) as [->|Hne].
    + by rewrite !lookup_insert_eq.
    + by rewrite !lookup_insert_ne.
Qed.

Lemma fold_Header_Set (headers : gmap string string) (req : Request) :
  let req' := map_fold Header_Set req headers in
  req_ctx req' = req_ctx req /\ req_method req' = req_method req /\
  req_url req' = req_url req /\ req_body req' = req_body req.
Proof.
  apply (map_fold_weak_ind
           (fun r (_ : gmap string string) =>
              req_ctx r = req_ctx req /\ req_method r = req_method req /\
              req_url r = req_url req /\ req_body r = req_body req)); [done|].
  intros i x m r _ IH. exact IH.
Qed.

Lemma validateEndpoint_sends endpoint req w :
  requestFor ctx endpoint key = Ok req ->
  (validateEndpoint v ctx endpoint key w).2 = (client_Do (client v) req w).2.
Proof.
  intros Hreq. rewrite validateEndpoint_requestFor, Hreq.
  destruct (client_Do (client v) req w) as [[resp|e] w']; [|done].
  by destruct (resp_Body resp).
Qed.

(** X19.  When validateEndpoint gets as far as sending a request, that
    request is the one handed to client.Do; it has the endpoint's method and
    the caller's context, and its URL is the parsed endpoint URL with a
    query in which every declared parameter has exactly its declared value,
    'key' is the key under probe unless the endpoint declares a parameter
    'key' (which then overrides it), and every other query parameter is the
    one of the endpoint URL. *)
Theorem request_carries_key endpoint req w :
  requestFor ctx endpoint key = Ok req ->
  (validateEndpoint v ctx endpoint key w).2 = (client_Do (client v) req w).2 /\
  exists u q,
    url_Parse (URL endpoint) = Ok u /\
    req_url req = url_String (url_setRawQuery u (url_Encode q)) /\
    req_method req = Method endpoint /\
    req_ctx req = ctx /\
    q !! "key" = Some [default key (Parameters endpoint !! "key")] /\
    (forall k x, Parameters endpoint !! k = Some x -> q !! k = Some [x]) /\
    (forall k, k <> "key" -> Parameters endpoint !! k = None ->
               q !! k = url_Query u !! k).
Proof.
  intros Hreq. split; [by apply validateEndpoint_sends|]. revert Hreq.
  unfold requestFor. destruct (url_Parse (URL endpoint)) as [u|e]; [|done].
  destruct (requestBody endpoint) as [body|e]; [|done].
  destruct (http_checkRequest _ _); [done|]. intros [= <-].
  exists u, (map_fold Values_Set (Values_Set "key" key (url_Query u))
               (Parameters endpoint)).
  destruct (fold_Header_Set (Headers endpoint)
              {| req_ctx := ctx; req_method := Method endpoint;
                 req_url := url_String
                   (url_setRawQuery u
                      (url_Encode (map_fold Values_Set
                                     (Values_Set "key" key (url_Query u))
                                     (Parameters endpoint))));
                 req_body := body; req_header := ∅ |})
    as (Hctx & Hmethod & Hurl & _).
  cbn zeta in *. split; [done|]. split; [exact Hurl|].
  split; [exact Hmethod|]. split; [exact Hctx|].
  split; [|split].
  - rewrite fold_Values_Set. unfold Values_Set.
    destruct (Parameters endpoint !! "key"); [done|]. by rewrite lookup_insert_eq.
  - intros k x Hk. by rewrite fold_Values_Set, Hk.
  - intros k Hne Hk. rewrite fold_Values_Set, Hk. unfold Values_Set.
    by rewrite lookup_insert_ne.
Qed.

End WithLibs.
End ServicesMore2.

Module ParMore.
Import Validator ParProps.

Section S.
Context `{rt : Runtime}.
Variable vm : ValidationManager.
Variable ctx : Context.
Variable service : string.
Variable keys : list string.

(** X20.  ValidateKeysParallel cannot deadlock: in every state reachable
    from the start in which the call has not returned, some goroutine (the
    caller or a worker) can make a move. *)
Theorem ValidateKeysParallel_no_deadlock (w0 : World) evs s :
  execAll vm ctx service keys evs (initial keys) = Some s ->
  main s <> Returned ->
  exists ev s', exec vm ctx service keys ev s = Some s'.
Proof.
  intros Hrun. apply (progress vm ctx service keys w0).
  by eapply reachable_Inv.
Qed.

Lemma exec_movesLeft ev s s' :
  Inv vm ctx service keys s ->
  exec vm ctx service keys ev s = Some s' ->
  S (movesLeft s') = movesLeft s.
Proof.
  intros HI Hexec. unfold movesLeft.
  destruct ev as [| | |i|i w|i now|i|i]; cbn in Hexec.
  - destruct (main s) as [k| |] eqn:Em; try done.
    destruct (decide (k < List.length keys)) as [Hk|]; [|done].
    injection Hexec as <-. cbn [main tasks set_main set_wg set_task mainMoves].
    destruct HI as [? _ _ _ _ _ Hm _]. unfold mainOk in Hm.
    rewrite Em in Hm. destruct Hm as [_ Hns].
    destruct (lookup_lt_is_Some_2 (tasks s) k) as [a Ea]; [lia|].
    assert (a = NotStarted) as -> by (apply (Hns _ _ Ea); lia).
    pose proof (total_insert movesOf _ _ _ Spawned Ea) as H.
    cbn [movesOf] in H. unfold total in *. lia.
  - destruct (main s) as [k| |] eqn:Em; try done.
    destruct (decide (k < List.length keys)); [done|].
    injection Hexec as <-. cbn. unfold total in *. lia.
  - destruct (main s) eqn:Em; try done. destruct (wg s); [|done].
    injection Hexec as <-. cbn. unfold total in *. lia.
  - destruct (tasks s !! i) as [[]|] eqn:Ei; try done.
    destruct (decide (semaphore s < semaphoreCapacity)); [|done].
    injection Hexec as <-.
    pose proof (total_insert movesOf _ _ _ Acquired Ei) as H. cbn in *.
    unfold total in *. lia.
  - destruct (tasks s !! i) as [[]|] eqn:Ei; try done.
    destruct (keys !! i) as [apiKey|]; [|done]. injection Hexec as <-.
    pose proof (total_insert movesOf _ _ _
                  (Called (ValidateKey vm ctx service apiKey w).1) Ei) as H.
    cbn in *. unfold total in *. lia.
  - destruct (tasks s !! i) as [[| | |r| | |]|] eqn:Ei; try done.
    injection Hexec as <-.
    pose proof (total_insert movesOf _ _ _ Stored Ei) as H. cbn in *.
    unfold total in *. lia.
  - destruct (tasks s !! i) as [[]|] eqn:Ei; try done.
    injection Hexec as <-.
    pose proof (total_insert movesOf _ _ _ Released Ei) as H. cbn in *.
    unfold total in *. lia.
  - destruct (tasks s !! i) as [[]|] eqn:Ei; try done.
    injection Hexec as <-.
    pose proof (total_insert movesOf _ _ _ Finished Ei) as H. cbn in *.
    unfold total in *. lia.
Qed.

Lemma execAll_movesLeft evs :
  forall s s', Inv vm ctx service keys s ->
               execAll vm ctx service keys evs s = Some s' ->
               List.length evs + movesLeft s' = movesLeft s.
Proof.
  induction evs as [|ev evs IH]; intros s s' HI H; cbn in H.
  - by injection H as <-.
  - destruct (exec vm ctx service keys ev s) as [s1|] eqn:E; [|done].
    pose proof (exec_movesLeft _ _ _ HI E).
    apply IH in H; [|by eapply exec_Inv]. cbn. lia.
Qed.

Lemma total_all_zero f (pcs : list TaskPc) :
  (forall i pc, pcs !! i = Some pc -> f pc = 0) -> total f pcs = 0.
Proof.
  unfold total. induction pcs as [|pc pcs IH]; intros H; [done|]. csimpl.
  rewrite (H 0 pc eq_refl), IH; [done|]. intros i pc' Hi. by apply (H (S i)).
Qed.

(** X21.  Every run of ValidateKeysParallel on n keys makes at most 6n+2
    moves, and a run that has returned has made exactly 6n+2: the call
    terminates under every schedule. *)
Theorem ValidateKeysParallel_moves evs s :
  execAll vm ctx service keys evs (initial keys) = Some s ->
  List.length evs <= 6 * List.length keys + 2 /\
  (main s = Returned -> List.length evs = 6 * List.length keys + 2).
Proof.
  intros Hrun. pose proof (reachable_Inv _ _ _ _ _ _ Hrun) as HI.
  pose proof (execAll_movesLeft _ _ _ (initial_Inv vm ctx service keys) Hrun) as H.
  assert (movesLeft (initial keys) = 6 * List.length keys + 2) as Hinit.
  { unfold movesLeft, initial. cbn [main tasks mainMoves].
    rewrite total_replicate. cbn [movesOf]. lia. }
  split; [lia|]. intros Hret.
  assert (movesLeft s = 0) as Hzero; [|lia].
  unfold movesLeft. rewrite Hret. cbn [mainMoves].
  rewrite total_all_zero; [done|]. intros i pc Hpc.
  destruct HI as [_ _ _ _ _ _ Hm _]. unfold mainOk in Hm. rewrite Hret in Hm.
  by rewrite (Hm _ _ Hpc).
Qed.

(** X22.  When ValidateKeysParallel returns, the semaphore is empty and the
    wait group counter is zero: every goroutine has released its slot and
    signalled completion. *)
Theorem ValidateKeysParallel_clean evs s :
  execAll vm ctx service keys evs (initial keys) = Some s ->
  main s = Returned ->
  semaphore s = 0 /\ wg s = 0.
Proof.
  intros Hrun Hret.
  destruct (reachable_Inv _ _ _ _ _ _ Hrun) as [_ _ _ Hsem _ Hwg Hm _].
  unfold mainOk in Hm. rewrite Hret in Hm.
  rewrite Hsem, Hwg. split; apply total_all_zero;
    intros i pc Hpc; by rewrite (Hm _ _ Hpc).
Qed.

Lemma exec_result_stable ev s s' i verdict :
  Inv vm ctx service keys s ->
  exec vm ctx service keys ev s = Some s' ->
  results s !! i = Some (Some verdict) ->
  results s' !! i = Some (Some verdict).
Proof.
  intros HI Hexec Hres.
  destruct ev as [| | |j|j w|j now|j|j]; cbn in Hexec.
  - destruct (main s); try done. destruct (decide _); [|done]. by injection Hexec as <-.
  - destruct (main s); try done. destruct (decide _); [done|]. by injection Hexec as <-.
  - destruct (main s); try done. destruct (wg s); [|done]. by injection Hexec as <-.
  - destruct (tasks s !! j) as [[]|]; try done. destruct (decide _); [|done].
    by injection Hexec as <-.
  - destruct (tasks s !! j) as [[]|]; try done. destruct (keys !! j); [|done].
    by injection Hexec as <-.
  - destruct (tasks s !! j) as [[| | |r| | |]|] eqn:Ej; try done.
    injection Hexec as <-. cbn.
    destruct (decide (j = i)) as [->|Hne]; [|by rewrite list_lookup_insert_ne].
    destruct HI as [_ _ _ _ _ _ _ Ht].
    destruct (Ht _ _ Ej) as (res & prod & Hr & _ & Hnone & _).
    rewrite Hres in Hr. injection Hr as <-. done.
  - destruct (tasks s !! j) as [[]|]; try done. by injection Hexec as <-.
  - destruct (tasks s !! j) as [[]|]; try done. by injection Hexec as <-.
Qed.

(** X23.  Once a slot of the results of ValidateKeysParallel holds a
    verdict, it holds the same verdict in every later state of the run: each
    slot is written once. *)
Theorem ValidateKeysParallel_slot_stable evs evs' s s' i verdict :
  execAll vm ctx service keys evs (initial keys) = Some s ->
  execAll vm ctx service keys evs' s = Some s' ->
  results s !! i = Some (Some verdict) ->
  results s' !! i = Some (Some verdict).
Proof.
  intros Hrun. pose proof (reachable_Inv _ _ _ _ _ _ Hrun) as HI. clear Hrun.
  revert s HI. induction evs' as [|ev evs' IH]; intros s HI Hrun' Hres; cbn in Hrun'.
  - by injection Hrun' as <-.
  - destruct (exec vm ctx service keys ev s) as [s1|] eqn:E; [|done].
    apply (IH s1); [by eapply exec_Inv|done|]. by eapply exec_result_stable.
Qed.

End S.
End ParMore.

Module PatternFileMore.
Import Detector PatternFile.

Section WithLib.
Context `{lib : DetectorLib} `{files : FileLib}.

Lemma checkPatterns_None ps : forall i,
  checkPatterns i ps = None <-> Forall validPattern ps.
Proof.
  induction ps as [|pattern rest IH]; intros i; cbn.
  - split; [constructor|done].
  - rewrite Forall_cons. unfold validPattern at 1.
    destruct (String.eqb pattern "") eqn:E.
    { apply String.eqb_eq in E. split; [done|]. by intros [[? _] _]. }
    apply String.eqb_neq in E.
    destruct (regexp_Compile ("^" ++ pattern ++ "$")) as [re|e].
    + rewrite IH. split; [|by intros [_ ?]]. intros ?. split; [|done].
      split; [done|by exists re].
    + split; [done|]. by intros [[_ [re ?]] _].
Qed.

Lemma checkPrefixes_None ps : forall i,
  checkPrefixes i ps = None <-> Forall (fun prefix => prefix <> "") ps.
Proof.
  induction ps as [|prefix rest IH]; intros i; cbn.
  - split; [constructor|done].
  - rewrite Forall_cons. destruct (String.eqb prefix "") eqn:E.
    + apply String.eqb_eq in E. split; [done|]. by intros [? _].
    + apply String.eqb_neq in E. rewrite IH. tauto.
Qed.

Lemma checkLengths_None ls : forall i,
  checkLengths i ls = None <-> Forall (fun length => (0 < length)%Z) ls.
Proof.
  induction ls as [|length rest IH]; intros i; cbn.
  - split; [constructor|done].
  - rewrite Forall_cons. destruct (Z.leb_spec length 0).
    + split; [done|]. intros [? _]. lia.
    + rewrite IH. tauto.
Qed.

Lemma validateServicePattern_None sp :
  validateServicePattern sp = None <-> validServicePattern sp.
Proof.
  unfold validateServicePattern, validServicePattern.
  destruct (Patterns sp) as [|pattern rest] eqn:Eps; cbn [List.length Nat.eqb].
  { split; [done|]. by intros [? _]. }
  assert (Hne : Patterns sp <> []) by (rewrite Eps; discriminate).
  rewrite <- Eps. clear Eps.
  destruct (checkPatterns 0 (Patterns sp)) as [e|] eqn:E1.
  { split; [done|]. intros (_ & H & _). rewrite <- (checkPatterns_None _ 0) in H.
    rewrite E1 in H. discriminate. }
  apply checkPatterns_None in E1.
  destruct (checkPrefixes 0 (Prefixes sp)) as [e|] eqn:E2.
  { split; [done|]. intros (_ & _ & H & _). rewrite <- (checkPrefixes_None _ 0) in H.
    rewrite E2 in H. discriminate. }
  apply checkPrefixes_None in E2. rewrite checkLengths_None.
  split; [|by intros (_ & _ & _ & ?)]. intros ?. repeat split; try done.
Qed.

Lemma checkPatterns_first before after : forall i,
  Forall validPattern before ->
  checkPatterns i (before ++ "" :: after)
  = Some ("empty pattern at index " ++ itoa (i + List.length before)).
Proof.
  induction before as [|pattern rest IH]; intros i Hvalid; cbn.
  - by rewrite Nat.add_0_r.
  - apply Forall_cons in Hvalid as [[Hne [re Hre]] Hvalid].
    apply String.eqb_neq in Hne. rewrite Hne, Hre, IH by done.
    do 3 f_equal. lia.
Qed.

(** X24.  If the patterns of a service before some index are non-empty and
    compile between ^ and $, and the pattern at that index is empty,
    validateServicePattern fails with 'empty pattern at index <index>'. *)
Theorem empty_pattern_reported sp before after :
  Patterns sp = (before ++ "" :: after)%list ->
  Forall validPattern before ->
  validateServicePattern sp
  = Some ("empty pattern at index " ++ itoa (List.length before)).
Proof.
  intros Hps Hvalid. unfold validateServicePattern. rewrite Hps.
  rewrite (checkPatterns_first before after 0 Hvalid).
  rewrite length_app. cbn.
  replace (List.length before + S (List.length after) =? 0)%nat with false
    by (symmetry; apply Nat.eqb_neq; lia).
  done.
Qed.

Lemma validateServices_None entries :
  validateServices entries = None <->
  Forall (fun e => e.1 <> "" /\ validServicePattern e.2) entries.
Proof.
  induction entries as [|[service sp] rest IH]; cbn.
  - split; [constructor|done].
  - rewrite Forall_cons. cbn. destruct (String.eqb service "") eqn:E.
    { apply String.eqb_eq in E. split; [done|]. by intros [[? _] _]. }
    apply String.eqb_neq in E.
    destruct (validateServicePattern sp) as [e|] eqn:Esp.
    + split; [done|]. intros [[_ H] _]. apply validateServicePattern_None in H.
      congruence.
    + apply validateServicePattern_None in Esp. rewrite IH. tauto.
Qed.

Lemma entries_valid order (config : gmap string ServicePattern) :
  order ≡ₚ map_to_list config ->
  Forall (fun e => e.1 <> "" /\ validServicePattern e.2) order <->
  forall service sp, config !! service = Some sp ->
                     service <> "" /\ validServicePattern sp.
Proof.
  intros Hperm. rewrite Hperm, Forall_forall. split.
  - intros H service sp Hsp. apply (H (service, sp)). by apply elem_of_map_to_list.
  - intros H [service sp] Hin. apply elem_of_map_to_list in Hin. by apply H.
Qed.

(** X25.  validatePatternConfig accepts a configuration exactly when it is
    non-empty, no service name is empty, and every service has at least one
    pattern, only non-empty patterns that compile between ^ and $, only non-
    empty prefixes and only positive lengths; this holds for every order in
    which the map is ranged over. *)
Theorem validatePatternConfig_None order (config : gmap string ServicePattern) :
  order ≡ₚ map_to_list config ->
  validatePatternConfigIn order config = None <->
  config <> ∅ /\
  forall service sp, config !! service = Some sp ->
                     service <> "" /\ validServicePattern sp.
Proof.
  intros Hperm. unfold validatePatternConfigIn.
  destruct (size config) as [|n] eqn:Esize; cbn [Nat.eqb].
  { apply map_size_empty_iff in Esize. split; [done|]. by intros [? _]. }
  rewrite validateServices_None, (entries_valid order config Hperm).
  assert (config <> ∅) as Hne.
  { intros ->. by rewrite map_size_empty in Esize. }
  tauto.
Qed.

(** X26.  ValidatePatternFile returns nil exactly when the file exists, can
    be read, holds valid JSON that decodes into a configuration, and that
    configuration is non-empty with only non-empty service names and valid
    service patterns. *)
Theorem ValidatePatternFile_None configPath :
  ValidatePatternFile configPath = None <->
  os_Stat_IsNotExist configPath = false /\
  exists data config,
    os_ReadFile configPath = Ok data /\ json_Valid data = true /\
    json_UnmarshalConfig data = Ok config /\
    config <> ∅ /\
    forall service sp, config !! service = Some sp ->
                       service <> "" /\ validServicePattern sp.
Proof.
  unfold ValidatePatternFile, validatePatternConfig, validatePatternConfigIn.
  destruct (os_Stat_IsNotExist configPath).
  { split; [done|]. by intros [? _]. }
  destruct (os_ReadFile configPath) as [data|e].
  2:{ split; [done|]. by intros (_ & ? & ? & ? & _). }
  destruct (json_Valid data) eqn:Evalid; cbn [negb].
  2:{ split; [done|]. intros (_ & ? & ? & [= <-] & ? & _). congruence. }
  destruct (json_UnmarshalConfig data) as [config|e] eqn:Edec.
  2:{ split; [done|]. intros (_ & ? & ? & [= <-] & _ & ? & _). congruence. }
  destruct (size config) as [|n] eqn:Esize; cbn [Nat.eqb].
  { apply map_size_empty_iff in Esize. split; [done|].
    intros (_ & ? & ? & [= <-] & _ & Hdec & ? & _).
    rewrite Edec in Hdec. by injection Hdec as <-. }
  assert (config <> ∅) as Hne.
  { intros ->. by rewrite map_size_empty in Esize. }
  rewrite validateServices_None, (entries_valid (map_to_list config) config) by done.
  split.
  - intros ?. split; [done|]. by exists data, config.
  - intros (_ & ? & ? & [= <-] & _ & Hdec & _ & ?).
    rewrite Edec in Hdec. by injection Hdec as <-.
Qed.

End WithLib.
End PatternFileMore.

Module MainMore.
Import GoStrings Main.

Section WithLibs.
Context `{rt : Validator.Runtime} `{net : !Services.NetLib}
        `{lib : Detector.DetectorLib}.
Variable verbose : bool.
Variable detector : Detector.KeyDetector.
Variable vm : Validator.ValidationManager.
Variable background : Validator.Context.

Lemma processKey_offline st key :
  panicked st = None -> unsupported detector vm key ->
  processKey verbose detector vm background st key =
  {| printed := (printed st ++ offlineReport detector key)%list;
     world := world st; panicked := None |}.
Proof.
  intros Hp (service & Hdet & Hs). unfold processKey, offlineReport.
  rewrite Hp, Hdet. destruct (String.eqb service "") eqn:E.
  - by rewrite app_assoc.
  - apply String.eqb_neq in E. destruct Hs as [?|Hnone]; [done|].
    unfold Validator.ValidateKey. rewrite Hnone. by rewrite app_assoc.
Qed.

Lemma processKeys_offline_from keys : forall st,
  panicked st = None -> Forall (unsupported detector vm) keys ->
  foldl (processKey verbose detector vm background) st keys =
  {| printed := (printed st ++ flat_map (offlineReport detector) keys)%list;
     world := world st; panicked := None |}.
Proof.
  induction keys as [|key keys IH]; intros st Hp Hall; cbn.
  - rewrite app_nil_r. destruct st. cbn in *. by subst.
  - apply Forall_cons in Hall as [Hkey Hall].
    rewrite processKey_offline by done. rewrite IH by done. cbn.
    by rewrite app_assoc.
Qed.

(** X28.  If every key is of an unknown service or of a service without a
    registered validator, the key loop of runValidation sends no request
    (the world is unchanged), does not panic, and prints for each key, in
    order, the verbose line of DetectService (if any) followed by 'Unknown
    service for key: <key>' or by 'Error validating key <key>: ' with the
    yellow text 'no validator found for service: <service>'. *)
Theorem processKeys_offline keys w :
  Forall (unsupported detector vm) keys ->
  processKeys verbose detector vm background keys w =
  {| printed := flat_map (offlineReport detector) keys;
     world := w; panicked := None |}.
Proof.
  intros Hall. unfold processKeys. by rewrite processKeys_offline_from.
Qed.

Lemma processKeys_panicked keys : forall st,
  panicked st <> None ->
  foldl (processKey verbose detector vm background) st keys = st.
Proof.
  induction keys as [|key keys IH]; intros st Hp; cbn; [done|].
  assert (processKey verbose detector vm background st key = st) as ->.
  { unfold processKey. by destruct (panicked st). }
  by apply IH.
Qed.

(** X29.  If DetectService panics on a key, the key loop of runValidation
    ends there: what was printed for the keys before stays, only what
    DetectService itself printed for that key is added, no request is made
    for that key, later keys are not looked at, and the panic is the
    outcome. *)
Theorem processKeys_panic before key after w msg :
  panicked (processKeys verbose detector vm background before w) = None ->
  Detector.DetectService detector key = Panicked msg ->
  processKeys verbose detector vm background (before ++ key :: after) w =
  {| printed :=
       (printed (processKeys verbose detector vm background before w)
          ++ Detector.DetectService_prints detector key)%list;
     world := world (processKeys verbose detector vm background before w);
     panicked := Some msg |}.
Proof.
  intros Hp Hdet. unfold processKeys in *. rewrite foldl_app. cbn [foldl].
  set (st := foldl _ _ before) in *.
  assert (processKey verbose detector vm background st key =
          {| printed := (printed st ++ Detector.DetectService_prints detector key)%list;
             world := world st; panicked := Some msg |}) as ->.
  { unfold processKey. by rewrite Hp, Hdet. }
  by rewrite processKeys_panicked.
Qed.

End WithLibs.

Section Google.
Context `{rt : Validator.Runtime} `{net : !Services.NetLib}.

Lemma initValidators_services service :
  is_Some (Validator.GetValidator initValidators service) <->
  service = "Google Safe Browsing API Key".
Proof.
  unfold initValidators, Validator.GetValidator, Validator.RegisterValidator. cbn.
  destruct (decide (service = "Google Safe Browsing API Key")) as [->|Hne].
  - rewrite lookup_insert_eq. split; [done|]. by eexists.
  - rewrite lookup_insert_ne by done. rewrite lookup_empty. split; [by intros [? ?]|done].
Qed.

(** X30.  If the service of a batch is registered with the Google Maps
    validator, then when ValidateKeysParallel returns every slot holds the
    result of Validate on its key, never a failure record, and that result
    names the service 'Google Safe Browsing API Key'. *)
Theorem google_batch vm ctx service keys gv evs s i apiKey :
  Validator.GetValidator vm service = Some (Services.asValidator gv) ->
  Validator.execAll vm ctx service keys evs (Validator.initial keys) = Some s ->
  Validator.main s = Validator.Returned ->
  keys !! i = Some apiKey ->
  exists w verdict,
    (Services.Validate gv ctx apiKey w).1 = Ok verdict /\
    Validator.results s !! i = Some (Some verdict) /\
    Validator.Service verdict = "Google Safe Browsing API Key".
Proof.
  intros Hreg Hrun Hret Hkey.
  pose proof (ParProps.reachable_Inv _ _ _ _ _ _ Hrun) as HI.
  destruct (ParProps.returned_slots vm ctx service keys s i apiKey HI Hret Hkey)
    as (_ & r & w & now & _ & -> & Hres).
  rewrite (ManagerMore.ValidateKey_registered vm _ ctx service apiKey w Hreg) in Hres.
  cbn [Validator.Validate Services.asValidator] in Hres.
  destruct (ServicesProps.ValidateOver_fields gv ctx apiKey
              Services.googleMapsEndpoints w)
    as (verdict & HV & _ & _ & _ & Hservice & _).
  exists w, verdict. unfold Services.Validate in *. rewrite HV in *.
  split; [done|]. split; [exact Hres|exact Hservice].
Qed.

End Google.
End MainMore.

Module MoreWitnesses.
Import GoStrings Example.

(** Piped input without a long line and without read error. *)
Lemma FromStdin_outcome_witness :
  Input.FromStdin (Input.NewParser false) pipedKeys
  = Ok ["key-1"; "key-2"; "key-3"].
Proof.
  rewrite (proj1 (InputMore.FromStdin_outcome (Input.NewParser false) pipedKeys)).
  - vm_compute. reflexivity.
  - repeat constructor.
  - reflexivity.
Defined.

(** The configuration with two services passes [ValidatePattern] entry by
    entry. *)
Lemma validated_config_loads_witness :
  exists d,
    Detector.NewKeyDetector twoServices = Done (Ok d) /\
    Detector.DetectService d "xy" = Done "A".
Proof.
  destruct (DetectorMore.validated_config_loads twoServices
              [{| Detector.Name := ["A"; "B"]; Detector.Regex := "x" |};
               {| Detector.Name := ["C"]; Detector.Regex := "xy" |}])
    as (d & Hd & Hps & _ & _).
  - reflexivity.
  - repeat constructor.
  - exists d. split; [exact Hd|].
    unfold Detector.DetectService. rewrite Hps.
    injection Hd as <-. reflexivity.
Defined.

(** The second entry of the configuration has the regex that does not
    compile. *)
Lemma first_bad_regex_reported_witness :
  Detector.NewKeyDetector badRegex
  = Done (Err ("invalid regex pattern for " ++ "B" ++ ": "
                 ++ "error parsing regexp: missing closing ): `(`")).
Proof.
  apply (DetectorMore.first_bad_regex_reported badRegex
           [{| Detector.Name := ["A"]; Detector.Regex := "x" |}]
           {| Detector.Name := ["B"]; Detector.Regex := "(" |} []).
  - reflexivity.
  - repeat constructor. by exists "x".
  - reflexivity.
Defined.

(** The alias B is in the map, the alias D is not. *)
Lemma compiled_aliases_witness :
  is_Some (Detector.compiled sharedAliasDetector !! "B") /\
  ~ is_Some (Detector.compiled sharedAliasDetector !! "D").
Proof.
  split.
  - apply (DetectorMore.compiled_aliases sharedAlias sharedAliasDetector "B");
      [reflexivity|].
    eexists. split; [apply list_elem_of_here|].
    cbn. apply elem_of_cons; right. apply list_elem_of_here.
  - intros H.
    apply (DetectorMore.compiled_aliases sharedAlias sharedAliasDetector "D")
      in H as (p & Hp & Hin); [|reflexivity].
    cbn in Hp. rewrite !elem_of_cons in Hp.
    destruct Hp as [->|[->|Hp]]; cbn in Hin.
    + rewrite !elem_of_cons in Hin. destruct Hin as [?|[?|Hin]]; try discriminate.
      by apply elem_of_nil in Hin.
    + rewrite !elem_of_cons in Hin. destruct Hin as [?|[?|Hin]]; try discriminate.
      by apply elem_of_nil in Hin.
    + by apply elem_of_nil in Hp.
Defined.

(** The key matches the first entry. *)
Lemma DetectService_sound_witness :
  Detector.DetectService sharedAliasDetector "xy" = Done "A" /\
  exists p, p ∈ Detector.patterns sharedAliasDetector /\
            Detector.canonical p = "A".
Proof.
  split; [reflexivity|].
  destruct (DetectorMore.DetectService_sound sharedAliasDetector "xy" "A")
    as [(p & re & Hp & _ & Hc & _)|[Hempty _]].
  - reflexivity.
  - by exists p.
  - discriminate.
Defined.

(** Every entry of the configuration has an alias. *)
Lemma loaded_panics_only_without_alias_witness :
  exists service, Detector.DetectService sharedAliasDetector "y" = Done service.
Proof.
  apply (DetectorMore.loaded_panics_only_without_alias sharedAlias
           sharedAliasDetector "y").
  - reflexivity.
  - repeat constructor; discriminate.
Defined.

(** The endpoints of the validator have distinct identifiers; the probe of
    Static Map, answered with status 200, leaves its entry. *)
Lemma details_of_probes_witness :
  exists verdict,
    (Services.ValidateOver (rt := scriptedRuntime) Services.googleMapsEndpoints
       Services.NewGoogleMapsValidator tt "KEY" streetviewDown).1 = Ok verdict /\
    Validator.Details verdict !! staticmap = Some (Validator.DetailProbe 200 true).
Proof.
  destruct (ServicesMore2.details_of_probes (rt := scriptedRuntime)
              Services.NewGoogleMapsValidator tt "KEY"
              Services.googleMapsEndpoints streetviewDown
              (default brokenEndpoint (Services.googleMapsEndpoints !! 0),
               Ok {| Services.StatusCode := 200; Services.Content := "PNG";
                     Services.Status := ""; Services.ErrorMessage := "" |}))
    as (verdict & HV & HD).
  - apply (bool_decide_unpack _). vm_compute. exact I.
  - apply elem_of_cons; left. reflexivity.
  - exists verdict. split; [exact HV|exact HD].
Defined.

Lemma permissions_match_details_witness :
  exists verdict,
    (Services.ValidateOver (rt := scriptedRuntime) Services.googleMapsEndpoints
       Services.NewGoogleMapsValidator tt "KEY" streetviewDown).1 = Ok verdict /\
    (staticmap ∈ Validator.Permissions verdict <->
     exists code,
       Validator.Details verdict !! staticmap
       = Some (Validator.DetailProbe code true)).
Proof.
  apply (ServicesMore2.permissions_match_details (rt := scriptedRuntime)
           Services.NewGoogleMapsValidator tt "KEY"
           Services.googleMapsEndpoints streetviewDown staticmap).
  apply (bool_decide_unpack _). vm_compute. exact I.
Defined.

Lemma assessRiskLevel_monotone_witness :
  Services.riskRank
    (Services.assessRiskLevel Services.NewGoogleMapsValidator [staticmap])
  <= Services.riskRank
       (Services.assessRiskLevel Services.NewGoogleMapsValidator
          [staticmap; streetview; directions]).
Proof.
  apply ServicesMore2.assessRiskLevel_monotone. cbn. lia.
Defined.

(** The request of the Street View probe. *)
Lemma request_carries_key_witness :
  exists req (q : gmap string (list string)),
    Services.requestFor (rt := scriptedRuntime) tt streetviewEndpoint "KEY"
    = Ok req /\
    q !! "key" = Some ["KEY"] /\
    Services.req_method req = "GET".
Proof.
  destruct (Services.requestFor (rt := scriptedRuntime) tt streetviewEndpoint "KEY")
    as [req|e] eqn:Ereq; [|discriminate].
  destruct (ServicesMore2.request_carries_key (rt := scriptedRuntime)
              Services.NewGoogleMapsValidator tt "KEY" streetviewEndpoint req
              streetviewDown Ereq)
    as (_ & u & q & _ & _ & Hmethod & _ & Hkey & _).
  exists req, q. split; [reflexivity|]. split; [exact Hkey|exact Hmethod].
Defined.

(** With five goroutines holding the semaphore, some goroutine can move. *)
Lemma ValidateKeysParallel_no_deadlock_witness :
  exists s ev s',
    Validator.execAll (rt := scriptedRuntime) pickyManager tt "picky" sixKeys
      fiveAcquired (Validator.initial sixKeys) = Some s /\
    Validator.exec pickyManager tt "picky" sixKeys ev s = Some s'.
Proof.
  destruct (Validator.execAll (rt := scriptedRuntime) pickyManager tt "picky"
              sixKeys fiveAcquired (Validator.initial sixKeys))
    as [s|] eqn:Erun; [|discriminate].
  destruct (ParMore.ValidateKeysParallel_no_deadlock (rt := scriptedRuntime)
              pickyManager tt "picky" sixKeys quiet fiveAcquired s Erun)
    as (ev & s' & Hexec).
  - vm_compute in Erun. injection Erun as <-. discriminate.
  - by exists s, ev, s'.
Defined.

(** Three keys: twenty moves. *)
Lemma ValidateKeysParallel_moves_witness :
  List.length lastFirst <= 6 * List.length ["a"; "bad"; "c"] + 2.
Proof.
  destruct (Validator.execAll (rt := scriptedRuntime) pickyManager tt "picky"
              ["a"; "bad"; "c"] lastFirst (Validator.initial ["a"; "bad"; "c"]))
    as [s|] eqn:Erun; [|discriminate].
  exact (proj1 (ParMore.ValidateKeysParallel_moves (rt := scriptedRuntime)
                  pickyManager tt "picky" ["a"; "bad"; "c"] lastFirst s Erun)).
Defined.

Lemma ValidateKeysParallel_clean_witness :
  exists s,
    Validator.execAll (rt := scriptedRuntime) pickyManager tt "picky"
      ["a"; "bad"; "c"] lastFirst (Validator.initial ["a"; "bad"; "c"]) = Some s /\
    Validator.semaphore s = 0 /\ Validator.wg s = 0.
Proof.
  destruct (Validator.execAll (rt := scriptedRuntime) pickyManager tt "picky"
              ["a"; "bad"; "c"] lastFirst (Validator.initial ["a"; "bad"; "c"]))
    as [s|] eqn:Erun; [|discriminate].
  exists s. split; [reflexivity|].
  apply (ParMore.ValidateKeysParallel_clean (rt := scriptedRuntime)
           pickyManager tt "picky" ["a"; "bad"; "c"] lastFirst s Erun).
  vm_compute in Erun. injection Erun as <-. reflexivity.
Defined.

(** The slot of the last key, written after nine moves, is the same when the
    call returns. *)
Lemma ValidateKeysParallel_slot_stable_witness :
  exists s s' verdict,
    Validator.execAll (rt := scriptedRuntime) pickyManager tt "picky"
      ["a"; "bad"; "c"] (take 9 lastFirst) (Validator.initial ["a"; "bad"; "c"])
    = Some s /\
    Validator.execAll pickyManager tt "picky" ["a"; "bad"; "c"]
      (drop 9 lastFirst) s = Some s' /\
    Validator.results s !! 2 = Some (Some verdict) /\
    Validator.results s' !! 2 = Some (Some verdict).
Proof.
  eexists _, _, _. split; [vm_compute; reflexivity|].
  split; [vm_compute; reflexivity|]. split; [vm_compute; reflexivity|].
  eapply (ParMore.ValidateKeysParallel_slot_stable (rt := scriptedRuntime)
            pickyManager tt "picky" ["a"; "bad"; "c"] (take 9 lastFirst)
            (drop 9 lastFirst)).
  - vm_compute. reflexivity.
  - vm_compute. reflexivity.
  - vm_compute. reflexivity.
Defined.

(** The second pattern is empty, the first one compiles between anchors. *)
Lemma empty_pattern_reported_witness :
  PatternFile.validateServicePattern (lib := anchoredLib) emptySecond
  = Some ("empty pattern at index " ++ "1").
Proof.
  apply (PatternFileMore.empty_pattern_reported (lib := anchoredLib)
           emptySecond ["AIza"] ["ya29"]).
  - reflexivity.
  - repeat constructor; [discriminate|]. by exists "AIza".
Defined.

Lemma validatePatternConfig_None_witness :
  PatternFile.validatePatternConfigIn (lib := anchoredLib)
    [("google", googlePattern)] googleConfig = None.
Proof.
  apply (PatternFileMore.validatePatternConfig_None (lib := anchoredLib)
           [("google", googlePattern)] googleConfig).
  - unfold googleConfig. by rewrite map_to_list_singleton.
  - split.
    + unfold googleConfig. intros H.
      apply (f_equal (fun m => m !! "google")) in H.
      rewrite lookup_singleton_eq, lookup_empty in H. discriminate.
    + intros service sp Hsp. unfold googleConfig in Hsp.
      apply lookup_singleton_Some in Hsp as [<- <-].
      split; [discriminate|].
      repeat split; try discriminate.
      * repeat constructor; try discriminate; by eexists.
      * repeat constructor; discriminate.
      * repeat constructor.
Defined.

(** No pattern matches the first key; the second is of service A, which has
    no validator: the world stays as it is. *)
Lemma processKeys_offline_witness :
  Main.world
    (Main.processKeys (rt := scriptedRuntime) false sharedAliasDetector
       pickyManager tt ["zzz"; "x"] quiet) = quiet.
Proof.
  rewrite (MainMore.processKeys_offline (rt := scriptedRuntime) false
             sharedAliasDetector pickyManager tt ["zzz"; "x"] quiet).
  - reflexivity.
  - repeat constructor.
    + exists "". split; [reflexivity|by left].
    + exists "A". split; [reflexivity|right; reflexivity].
Defined.

(** The entry without alias makes the second key the last one looked at. *)
Lemma processKeys_panic_witness :
  Main.panicked
    (Main.processKeys (rt := scriptedRuntime) false noAliasDetector
       pickyManager tt ([] ++ "a" :: ["b"]) quiet)
  = Some Detector.indexOutOfRange.
Proof.
  rewrite (MainMore.processKeys_panic (rt := scriptedRuntime) false
             noAliasDetector pickyManager tt [] "a" ["b"] quiet
             Detector.indexOutOfRange).
  - reflexivity.
  - reflexivity.
  - reflexivity.
Defined.

(** One key for the manager of [initValidators]. *)
Lemma google_batch_witness :
  exists s verdict,
    Validator.execAll (rt := scriptedRuntime) Main.initValidators tt
      "Google Safe Browsing API Key" ["KEY"] oneKey (Validator.initial ["KEY"])
    = Some s /\
    Validator.results s !! 0 = Some (Some verdict) /\
    Validator.Service verdict = "Google Safe Browsing API Key".
Proof.
  pose (run := Validator.execAll (rt := scriptedRuntime) Main.initValidators tt
                 "Google Safe Browsing API Key" ["KEY"] oneKey
                 (Validator.initial ["KEY"])).
  pose (s := default (Validator.initial ["KEY"]) run).
  assert (run = Some s) as Erun by (vm_cast_no_check (eq_refl (Some s))).
  assert (Validator.main s = Validator.Returned) as Hret
    by (vm_cast_no_check (eq_refl Validator.Returned)).
  destruct (MainMore.google_batch (rt := scriptedRuntime) Main.initValidators tt
              "Google Safe Browsing API Key" ["KEY"]
              Services.NewGoogleMapsValidator oneKey s 0 "KEY")
    as (w & verdict & _ & Hres & Hservice);
    [reflexivity|exact Erun|exact Hret|reflexivity|].
  exists s, verdict. split; [exact Erun|]. split; [exact Hres|exact Hservice].
Defined.

End MoreWitnesses.

